(** * qst::Wavefunction (wavefunction.hpp)

    A shallow embedding of the class [qst::Wavefunction]: the complex
    wavefunction built from two restricted Boltzmann machines (one for the
    amplitude, one for the phase), its Bernoulli layer sampler, its
    parameter marshalling, its numeric helpers and the rotated-basis
    gradient [rotatedGrad].

    Conventions of the embedding.
    - The numbers that a caller hands to the class (configurations,
      probabilities, energy gradients, parameters, the matrices of the
      unitary table) are finite and idealised as real numbers ([R], and
      [complex] for a pair of them); rounding is outside the embedding.
    - The class itself leaves the finite numbers in three places:
      [std::sqrt] of a negative number, [std::log] of a number that is
      not positive, and the division by a zero denominator that ends
      [rotatedGrad].  The values computed there and after are followed as
      [double] and [cdouble], which have NaN and the infinities beside
      the finite numbers.
    - [int] is [Z]; the one place where the width of [int] matters
      ([1<<t]) is written out.
    - [Eigen::VectorXd] is a list of reals, [Eigen::MatrixXd] a pair of
      dimensions with a coefficient function, [std::vector<std::string>]
      a list of strings, [std::map<std::string,Eigen::MatrixXcd>] a
      [gmap], [std::bitset<16>] a 16-bit pattern.
    - An access outside a container is undefined behaviour of the C++
      program (an assertion failure in an Eigen debug build); it is an
      explicit [Undefined] outcome here.
    - A call returns ([Returned]), or leaves through an exception
      ([Thrown]), or has undefined behaviour ([Undefined]).  No method of
      the class has a throw expression, so [Thrown] is never produced; it
      is there to say so.
    - The class [Rbm] and the standard random engine are not part of
      wavefunction.hpp; they enter through the interfaces [RbmModel] and
      [RandomEngine]. *)

From Stdlib Require Import ZArith List String Reals Lra Lia Bool.
From stdpp Require Import base option list gmap strings.

#[local] Open Scope Z_scope.

(** ** Outcomes of a C++ call *)

Module Cxx.

(** The ways in which the C++ standard (or Eigen's documented
    preconditions) leaves an operation of the source without a meaning. *)
Inductive fault : Set :=
| VectorIndex    (* operator[] / operator() outside a vector *)
| BitsetIndex    (* std::bitset<16>::operator[] at a position >= 16 *)
| MatrixIndex    (* operator()(row, col) outside a matrix *)
| ShiftOverflow  (* 1 << t with t negative or not below the width of int *)
| SizeMismatch   (* coefficient-wise operation on different sizes *)
| FloatToInt     (* int(x) with x outside the range of int *)
| NegativeSize.  (* a vector constructed with a negative size *)

(** A call returns normally, leaves through an exception, or has
    undefined behaviour. *)
Inductive outcome (A : Type) : Type :=
| Returned (a : A)
| Thrown (what : string)
| Undefined (f : fault).

Arguments Returned {A} a.
Arguments Thrown {A} what.
Arguments Undefined {A} f.

(** Computations over a mutable store [St]. *)
Definition M (St A : Type) : Type := St -> St * outcome A.

Definition ret {St A : Type} (a : A) : M St A :=
  fun st => (st, Returned a).

Definition bind {St A B : Type} (c : M St A) (k : A -> M St B) : M St B :=
  fun st =>
    match c st with
    | (st', Returned a) => k a st'
    | (st', Thrown e) => (st', Thrown e)
    | (st', Undefined f) => (st', Undefined f)
    end.

Definition undefined {St A : Type} (f : fault) : M St A :=
  fun st => (st, Undefined f).

Definition get {St : Type} : M St St :=
  fun st => (st, Returned st).

Definition put {St : Type} (st' : St) : M St unit :=
  fun _ => (st', Returned tt).

Declare Scope cxx_scope.
Delimit Scope cxx_scope with cxx.

Notation "x <- c ;; k" := (bind c (fun x => k))
  (at level 100, c at next level, right associativity) : cxx_scope.

(** [for (int i = lo; i < hi; i++) body], threading the loop-carried
    variables [s]. *)
Fixpoint iterate_from {St S : Type} (n : nat) (i : Z)
    (body : Z -> S -> M St S) (s : S) : M St S :=
  match n with
  | O => ret s
  | Datatypes.S n' => bind (body i s) (fun s' => iterate_from n' (i + 1) body s')
  end.

Definition for_loop {St S : Type} (lo hi : Z)
    (body : Z -> S -> M St S) (s : S) : M St S :=
  iterate_from (Z.to_nat (hi - lo)) lo body s.

End Cxx.

Import Cxx.
#[local] Open Scope cxx_scope.

(** ** std::complex<double> *)

Record complex : Type := Cplx { re : R; im : R }.

(** The conversion [double -> std::complex<double>] ([U=1.0], [den=0.0]). *)
Definition of_double (x : R) : complex := Cplx x 0.

Definition cadd (a b : complex) : complex :=
  Cplx (re a + re b) (im a + im b).

Definition cmul (a b : complex) : complex :=
  Cplx (re a * re b - im a * im b) (re a * im b + im a * re b).

Definition cdiv (a b : complex) : complex :=
  let d := (re b * re b + im b * im b)%R in
  Cplx ((re a * re b + im a * im b) / d) ((im a * re b - re a * im b) / d).

(** [operator*(const T&, const complex<T>&)] and
    [operator*(const complex<T>&, const T&)]. *)
Definition scale_l (x : R) (z : complex) : complex :=
  Cplx (x * re z) (x * im z).

Definition scale_r (z : complex) (x : R) : complex :=
  Cplx (re z * x) (im z * x).

(** [std::exp] on a complex argument. *)
Definition cexp (z : complex) : complex :=
  Cplx (exp (re z) * cos (im z)) (exp (re z) * sin (im z)).

(** [std::abs] on a complex argument. *)
Definition cabs (z : complex) : R :=
  sqrt (re z * re z + im z * im z).

Definition complex_eq_dec (a b : complex) : {a = b} + {a <> b}.
Proof.
  destruct a as [ra ia], b as [rb ib].
  destruct (Req_dec_T ra rb) as [Hr | Hr];
    [destruct (Req_dec_T ia ib) as [Hi | Hi]|].
  - left. subst. reflexivity.
  - right. intros H. injection H as _ H. contradiction.
  - right. intros H. injection H as H _. contradiction.
Defined.

(** ** Values computed by the class *)

(** A [double] computed by the class: a finite number, an infinity, or
    NaN. *)
Inductive double : Type :=
| Fin (x : R)
| PlusInfinity
| MinusInfinity
| NaN.

(** [std::sqrt] on a finite argument: NaN below zero. *)
Definition std_sqrt (x : R) : double :=
  if Rlt_dec x 0 then NaN else Fin (sqrt x).

(** [std::log] on a finite argument: minus infinity at zero, NaN below. *)
Definition std_log (x : R) : double :=
  if Rlt_dec 0 x then Fin (ln x)
  else if Rlt_dec x 0 then NaN else MinusInfinity.

(** A [std::complex<double>] computed by the class.
    - [Num z]: both components are finite.
    - [cNaN]: both components are NaN.
    - [cInf]: a component is infinite.  Such a value only comes out of
      the division of a number other than zero by zero; which component
      is infinite, and with which sign, depends on the sign of the zero,
      which the embedding does not follow. *)
Inductive cdouble : Type :=
| Num (z : complex)
| cNaN
| cInf.

(** The conversion [double -> std::complex<double>] of a finite number. *)
Definition cd_of_double (x : R) : cdouble := Num (of_double x).

(** [operator+] and [operator*] of <complex>.  A NaN operand gives NaN in
    both components.  The class forms no sum or product with an operand
    that has an infinite component; such an operand is left as it is. *)
Definition cd_add (a b : cdouble) : cdouble :=
  match a, b with
  | Num x, Num y => Num (cadd x y)
  | cNaN, _ | _, cNaN => cNaN
  | _, _ => cInf
  end.

Definition cd_mul (a b : cdouble) : cdouble :=
  match a, b with
  | Num x, Num y => Num (cmul x y)
  | cNaN, _ | _, cNaN => cNaN
  | _, _ => cInf
  end.

(** [operator/] of <complex>.  Zero divided by zero is NaN in both
    components; another number divided by zero has an infinite
    component.  A NaN operand gives NaN.  The class never divides by a
    value that has an infinite component. *)
Definition cd_div (a b : cdouble) : cdouble :=
  match a, b with
  | Num x, Num y =>
      if complex_eq_dec y (of_double 0)
      then (if complex_eq_dec x (of_double 0) then cNaN else cInf)
      else Num (cdiv x y)
  | cNaN, _ | _, cNaN => cNaN
  | _, _ => cInf
  end.

(** [std::abs] on a complex value. *)
Definition std_abs (z : cdouble) : double :=
  match z with
  | Num z => Fin (cabs z)
  | cNaN => NaN
  | cInf => PlusInfinity
  end.

(** ** Containers *)

Abbreviation VectorXd := (list R).
Abbreviation VectorXcd := (list cdouble).

(** A dense matrix: its dimensions and its coefficients. *)
Record Matrix (T : Type) : Type := Mat {
  rows : Z;
  cols : Z;
  coeff : Z -> Z -> T
}.

Arguments Mat {T} rows cols coeff.
Arguments rows {T} m.
Arguments cols {T} m.
Arguments coeff {T} m r c.

Abbreviation MatrixXd := (Matrix R).
Abbreviation MatrixXcd := (Matrix complex).

(** A default-constructed [Eigen::MatrixXcd]: no rows, no columns. *)
Definition MatrixXcd_default : MatrixXcd :=
  Mat 0 0 (fun _ _ => of_double 0).

Definition in_matrix {T : Type} (m : Matrix T) (r c : Z) : bool :=
  (0 <=? r) && (r <? rows m) && (0 <=? c) && (c <? cols m).

(** [m(r, c)] read. *)
Definition mat_at {St T : Type} (m : Matrix T) (r c : Z) : M St T :=
  if in_matrix m r c then ret (coeff m r c) else undefined MatrixIndex.

(** [m(r, c) = x]. *)
Definition mat_set {St T : Type} (m : Matrix T) (r c : Z) (x : T)
    : M St (Matrix T) :=
  if in_matrix m r c
  then ret (Mat (rows m) (cols m)
              (fun r' c' => if (r' =? r) && (c' =? c) then x else coeff m r' c'))
  else undefined MatrixIndex.

(** [v[j]] / [v(j)] read. *)
Definition vec_at {St A : Type} (v : list A) (j : Z) : M St A :=
  if j <? 0 then undefined VectorIndex
  else match v !! Z.to_nat j with
       | Some x => ret x
       | None => undefined VectorIndex
       end.

(** [v(j) = x]. *)
Definition vec_set {St A : Type} (v : list A) (j : Z) (x : A)
    : M St (list A) :=
  if (0 <=? j) && (j <? Z.of_nat (length v))
  then ret (<[Z.to_nat j := x]> v)
  else undefined VectorIndex.

(** [Eigen::VectorXd x(n)]: the coefficients are not initialised by the
    constructor; they stand as 0 until they are assigned. *)
Definition new_vector {St : Type} (n : Z) : M St VectorXd :=
  if n <? 0 then undefined NegativeSize
  else ret (replicate (Z.to_nat n) 0%R).

(** [Eigen::VectorXcd num(n); num.setZero();]. *)
Definition zero_vector {St : Type} (n : Z) : M St VectorXcd :=
  if n <? 0 then undefined NegativeSize
  else ret (replicate (Z.to_nat n) (cd_of_double 0)).

(** [num += x] on vectors of complex numbers. *)
Definition vec_add_assign {St : Type} (num x : VectorXcd) : M St VectorXcd :=
  if Nat.eqb (length num) (length x)
  then ret (zip_with cd_add num x)
  else undefined SizeMismatch.

(** [der << a, b] into a vector constructed with [n] coefficients. *)
Definition comma_init {St : Type} (n : Z) (a b : VectorXd) : M St VectorXd :=
  if n <? 0 then undefined NegativeSize
  else if Z.of_nat (length (a ++ b)) =? n then ret (a ++ b)
  else undefined SizeMismatch.

(** [std::bitset<16>]: the pattern is kept as a number below 2^16. *)
Definition bitset16 := Z.

(** [bit = i]: the low 16 bits of [i]. *)
Definition bitset16_of_int (i : Z) : bitset16 := Z.land i 65535.

(** [bit[pos]]. *)
Definition bitset16_at {St : Type} (b : bitset16) (pos : Z) : M St bool :=
  if (0 <=? pos) && (pos <? 16) then ret (Z.testbit b pos)
  else undefined BitsetIndex.

(** [bool -> double]. *)
Definition double_of_bool (b : bool) : R := if b then 1%R else 0%R.

(** [int(x)] for a [double] x: truncation towards zero, defined when the
    truncated value is representable in [int]. *)
Definition truncate (x : R) : Z :=
  if Rle_dec 0 x then Int_part x else - Int_part (- x).

Definition int_of_double {St : Type} (x : R) : M St Z :=
  let z := truncate x in
  if (-2147483648 <=? z) && (z <=? 2147483647) then ret z
  else undefined FloatToInt.

(** [1 << t] in a 32-bit [int].  Up to [t = 30] the value is [2^t].  For
    [t = 31] the value [2^31] fits the unsigned type and is converted to
    [int], which gives [-2^31] (two's complement).  A negative [t], or one
    from 32 on, is undefined. *)
Definition shl_one {St : Type} (t : Z) : M St Z :=
  if (0 <=? t) && (t <=? 30) then ret (Z.shiftl 1 t)
  else if t =? 31 then ret (-2147483648)
  else undefined ShiftOverflow.

(** [Unitaries[key]]: a key that is absent is first inserted with a
    default-constructed matrix. *)
Definition map_subscript (key : string) : M (gmap string MatrixXcd) MatrixXcd :=
  fun table =>
    match table !! key with
    | Some m => (table, Returned m)
    | None => (<[key := MatrixXcd_default]> table, Returned MatrixXcd_default)
    end.

(** ** The collaborators of the class *)

(** Modelled from the spec: the class [Rbm] (the energy model behind
    [rbmAm_] and [rbmPh_]) is not in wavefunction.hpp.  These are the
    operations of the interface that the class consumes; [Rbm] is the
    state of one model object. *)
Class RbmModel : Type := {
  Parameters : Type;
  Rbm : Type;
  Rbm_new : Parameters -> Rbm;
  Rbm_Npar : Rbm -> Z;
  Rbm_Nvisible : Rbm -> Z;
  Rbm_InitRandomPars : Z -> R -> Rbm -> Rbm;
  Rbm_prob : Rbm -> VectorXd -> R;
  Rbm_VisEnergyGrad : Rbm -> VectorXd -> VectorXd;
  Rbm_GetParameters : Rbm -> VectorXd;
  Rbm_SetParameters : VectorXd -> Rbm -> Rbm
}.

(** The standard library's [std::mt19937] with
    [std::uniform_real_distribution<double>(0,1)] on top of it: one draw
    returns a value and the advanced engine, and the draw lies in [0,1). *)
Class RandomEngine : Type := {
  mt19937 : Type;
  mt19937_seed : Z -> mt19937;
  uniform_real_01 : mt19937 -> R * mt19937;
  uniform_real_01_range :
    forall g, (0 <= fst (uniform_real_01 g) < 1)%R
}.

(** ** The class *)

Section Wavefunction.

Context {rbm : RbmModel} {rng : RandomEngine}.

Record Wavefunction : Type := mkWavefunction {
  N_ : Z;
  npar_ : Z;
  rbmAm_ : Rbm;
  rbmPh_ : Rbm;
  rgen_ : mt19937
}.

(** The imaginary unit: the member [I_] is const and initialised to
    [(0,1)] by the only constructor. *)
Definition I_ : complex := Cplx 0 1.

(** The constructor. *)
Definition Wavefunction_new (par : Parameters) : Wavefunction :=
  let am := Rbm_new par in
  let ph := Rbm_new par in
  {| N_ := Rbm_Nvisible am;
     npar_ := Rbm_Npar am + Rbm_Npar ph;
     rbmAm_ := am;
     rbmPh_ := ph;
     rgen_ := mt19937_seed 13579 |}.

Definition N (w : Wavefunction) : Z := N_ w.
Definition Npar (w : Wavefunction) : Z := npar_ w.

Definition with_models (w : Wavefunction) (am ph : Rbm) : Wavefunction :=
  {| N_ := N_ w; npar_ := npar_ w; rbmAm_ := am; rbmPh_ := ph;
     rgen_ := rgen_ w |}.

Definition with_rgen (w : Wavefunction) (g : mt19937) : Wavefunction :=
  {| N_ := N_ w; npar_ := npar_ w; rbmAm_ := rbmAm_ w; rbmPh_ := rbmPh_ w;
     rgen_ := g |}.

Definition InitRandomPars (seed : Z) (sigma : R) (w : Wavefunction)
    : Wavefunction :=
  let am := Rbm_InitRandomPars seed sigma (rbmAm_ w) in
  let ph := Rbm_InitRandomPars seed sigma (rbmPh_ w) in
  with_models w am ph.

Definition amplitude (w : Wavefunction) (v : VectorXd) : double :=
  std_sqrt (Rbm_prob (rbmAm_ w) v).

Definition phase (w : Wavefunction) (v : VectorXd) : double :=
  std_log (Rbm_prob (rbmPh_ w) v).

(** [amplitude(v)*exp(0.5*I_*phase(v))].  With a finite amplitude and a
    finite phase this is the arithmetic of <complex>.  When [phase(v)] is
    not finite, the product [0.5*I_*phase(v)] has the real part
    [0*phase(v)], which is NaN, and [std::exp] of a complex number with a
    NaN real part and an imaginary part other than zero is NaN in both
    components; a product with that, or with a NaN amplitude, is NaN in
    both components.  (An infinite amplitude, which [std::sqrt] does not
    return on a finite argument, gives an infinite component.) *)
Definition psi (w : Wavefunction) (v : VectorXd) : cdouble :=
  match amplitude w v, phase w v with
  | Fin a, Fin p => Num (scale_l a (cexp (scale_r (scale_l 0.5 I_) p)))
  | (PlusInfinity | MinusInfinity), Fin _ => cInf
  | _, _ => cNaN
  end.

(** *** Sampling *)

Definition bernoulli (u p : R) : R :=
  double_of_bool (if Rlt_dec u p then true else false).

(** One draw of [distribution(rgen_)]. *)
Definition draw : M mt19937 R :=
  fun g => let (u, g') := uniform_real_01 g in (g', Returned u).

(** The body of [SampleLayer], on the engine [rgen_]. *)
Definition SampleLayer_on (hv probs : MatrixXd) : M mt19937 MatrixXd :=
  for_loop 0 (rows hv) (fun s hv =>
    for_loop 0 (cols hv) (fun i hv =>
      u <- draw ;;
      p <- mat_at probs s i ;;
      mat_set hv s i (bernoulli u p)) hv) hv.

Definition SampleLayer (w : Wavefunction) (hv probs : MatrixXd)
    : Wavefunction * outcome MatrixXd :=
  let (g, o) := SampleLayer_on hv probs (rgen_ w) in (with_rgen w g, o).

(** *** Derivatives *)

Definition LambdaGrad (w : Wavefunction) (v : VectorXd) : VectorXd :=
  Rbm_VisEnergyGrad (rbmAm_ w) v.

Definition MuGrad (w : Wavefunction) (v : VectorXd) : VectorXd :=
  Rbm_VisEnergyGrad (rbmPh_ w) v.

Definition Grad {St : Type} (w : Wavefunction) (v : VectorXd) : M St VectorXd :=
  comma_init (npar_ w)
    (Rbm_VisEnergyGrad (rbmAm_ w) v) (Rbm_VisEnergyGrad (rbmPh_ w) v).

Definition is_Z (label : string) : bool := String.eqb label "Z".

(** The first loop of [rotatedGrad]: count the rotated sites and collect
    their indices. *)
Definition rotatedGrad_sites {St : Type} (w : Wavefunction)
    (basis : list string) : M St (Z * list Z) :=
  for_loop 0 (N_ w) (fun j acc =>
    let '(t, basisIndex) := acc in
    label <- vec_at basis j ;;
    if is_Z label then ret (t, basisIndex)
    else ret (t + 1, basisIndex ++ [j])) (0, []).

(** The loop over the sites that builds [v] from [bit]: its body at site
    [j], and the loop. *)
Definition rotatedGrad_fill_step {St : Type} (basis : list string)
    (bit : bitset16) (j : Z) (acc : VectorXd * Z) : M St (VectorXd * Z) :=
  let '(v, counter) := acc in
  label <- vec_at basis j ;;
  if is_Z label then ret (v, counter)
  else
    b <- bitset16_at bit counter ;;
    v' <- vec_set v j (double_of_bool b) ;;
    ret (v', counter + 1).

Definition rotatedGrad_fill {St : Type} (w : Wavefunction)
    (basis : list string) (bit : bitset16) (v : VectorXd)
    : M St (VectorXd * Z) :=
  for_loop 0 (N_ w) (rotatedGrad_fill_step basis bit) (v, 0).

(** The product of the matrix elements of the unitary rotations: the body
    of the loop at [ii], and the loop. *)
Definition rotatedGrad_U_step (basis : list string) (state v : VectorXd)
    (basisIndex : list Z) (ii : Z) (U : complex)
    : M (gmap string MatrixXcd) complex :=
  site <- vec_at basisIndex ii ;;
  label <- vec_at basis site ;;
  m <- map_subscript label ;;
  s <- vec_at state site ;;
  r <- int_of_double s ;;
  x <- vec_at v site ;;
  c <- int_of_double x ;;
  e <- mat_at m r c ;;
  ret (cmul U e).

Definition rotatedGrad_U (basis : list string) (state v : VectorXd)
    (basisIndex : list Z) (t : Z) : M (gmap string MatrixXcd) complex :=
  for_loop 0 t (rotatedGrad_U_step basis state v basisIndex) (of_double 1).

(** The body of the loop over the states of the local Hilbert space. *)
Definition rotatedGrad_step (w : Wavefunction) (basis : list string)
    (state : VectorXd) (basisIndex : list Z) (t : Z)
    (i : Z) (acc : VectorXcd * cdouble)
    : M (gmap string MatrixXcd) (VectorXcd * cdouble) :=
  let '(num, den) := acc in
  let bit := bitset16_of_int i in
  filled <- rotatedGrad_fill w basis bit state ;;
  let '(v, _) := filled in
  U <- rotatedGrad_U basis state v basisIndex t ;;
  g <- Grad w v ;;
  num' <- vec_add_assign num
            (map (fun gk => cd_mul (Num (scale_r U gk)) (psi w v)) g) ;;
  ret (num', cd_add den (cd_mul (Num U) (psi w v))).

(** [rotatedGrad]; the value returned is the one assigned to the output
    argument [gradR] by the last statement.  The bound [1<<t] of the main
    loop does not change between iterations and is computed once.  The
    local [v] is constructed with [N_] coefficients and overwritten by
    [v=state] in every iteration. *)
Definition rotatedGrad (w : Wavefunction) (basis : list string)
    (state : VectorXd) : M (gmap string MatrixXcd) VectorXcd :=
  v0 <- new_vector (N_ w) ;;
  num0 <- zero_vector (npar_ w) ;;
  sites <- rotatedGrad_sites w basis ;;
  let '(t, basisIndex) := sites in
  bound <- shl_one t ;;
  acc <- for_loop 0 bound (rotatedGrad_step w basis state basisIndex t)
           (num0, cd_of_double 0) ;;
  let '(num, den) := acc in
  ret (map (fun nk => cd_div nk den) num).

(** *** Utilities *)

Definition GetParameters {St : Type} (w : Wavefunction) : M St VectorXd :=
  comma_init (npar_ w)
    (Rbm_GetParameters (rbmAm_ w)) (Rbm_GetParameters (rbmPh_ w)).

Definition SetParameters {St : Type} (w : Wavefunction) (pars : VectorXd)
    : M St Wavefunction :=
  let half := Z.quot (npar_ w) 2 in
  parsAm <- new_vector half ;;
  parsPh <- new_vector half ;;
  acc <- for_loop 0 half (fun i acc =>
    let '(parsAm, parsPh) := acc in
    a <- vec_at pars i ;;
    parsAm' <- vec_set parsAm i a ;;
    b <- vec_at pars (i + half) ;;
    parsPh' <- vec_set parsPh i b ;;
    ret (parsAm', parsPh')) (parsAm, parsPh) ;;
  let '(parsAm, parsPh) := acc in
  ret (with_models w (Rbm_SetParameters parsAm (rbmAm_ w))
                     (Rbm_SetParameters parsPh (rbmPh_ w))).

End Wavefunction.

(** *** Functions (these use no member of the class) *)

Definition log1p (x : R) : R := ln (1 + x).

Definition ln1pexp (x : R) : R :=
  if Rlt_dec 30 x then x else log1p (exp x).

(** The overload on vectors; [y] is the output argument. *)
Definition ln1pexp_vec (x : VectorXd) : M VectorXd unit :=
  for_loop 0 (Z.of_nat (length x)) (fun i _ =>
    xi <- vec_at x i ;;
    y <- get ;;
    y' <- vec_set y i (ln1pexp xi) ;;
    put y') tt.

(** The two overloads of [logistic]; [y] is the output argument. *)
Definition logistic_vec (x : VectorXd) : M VectorXd unit :=
  for_loop 0 (Z.of_nat (length x)) (fun i _ =>
    xi <- vec_at x i ;;
    y <- get ;;
    y' <- vec_set y i (1 / (1 + exp (- xi)))%R ;;
    put y') tt.

Definition logistic_mat (x : MatrixXd) : M MatrixXd unit :=
  for_loop 0 (rows x) (fun i _ =>
    for_loop 0 (cols x) (fun j _ =>
      xij <- mat_at x i j ;;
      y <- get ;;
      y' <- mat_set y i j (1 / (1 + exp (- xij)))%R ;;
      put y') tt) tt.

(** ** The rotated-basis estimator as the algorithm describes it

    The definitions of this section follow the five steps of the
    description of the estimator, not the loops of [rotatedGrad]; the
    theorems below compare the two. *)

Section Estimator.

Context {rbm : RbmModel} {rng : RandomEngine}.

(** Site [j] is rotated when its basis label is not ["Z"]. *)
Definition rotated (basis : list string) (j : nat) : bool :=
  match basis !! j with
  | Some label => negb (is_Z label)
  | None => false
  end.

(** Step 1: the rotated sites among the first [n], in site order; their
    number is [t]. *)
Definition rotated_sites (basis : list string) (n : nat) : list nat :=
  List.filter (rotated basis) (seq 0 n).

(** Step 2: the completion number [i]: [state], except that the rotated
    site of rank [k] (the first has rank 0) takes bit [k] of [i]. *)
Definition completion (basis : list string) (state : VectorXd) (i : Z)
    : VectorXd :=
  imap (fun j x =>
          if rotated basis j
          then double_of_bool
                 (Z.testbit i (Z.of_nat (length (rotated_sites basis j))))
          else x) state.

(** The index whose bits, lowest first, are [bits]. *)
Fixpoint index_of_bits (bits : list bool) : Z :=
  match bits with
  | [] => 0
  | b :: bits' => 2 * index_of_bits bits' + Z.b2z b
  end.

(** The bit that a coefficient of a completion stands for. *)
Definition bit_of_double (x : R) : bool :=
  if Req_dec_T x 1 then true else false.

(** Step 3: the matrix element of the unitary of one rotated site, from
    the measured value to the value in the completion. *)
Definition unitary_element (table : gmap string MatrixXcd)
    (basis : list string) (state v : VectorXd) (site : nat) : complex :=
  match basis !! site, state !! site, v !! site with
  | Some label, Some s, Some x =>
      match table !! label with
      | Some m => coeff m (truncate s) (truncate x)
      | None => of_double 0
      end
  | _, _, _ => of_double 0
  end.

(** The product of these elements over the rotated sites, in site order. *)
Definition rotation_amplitude (table : gmap string MatrixXcd)
    (basis : list string) (state v : VectorXd) (sites : list nat) : complex :=
  fold_left (fun U site => cmul U (unitary_element table basis state v site))
    sites (of_double 1).

(** [Grad(v)] as the concatenation of the two energy gradients. *)
Definition gradient (w : Wavefunction) (v : VectorXd) : VectorXd :=
  LambdaGrad w v ++ MuGrad w v.

Section Sums.

Variable w : Wavefunction.

(** Step 4: what a completion [v] with rotation amplitude [U] adds to the
    numerator and to the denominator. *)
Definition numerator_term (v : VectorXd) (U : complex) : VectorXcd :=
  map (fun gk => cd_mul (Num (scale_r U gk)) (psi w v)) (gradient w v).

Definition denominator_term (v : VectorXd) (U : complex) : cdouble :=
  cd_mul (Num U) (psi w v).

(** The sums over the completions [V i] with amplitudes [A i], for
    [0 <= i < count], taken in this order. *)
Definition numerator (V : Z -> VectorXd) (A : Z -> complex) (count : Z)
    : VectorXcd :=
  fold_left (fun num i => zip_with cd_add num (numerator_term (V i) (A i)))
    (seqZ 0 count) (replicate (Z.to_nat (npar_ w)) (cd_of_double 0)).

Definition denominator (V : Z -> VectorXd) (A : Z -> complex) (count : Z)
    : cdouble :=
  fold_left (fun den i => cd_add den (denominator_term (V i) (A i)))
    (seqZ 0 count) (cd_of_double 0).

Definition quotient (V : Z -> VectorXd) (A : Z -> complex) (count : Z)
    : VectorXcd :=
  map (fun nk => cd_div nk (denominator V A count)) (numerator V A count).

(** Step 5: the quotient over all [2^t] completions of the rotated sites. *)
Definition estimator (table : gmap string MatrixXcd) (basis : list string)
    (state : VectorXd) : VectorXcd :=
  let sites := rotated_sites basis (length state) in
  quotient (completion basis state)
    (fun i => rotation_amplitude table basis state
                (completion basis state i) sites)
    (2 ^ Z.of_nat (length sites)).

(** The two sums of the estimator. *)
Definition estimator_numerator (table : gmap string MatrixXcd)
    (basis : list string) (state : VectorXd) : VectorXcd :=
  let sites := rotated_sites basis (length state) in
  numerator (completion basis state)
    (fun i => rotation_amplitude table basis state
                (completion basis state i) sites)
    (2 ^ Z.of_nat (length sites)).

Definition estimator_denominator (table : gmap string MatrixXcd)
    (basis : list string) (state : VectorXd) : cdouble :=
  let sites := rotated_sites basis (length state) in
  denominator (completion basis state)
    (fun i => rotation_amplitude table basis state
                (completion basis state i) sites)
    (2 ^ Z.of_nat (length sites)).

End Sums.

End Estimator.

(** ** The stream of draws of an engine *)

Section Draws.

Context {rng : RandomEngine}.

(** The engine after [k] draws. *)
Fixpoint advance (k : nat) (g : mt19937) : mt19937 :=
  match k with
  | O => g
  | Datatypes.S k' => snd (uniform_real_01 (advance k' g))
  end.

(** The draw number [k] (counting from 0) of an engine started at [g]. *)
Definition nth_draw (g : mt19937) (k : nat) : R :=
  fst (uniform_real_01 (advance k g)).

End Draws.

(** ** A small instance of the collaborators

    A model with a constant [prob] and with its parameter vector as its
    energy gradient, and an engine that alternates between the draws 0 and
    1/2.  They give the theorems below concrete inputs. *)

Module Toy.

Record model : Type := Model {
  visible : Z;
  pars : VectorXd;
  weight : R
}.

Definition init (seed : Z) (sigma : R) (r : model) : model :=
  Model (visible r) (replicate (length (pars r)) (sigma * IZR seed)%R) (weight r).

#[export] Instance rbm : RbmModel := {|
  Parameters := model;
  Rbm := model;
  Rbm_new := fun par => par;
  Rbm_Npar := fun r => Z.of_nat (length (pars r));
  Rbm_Nvisible := visible;
  Rbm_InitRandomPars := init;
  Rbm_prob := fun r _ => weight r;
  Rbm_VisEnergyGrad := fun r _ => pars r;
  Rbm_GetParameters := pars;
  Rbm_SetParameters := fun p r => Model (visible r) p (weight r)
|}.

Definition uniform (g : Z) : R * Z :=
  (if Z.even g then 0%R else (1 / 2)%R, g + 1).

Lemma uniform_range (g : Z) : (0 <= fst (uniform g) < 1)%R.
Proof. unfold uniform. cbn. destruct (Z.even g); lra. Qed.

#[export] Instance engine : RandomEngine := {|
  mt19937 := Z;
  mt19937_seed := fun seed => seed;
  uniform_real_01 := uniform;
  uniform_real_01_range := uniform_range
|}.

(** A wavefunction on [n] sites whose two models carry one parameter
    each and the constant probability [p]. *)
Definition wavefunction (n : Z) (p : R) : Wavefunction :=
  Wavefunction_new (Model n [2%R] p).

(** A wavefunction on [n] sites whose amplitude model has the constant
    probability [a] and whose phase model the constant probability [p]. *)
Definition wavefunction2 (n : Z) (a p : R) : Wavefunction :=
  with_models (wavefunction n 1) (Model n [2%R] a) (Model n [2%R] p).

(** The 2x2 matrix with all entries [1/sqrt 2]. *)
Definition hadamard : MatrixXcd :=
  Mat 2 2 (fun _ _ => Cplx (/ sqrt 2) 0).

Definition X_table : gmap string MatrixXcd := {[ "X"%string := hadamard ]}.

Definition no_table : gmap string MatrixXcd := ∅.

Definition Y_table : gmap string MatrixXcd := {[ "Y"%string := hadamard ]}.

(** Seventeen rotated sites. *)
Definition basis17 : list string := replicate 17 "X"%string.
Definition state17 : VectorXd := replicate 17 0%R.

(** Twenty sites, eighteen of them rotated. *)
Definition basis20 : list string :=
  replicate 18 "Y"%string ++ ["Z"%string; "Z"%string].
Definition state20 : VectorXd := replicate 20 1%R.

(** Thirty-one rotated sites. *)
Definition basis31 : list string := replicate 31 "X"%string.
Definition state31 : VectorXd := replicate 31 0%R.

(** Thirty-two rotated sites. *)
Definition basis32 : list string := replicate 32 "X"%string.
Definition state32 : VectorXd := replicate 32 0%R.

(** A 1x2 target and a 1x2 matrix of probabilities 1/4. *)
Definition target : MatrixXd := Mat 1 2 (fun _ _ => 5%R).
Definition quarter : MatrixXd := Mat 1 2 (fun _ _ => (1 / 4)%R).

End Toy.

(** * Properties *)

(** ** Loops *)

Section Loops.

Context {St S : Type}.
Implicit Types (body : Z -> S -> M St S) (s : S) (st : St).

Lemma for_loop_empty body lo hi s st :
  hi <= lo -> for_loop lo hi body s st = (st, Returned s).
Proof.
  intros Hle. unfold for_loop.
  replace (Z.to_nat (hi - lo)) with O by lia. reflexivity.
Qed.

Lemma for_loop_step body lo hi s st :
  lo < hi ->
  for_loop lo hi body s st
  = bind (body lo s) (fun s' => for_loop (lo + 1) hi body s') st.
Proof.
  intros Hlt. unfold for_loop.
  replace (Z.to_nat (hi - lo)) with (Datatypes.S (Z.to_nat (hi - (lo + 1)))) by lia.
  reflexivity.
Qed.

Lemma iterate_from_split body n m i s st :
  iterate_from (n + m) i body s st
  = bind (iterate_from n i body s)
         (fun s' => iterate_from m (i + Z.of_nat n) body s') st.
Proof.
  revert i s st. induction n as [|n IH]; intros i s st.
  - cbn. rewrite Z.add_0_r. unfold bind, ret. destruct (iterate_from m i body s st) as [st1 [s1 | e | f]]; reflexivity.
  - cbn [Nat.add iterate_from]. unfold bind.
    destruct (body i s st) as [st1 [s1 | e | f]]; try reflexivity.
    rewrite IH. unfold bind.
    replace (i + 1 + Z.of_nat n) with (i + Z.of_nat (Datatypes.S n)) by lia.
    reflexivity.
Qed.

Lemma for_loop_split body lo mid hi s st :
  lo <= mid <= hi ->
  for_loop lo hi body s st
  = bind (for_loop lo mid body s) (fun s' => for_loop mid hi body s') st.
Proof.
  intros Hm. unfold for_loop.
  replace (Z.to_nat (hi - lo))
    with (Z.to_nat (mid - lo) + Z.to_nat (hi - mid))%nat by lia.
  rewrite iterate_from_split.
  replace (lo + Z.of_nat (Z.to_nat (mid - lo))) with mid by lia.
  reflexivity.
Qed.

(** A loop whose body keeps an invariant returns, and the invariant holds
    of the loop-carried variables and of the store at the exit. *)
Lemma for_loop_inv (Inv : Z -> S -> St -> Prop) body lo hi s st :
  lo <= hi ->
  Inv lo s st ->
  (forall i s1 st1, lo <= i < hi -> Inv i s1 st1 ->
     exists s2 st2, body i s1 st1 = (st2, Returned s2) /\ Inv (i + 1) s2 st2) ->
  exists s' st', for_loop lo hi body s st = (st', Returned s') /\ Inv hi s' st'.
Proof.
  intros Hle H0 Hbody. unfold for_loop.
  remember (Z.to_nat (hi - lo)) as n eqn:Hn.
  revert lo s st Hle H0 Hbody Hn.
  induction n as [|n IH]; intros lo s st Hle H0 Hbody Hn.
  - exists s, st. split; [reflexivity|]. replace hi with lo by lia. exact H0.
  - destruct (Hbody lo s st) as (s2 & st2 & Hb & Hi); [lia | exact H0 |].
    destruct (IH (lo + 1) s2 st2) as (s' & st' & Hr & Hf);
      [lia | exact Hi | | lia |].
    + intros i s1 st1 Hrange. apply Hbody. lia.
    + exists s', st'. split; [|exact Hf].
      cbn [iterate_from]. unfold bind. rewrite Hb. exact Hr.
Qed.

(** A loop that reaches an iteration whose body is undefined is undefined. *)
Lemma for_loop_undefined body lo k hi s st s1 st1 st2 f :
  lo <= k < hi ->
  for_loop lo k body s st = (st1, Returned s1) ->
  body k s1 st1 = (st2, Undefined f) ->
  for_loop lo hi body s st = (st2, Undefined f).
Proof.
  intros Hk Hpre Hbody.
  rewrite (for_loop_split body lo k hi) by lia.
  unfold bind at 1. rewrite Hpre.
  rewrite for_loop_step by lia.
  unfold bind. rewrite Hbody. reflexivity.
Qed.

End Loops.

(** ** ln1pexp *)

Lemma ln1pexp_large (x : R) : (30 < x)%R -> ln1pexp x = x.
Proof.
  intros Hx. unfold ln1pexp. destruct (Rlt_dec 30 x) as [_ | Hn].
  - reflexivity.
  - contradiction.
Qed.

Lemma ln1pexp_small (x : R) : ~ (30 < x)%R -> ln1pexp x = log1p (exp x).
Proof.
  intros Hx. unfold ln1pexp. destruct (Rlt_dec 30 x) as [Hl | _].
  - contradiction.
  - reflexivity.
Qed.

Lemma ln1pexp_vec_run (x y : VectorXd) :
  (length x <= length y)%nat ->
  exists y', ln1pexp_vec x y = (y', Returned tt)
    /\ length y' = length y
    /\ (forall (i : nat) (xi : R), x !! i = Some xi -> y' !! i = Some (ln1pexp xi))
    /\ (forall i : nat, (length x <= i)%nat -> y' !! i = y !! i).
Proof.
  intros Hlen. unfold ln1pexp_vec.
  pose (Inv := fun (i : Z) (_ : unit) (yc : VectorXd) =>
    length yc = length y
    /\ (forall (k : nat) (xk : R), Z.of_nat k < i -> x !! k = Some xk ->
          yc !! k = Some (ln1pexp xk))
    /\ (forall k : nat, i <= Z.of_nat k -> yc !! k = y !! k)).
  destruct (for_loop_inv Inv
    (fun i _ => xi <- vec_at x i ;; y0 <- get ;;
                y' <- vec_set y0 i (ln1pexp xi) ;; put y')
    0 (Z.of_nat (length x)) tt y) as (u & y' & Hrun & Hl & Hlow & Hhigh).
  - lia.
  - unfold Inv. split; [reflexivity|]. split; [intros; lia | intros; reflexivity].
  - intros i [] yc Hi (Hl & Hlow & Hhigh).
    destruct (lookup_lt_is_Some_2 x (Z.to_nat i)) as [xi Hxi]; [lia|].
    exists tt, (<[Z.to_nat i := ln1pexp xi]> yc). split.
    + unfold bind, vec_at, vec_set, get, put, ret.
      destruct (Z.ltb_spec i 0) as [|_]; [lia|]. rewrite Hxi.
      destruct (Z.leb_spec 0 i) as [_|]; [|lia].
      destruct (Z.ltb_spec i (Z.of_nat (length yc))) as [_|]; [|lia].
      reflexivity.
    + unfold Inv. split; [|split].
      * rewrite length_insert. exact Hl.
      * intros k xk Hk Hxk.
        destruct (decide (k = Z.to_nat i)) as [-> | Hne].
        -- rewrite list_lookup_insert_eq by lia. congruence.
        -- rewrite list_lookup_insert_ne by lia. apply Hlow; [lia | exact Hxk].
      * intros k Hk. rewrite list_lookup_insert_ne by lia. apply Hhigh. lia.
  - destruct u. exists y'. split; [|split; [|split]].
    + exact Hrun.
    + exact Hl.
    + intros i xi Hxi. apply Hlow; [|exact Hxi].
      apply lookup_lt_Some in Hxi. lia.
    + intros i Hi. apply Hhigh. lia.
Qed.

(** C9. The scalar [ln1pexp] returns its argument unchanged above 30 and
    [log1p(exp(x))] otherwise, so [ln1pexp(31)] is exactly 31; the
    overload on vectors writes [ln1pexp(x(i))] into [y(i)] for every
    index of [x], entry by entry, and leaves the rest of [y] alone. *)
Theorem ln1pexp_rule :
  (forall x : R, (30 < x)%R -> ln1pexp x = x)
  /\ (forall x : R, ~ (30 < x)%R -> ln1pexp x = log1p (exp x))
  /\ ln1pexp 31 = 31%R
  /\ (forall x y : VectorXd, (length x <= length y)%nat ->
        exists y', ln1pexp_vec x y = (y', Returned tt)
          /\ length y' = length y
          /\ (forall (i : nat) (xi : R),
                x !! i = Some xi -> y' !! i = Some (ln1pexp xi))
          /\ (forall i : nat, (length x <= i)%nat -> y' !! i = y !! i)).
Proof.
  split; [exact ln1pexp_large|].
  split; [exact ln1pexp_small|].
  split; [apply ln1pexp_large; lra|].
  exact ln1pexp_vec_run.
Qed.

(** ** Construction and InitRandomPars *)

Section InitRandomPars.

Context {rbm : RbmModel} {rng : RandomEngine}.

(** What the constructor establishes: the two models are built from the
    same configuration, [npar_] is the sum of their parameter counts
    (which are therefore equal), and the engine is seeded with 13579. *)
Lemma Wavefunction_new_members (par : Parameters) :
  let w := Wavefunction_new par in
  N_ w = Rbm_Nvisible (rbmAm_ w)
  /\ npar_ w = Rbm_Npar (rbmAm_ w) + Rbm_Npar (rbmPh_ w)
  /\ Rbm_Npar (rbmAm_ w) = Rbm_Npar (rbmPh_ w)
  /\ rgen_ w = mt19937_seed 13579.
Proof. cbn. repeat split. Qed.

(** C10. [InitRandomPars(seed, sigma)] hands the same pair
    [(seed, sigma)] to the amplitude model and to the phase model and
    touches nothing else; hence whenever the parameters produced by the
    model's initialisation depend only on the pair and on some shape of
    the model, two models of the same shape end with the same parameter
    vector. *)
Theorem InitRandomPars_forwards (seed : Z) (sigma : R) (w : Wavefunction) :
  let w' := InitRandomPars seed sigma w in
  rbmAm_ w' = Rbm_InitRandomPars seed sigma (rbmAm_ w)
  /\ rbmPh_ w' = Rbm_InitRandomPars seed sigma (rbmPh_ w)
  /\ N_ w' = N_ w /\ npar_ w' = npar_ w /\ rgen_ w' = rgen_ w
  /\ (forall (Shape : Type) (shape : Rbm -> Shape),
        (forall r1 r2, shape r1 = shape r2 ->
           Rbm_GetParameters (Rbm_InitRandomPars seed sigma r1)
           = Rbm_GetParameters (Rbm_InitRandomPars seed sigma r2)) ->
        shape (rbmAm_ w) = shape (rbmPh_ w) ->
        Rbm_GetParameters (rbmAm_ w') = Rbm_GetParameters (rbmPh_ w')).
Proof.
  cbn. repeat (split; [reflexivity|]).
  intros Shape shape Hdet Hsame. apply Hdet. exact Hsame.
Qed.

End InitRandomPars.

(** ** amplitude, phase, psi *)

Lemma half_turn (x : R) : (0.5 * 1 * x = x / 2)%R.
Proof. lra. Qed.

Lemma std_sqrt_nonneg (x : R) : (0 <= x)%R -> std_sqrt x = Fin (sqrt x).
Proof. intros Hx. unfold std_sqrt. destruct (Rlt_dec x 0); [lra | reflexivity]. Qed.

Lemma std_sqrt_negative (x : R) : (x < 0)%R -> std_sqrt x = NaN.
Proof. intros Hx. unfold std_sqrt. destruct (Rlt_dec x 0); [reflexivity | lra]. Qed.

Lemma std_log_positive (x : R) : (0 < x)%R -> std_log x = Fin (ln x).
Proof. intros Hx. unfold std_log. destruct (Rlt_dec 0 x); [reflexivity | lra]. Qed.

Lemma std_log_zero : std_log 0 = MinusInfinity.
Proof.
  unfold std_log. destruct (Rlt_dec 0 0); [lra|]. reflexivity.
Qed.

Lemma std_log_not_positive (x : R) :
  (x <= 0)%R -> std_log x = MinusInfinity \/ std_log x = NaN.
Proof.
  intros Hx. unfold std_log. destruct (Rlt_dec 0 x); [lra|].
  destruct (Rlt_dec x 0); auto.
Qed.

Lemma cabs_polar (a x : R) :
  (0 <= a)%R -> cabs (Cplx (a * cos x) (a * sin x)) = a.
Proof.
  intros Ha. unfold cabs. cbn [re im].
  replace (a * cos x * (a * cos x) + a * sin x * (a * sin x))%R
    with (a * a * ((sin x)² + (cos x)²))%R by (unfold Rsqr; lra).
  rewrite sin2_cos2, Rmult_1_r. apply sqrt_square. exact Ha.
Qed.

Section Evaluation.

Context {rbm : RbmModel} {rng : RandomEngine}.

(** With finite amplitude and phase, [psi] in polar form. *)
Lemma psi_finite (w : Wavefunction) (v : VectorXd) (a p : R) :
  amplitude w v = Fin a -> phase w v = Fin p ->
  psi w v = Num (Cplx (a * cos (p / 2)) (a * sin (p / 2))).
Proof.
  intros Ha Hp. unfold psi. rewrite Ha, Hp.
  unfold scale_l, scale_r, cexp, I_. cbn [re im].
  replace (0.5 * 0 * p)%R with 0%R by lra.
  rewrite exp_0, half_turn. do 2 f_equal; lra.
Qed.

Lemma psi_polar (w : Wavefunction) (v : VectorXd) :
  (0 <= Rbm_prob (rbmAm_ w) v)%R -> (0 < Rbm_prob (rbmPh_ w) v)%R ->
  psi w v
  = Num (Cplx (sqrt (Rbm_prob (rbmAm_ w) v)
               * cos (ln (Rbm_prob (rbmPh_ w) v) / 2))
              (sqrt (Rbm_prob (rbmAm_ w) v)
               * sin (ln (Rbm_prob (rbmPh_ w) v) / 2))).
Proof.
  intros HA HP. apply psi_finite.
  - apply std_sqrt_nonneg. exact HA.
  - apply std_log_positive. exact HP.
Qed.

(** Where the phase model's [prob] is zero or negative, [psi] is NaN,
    whatever the amplitude is. *)
Lemma psi_phase_not_positive (w : Wavefunction) (v : VectorXd) :
  (Rbm_prob (rbmPh_ w) v <= 0)%R -> psi w v = cNaN.
Proof.
  intros HP. unfold psi, phase.
  destruct (std_log_not_positive _ HP) as [-> | ->];
    destruct (amplitude w v); reflexivity.
Qed.

(** Where the amplitude model's [prob] is negative, [psi] is NaN. *)
Lemma psi_amplitude_negative (w : Wavefunction) (v : VectorXd) :
  (Rbm_prob (rbmAm_ w) v < 0)%R -> psi w v = cNaN.
Proof.
  intros HA. unfold psi, amplitude. rewrite std_sqrt_negative by exact HA.
  reflexivity.
Qed.

(** C6, amended. [amplitude(v)] is [std::sqrt] of the amplitude model's
    [prob(v)] and [phase(v)] is [std::log] of the phase model's
    [prob(v)].  When the amplitude model's [prob(v)] is not negative and
    the phase model's [prob(v)] is positive, both are finite, [psi(v)] is
    the complex number [amplitude(v) * exp(i*phase(v)/2)], and the modulus
    of [psi(v)] is [amplitude(v)].  When the phase model's [prob(v)] is
    zero or negative, [phase(v)] is minus infinity or NaN, and [psi(v)]
    and its modulus are NaN: a non-negative [prob(v)] of the amplitude
    model is not enough. *)
Theorem psi_modulus (w : Wavefunction) (v : VectorXd) :
  amplitude w v = std_sqrt (Rbm_prob (rbmAm_ w) v)
  /\ phase w v = std_log (Rbm_prob (rbmPh_ w) v)
  /\ ((0 <= Rbm_prob (rbmAm_ w) v)%R -> (0 < Rbm_prob (rbmPh_ w) v)%R ->
      exists a p : R,
        a = sqrt (Rbm_prob (rbmAm_ w) v) /\ p = ln (Rbm_prob (rbmPh_ w) v)
        /\ amplitude w v = Fin a /\ phase w v = Fin p
        /\ psi w v = Num (Cplx (a * cos (p / 2)) (a * sin (p / 2)))
        /\ std_abs (psi w v) = amplitude w v)
  /\ ((Rbm_prob (rbmPh_ w) v <= 0)%R ->
      (phase w v = MinusInfinity \/ phase w v = NaN)
      /\ psi w v = cNaN /\ std_abs (psi w v) = NaN).
Proof.
  split; [reflexivity|]. split; [reflexivity|]. split.
  - intros HA HP. eexists _, _. split; [reflexivity|]. split; [reflexivity|].
    assert (Ha : amplitude w v = Fin (sqrt (Rbm_prob (rbmAm_ w) v)))
      by (apply std_sqrt_nonneg; exact HA).
    assert (Hp : phase w v = Fin (ln (Rbm_prob (rbmPh_ w) v)))
      by (apply std_log_positive; exact HP).
    split; [exact Ha|]. split; [exact Hp|].
    rewrite (psi_finite w v _ _ Ha Hp). split; [reflexivity|].
    rewrite Ha. cbn [std_abs]. f_equal. apply cabs_polar, sqrt_pos.
  - intros HP. split; [apply std_log_not_positive; exact HP|].
    rewrite psi_phase_not_positive by exact HP. split; reflexivity.
Qed.

End Evaluation.

(** ** SampleLayer *)

Lemma in_matrix_inside {T : Type} (m : Matrix T) (r c : Z) :
  0 <= r < rows m -> 0 <= c < cols m -> in_matrix m r c = true.
Proof.
  intros Hr Hc. unfold in_matrix.
  destruct (Z.leb_spec 0 r); [|lia]. destruct (Z.ltb_spec r (rows m)); [|lia].
  destruct (Z.leb_spec 0 c); [|lia]. destruct (Z.ltb_spec c (cols m)); [|lia].
  reflexivity.
Qed.

Lemma cell_index_inj (n s i s' i' : Z) :
  0 <= i < n -> 0 <= i' < n -> s * n + i = s' * n + i' -> s = s' /\ i = i'.
Proof.
  intros Hi Hi' Heq.
  assert (Hs : (s * n + i) / n = s).
  { rewrite Z.div_add_l by lia. rewrite Z.div_small by lia. lia. }
  assert (Hs' : (s' * n + i') / n = s').
  { rewrite Z.div_add_l by lia. rewrite Z.div_small by lia. lia. }
  rewrite Heq, Hs' in Hs. subst s'. lia.
Qed.

Lemma bernoulli_binary (u p : R) : bernoulli u p = 0%R \/ bernoulli u p = 1%R.
Proof. unfold bernoulli. destruct (Rlt_dec u p); cbn; auto. Qed.

Section SampleLayer.

Context {rbm : RbmModel} {rng : RandomEngine}.

Variables (hv probs : MatrixXd) (g0 : mt19937).
Hypothesis rows_nonneg : 0 <= rows hv.
Hypothesis cols_nonneg : 0 <= cols hv.
Hypothesis same_rows : rows probs = rows hv.
Hypothesis same_cols : cols probs = cols hv.

(** The state of the loops once the first [n] cells, counted row by row,
    have been written. *)
Definition sampled (n : Z) (hvc : MatrixXd) (gc : mt19937) : Prop :=
  rows hvc = rows hv /\ cols hvc = cols hv
  /\ gc = advance (Z.to_nat n) g0
  /\ forall s i, 0 <= s < rows hv -> 0 <= i < cols hv ->
       s * cols hv + i < n ->
       coeff hvc s i
       = bernoulli (nth_draw g0 (Z.to_nat (s * cols hv + i))) (coeff probs s i).

Lemma SampleLayer_cell (s i : Z) (hvc : MatrixXd) (gc : mt19937) :
  0 <= s < rows hv -> 0 <= i < cols hv ->
  sampled (s * cols hv + i) hvc gc ->
  exists hvc' gc',
    (u <- draw ;; p <- mat_at probs s i ;; mat_set hvc s i (bernoulli u p)) gc
    = (gc', Returned hvc')
    /\ sampled (s * cols hv + (i + 1)) hvc' gc'.
Proof.
  intros Hs Hi (Hr & Hc & Hg & Hcells).
  assert (Hn : 0 <= s * cols hv + i) by nia.
  unfold bind, draw, mat_at, mat_set, ret.
  destruct (uniform_real_01 gc) as [u g'] eqn:Hu.
  rewrite !in_matrix_inside by lia.
  eexists _, _. split; [reflexivity|].
  unfold sampled. cbn [rows cols coeff].
  split; [exact Hr|]. split; [exact Hc|]. split.
  - replace (Z.to_nat (s * cols hv + (i + 1)))
      with (Datatypes.S (Z.to_nat (s * cols hv + i))) by lia.
    cbn [advance]. rewrite <- Hg, Hu. reflexivity.
  - intros s' i' Hs' Hi' Hlt.
    destruct (Z.eqb_spec s' s) as [-> | Hne]; cbn [andb].
    + destruct (Z.eqb_spec i' i) as [-> | Hne].
      * unfold nth_draw. rewrite <- Hg, Hu. reflexivity.
      * apply Hcells; [lia | lia | lia].
    + apply Hcells; [lia | lia |].
      assert (s' * cols hv + i' <> s * cols hv + i).
      { intros Heq. apply cell_index_inj in Heq; [|lia|lia]. lia. }
      lia.
Qed.

Lemma SampleLayer_row (s : Z) (hvc : MatrixXd) (gc : mt19937) :
  0 <= s < rows hv ->
  sampled (s * cols hv) hvc gc ->
  exists hvc' gc',
    for_loop 0 (cols hvc) (fun i hv1 =>
      u <- draw ;; p <- mat_at probs s i ;; mat_set hv1 s i (bernoulli u p))
      hvc gc
    = (gc', Returned hvc')
    /\ sampled ((s + 1) * cols hv) hvc' gc'.
Proof.
  intros Hs Hinv.
  assert (Hc : cols hvc = cols hv) by apply Hinv.
  rewrite Hc.
  destruct (for_loop_inv (fun i h g => sampled (s * cols hv + i) h g)
    (fun i hv1 =>
      u <- draw ;; p <- mat_at probs s i ;; mat_set hv1 s i (bernoulli u p))
    0 (cols hv) hvc gc) as (h' & g' & Hrun & Hfin).
  - exact cols_nonneg.
  - rewrite Z.add_0_r. exact Hinv.
  - intros i h g Hi Hcur. apply SampleLayer_cell; [exact Hs | lia | exact Hcur].
  - exists h', g'. split; [exact Hrun|].
    replace ((s + 1) * cols hv) with (s * cols hv + cols hv) by lia.
    exact Hfin.
Qed.

Lemma SampleLayer_on_run :
  exists hv',
    SampleLayer_on hv probs g0
    = (advance (Z.to_nat (rows hv * cols hv)) g0, Returned hv')
    /\ sampled (rows hv * cols hv) hv' (advance (Z.to_nat (rows hv * cols hv)) g0).
Proof.
  unfold SampleLayer_on.
  destruct (for_loop_inv (fun s h g => sampled (s * cols hv) h g)
    (fun s hv0 => for_loop 0 (cols hv0) (fun i hv1 =>
      u <- draw ;; p <- mat_at probs s i ;; mat_set hv1 s i (bernoulli u p)) hv0)
    0 (rows hv) hv g0) as (h' & g' & Hrun & Hfin).
  - exact rows_nonneg.
  - unfold sampled. cbn. repeat (split; [reflexivity|]). intros; lia.
  - intros s h g Hs Hcur. apply SampleLayer_row; [lia | exact Hcur].
  - assert (Hg : g' = advance (Z.to_nat (rows hv * cols hv)) g0) by apply Hfin.
    subst g'. exists h'. split; [exact Hrun | exact Hfin].
Qed.

End SampleLayer.

Section SampleLayerResult.

Context {rbm : RbmModel} {rng : RandomEngine}.

(** C8. On a target and a probability matrix of the same shape,
    [SampleLayer] returns with every position [(s,i)] of the target set to
    1 if the draw taken for it from the shared engine (draw number
    [s*cols+i] since the call, a value in [0,1)) is less than
    [probs(s,i)] and to 0 otherwise; every entry written is 0 or 1, and
    the engine is left advanced by one draw per entry.  Target and engine
    after the call are functions of the engine before it and of [probs]. *)
Theorem SampleLayer_bernoulli (w : Wavefunction) (hv probs : MatrixXd) :
  0 <= rows hv -> 0 <= cols hv ->
  rows probs = rows hv -> cols probs = cols hv ->
  exists hv',
    SampleLayer w hv probs
    = (with_rgen w (advance (Z.to_nat (rows hv * cols hv)) (rgen_ w)),
       Returned hv')
    /\ rows hv' = rows hv /\ cols hv' = cols hv
    /\ forall s i, 0 <= s < rows hv -> 0 <= i < cols hv ->
         let u := nth_draw (rgen_ w) (Z.to_nat (s * cols hv + i)) in
         (0 <= u < 1)%R
         /\ coeff hv' s i
            = (if Rlt_dec u (coeff probs s i) then 1%R else 0%R)
         /\ (coeff hv' s i = 0%R \/ coeff hv' s i = 1%R).
Proof.
  intros Hr Hc Hsr Hsc.
  destruct (SampleLayer_on_run hv probs (rgen_ w) Hr Hc Hsr Hsc)
    as (hv' & Hrun & Hr' & Hc' & _ & Hcells).
  exists hv'. unfold SampleLayer. rewrite Hrun.
  split; [reflexivity|]. split; [exact Hr'|]. split; [exact Hc'|].
  intros s i Hs Hi.
  rewrite (Hcells s i Hs Hi) by nia.
  split; [apply uniform_real_01_range|]. split.
  - unfold bernoulli. destruct (Rlt_dec _ _); reflexivity.
  - apply bernoulli_binary.
Qed.

End SampleLayerResult.

(** ** GetParameters and SetParameters *)

Lemma insert_take_fill {A : Type} (l : list A) (i h : nat) (x d : A) :
  l !! i = Some x -> (i < h)%nat ->
  <[i := x]> (take i l ++ replicate (h - i) d)
  = take (Datatypes.S i) l ++ replicate (h - Datatypes.S i) d.
Proof.
  intros Hx Hi.
  assert (Hlen : length (take i l) = i).
  { rewrite length_take. apply lookup_lt_Some in Hx. lia. }
  rewrite insert_app_r_alt by lia.
  rewrite Hlen, Nat.sub_diag.
  replace (h - i)%nat with (Datatypes.S (h - Datatypes.S i)) by lia.
  cbn [replicate]. cbn.
  rewrite (take_S_r l i x Hx), <- app_assoc. reflexivity.
Qed.

Lemma quot_double (n : Z) : Z.quot (n + n) 2 = n.
Proof. replace (n + n) with (n * 2) by lia. apply Z.quot_mul. lia. Qed.

Section Marshalling.

Context {rbm : RbmModel} {rng : RandomEngine} {St : Type}.

(** The copy loop of [SetParameters] fills the two halves. *)
Lemma SetParameters_copy (pars : VectorXd) (half : Z) (st : St) :
  0 <= half -> 2 * half <= Z.of_nat (length pars) ->
  for_loop 0 half (fun i acc =>
    let '(parsAm, parsPh) := acc in
    a <- vec_at pars i ;;
    parsAm' <- vec_set parsAm i a ;;
    b <- vec_at pars (i + half) ;;
    parsPh' <- vec_set parsPh i b ;;
    ret (parsAm', parsPh'))
    (replicate (Z.to_nat half) 0%R, replicate (Z.to_nat half) 0%R) st
  = (st, Returned (take (Z.to_nat half) pars,
                   take (Z.to_nat half) (drop (Z.to_nat half) pars))).
Proof.
  intros Hhalf Hlen. set (h := Z.to_nat half).
  pose (Inv := fun (i : Z) (acc : VectorXd * VectorXd) (st' : St) =>
    st' = st
    /\ acc.1 = take (Z.to_nat i) pars ++ replicate (h - Z.to_nat i) 0%R
    /\ acc.2 = take (Z.to_nat i) (drop h pars) ++ replicate (h - Z.to_nat i) 0%R).
  match goal with |- for_loop 0 half ?body ?s0 st = _ =>
    destruct (for_loop_inv Inv body 0 half s0 st)
      as ([a b] & st' & Hrun & Hst & Ha & Hb)
  end.
  - exact Hhalf.
  - unfold Inv. cbn. rewrite Nat.sub_0_r. auto.
  - intros i [a b] st1 Hi (-> & Ha & Hb). cbn [fst snd] in Ha, Hb.
    destruct (lookup_lt_is_Some_2 pars (Z.to_nat i)) as [x Hx]; [lia|].
    destruct (lookup_lt_is_Some_2 pars (Z.to_nat (i + half))) as [y Hy]; [lia|].
    assert (Hy' : drop h pars !! Z.to_nat i = Some y).
    { rewrite lookup_drop. rewrite <- Hy. f_equal. lia. }
    assert (Hla : Z.of_nat (length a) = half).
    { rewrite Ha, length_app, length_take, length_replicate. lia. }
    assert (Hlb : Z.of_nat (length b) = half).
    { rewrite Hb, length_app, length_take, length_drop, length_replicate. lia. }
    eexists (_, _), st. split.
    + unfold bind, vec_at, vec_set, ret.
      destruct (Z.ltb_spec i 0); [lia|]. rewrite Hx.
      destruct (Z.ltb_spec (i + half) 0); [lia|]. rewrite Hy.
      rewrite Hla, Hlb.
      destruct (Z.leb_spec 0 i); [|lia]. destruct (Z.ltb_spec i half); [|lia].
      cbn [andb]. reflexivity.
    + unfold Inv. cbn [fst snd]. split; [reflexivity|].
      replace (Z.to_nat (i + 1)) with (Datatypes.S (Z.to_nat i)) by lia.
      split.
      * rewrite Ha. apply insert_take_fill; [exact Hx | lia].
      * rewrite Hb. apply insert_take_fill; [exact Hy' | lia].
  - cbn [fst snd] in Ha, Hb. subst st'. rewrite Hrun. fold h in Ha, Hb.
    rewrite Nat.sub_diag in Ha, Hb. cbn [replicate] in Ha, Hb.
    rewrite app_nil_r in Ha, Hb. subst a b. reflexivity.
Qed.

Lemma new_vector_run (n : Z) (st : St) :
  0 <= n -> new_vector n st = (st, Returned (replicate (Z.to_nat n) 0%R)).
Proof.
  intros Hn. unfold new_vector. destruct (Z.ltb_spec n 0); [lia|]. reflexivity.
Qed.

Lemma SetParameters_run (w : Wavefunction) (pars : VectorXd) (st : St) :
  0 <= npar_ w ->
  2 * Z.quot (npar_ w) 2 <= Z.of_nat (length pars) ->
  let h := Z.to_nat (Z.quot (npar_ w) 2) in
  SetParameters w pars st
  = (st, Returned (with_models w
       (Rbm_SetParameters (take h pars) (rbmAm_ w))
       (Rbm_SetParameters (take h (drop h pars)) (rbmPh_ w)))).
Proof.
  intros Hn Hlen h.
  assert (Hhalf : 0 <= Z.quot (npar_ w) 2) by (apply Z.quot_pos; lia).
  unfold SetParameters, bind at 1.
  rewrite new_vector_run by exact Hhalf.
  unfold bind at 1. rewrite new_vector_run by exact Hhalf.
  unfold bind at 1. rewrite SetParameters_copy by assumption.
  reflexivity.
Qed.

Lemma comma_init_run (n : Z) (a b : VectorXd) (st : St) :
  Z.of_nat (length a) + Z.of_nat (length b) = n ->
  comma_init n a b st = (st, Returned (a ++ b)).
Proof.
  intros Hn. unfold comma_init.
  destruct (Z.ltb_spec n 0); [lia|].
  rewrite length_app.
  destruct (Z.eqb_spec (Z.of_nat (length a + length b)) n); [|lia].
  reflexivity.
Qed.

(** What a returning [SetParameters] leaves behind: the two models are
    the ones that the [SetParameters] of [Rbm] yields on the two halves,
    and the other members are as they were. *)
Lemma SetParameters_members (w : Wavefunction) (pars : VectorXd) (st : St) :
  0 <= npar_ w ->
  2 * Z.quot (npar_ w) 2 <= Z.of_nat (length pars) ->
  let h := Z.to_nat (Z.quot (npar_ w) 2) in
  exists w' : Wavefunction,
    SetParameters w pars st = (st, Returned w')
    /\ rbmAm_ w' = Rbm_SetParameters (take h pars) (rbmAm_ w)
    /\ rbmPh_ w' = Rbm_SetParameters (take h (drop h pars)) (rbmPh_ w)
    /\ N_ w' = N_ w /\ npar_ w' = npar_ w /\ rgen_ w' = rgen_ w.
Proof.
  intros Hn Hlen h. eexists. split; [apply SetParameters_run; assumption|].
  cbn. repeat split.
Qed.

(** C7. When the two models have the same number of parameters,
    [SetParameters(pars)] hands the entries [0..npar/2-1] of [pars] to the
    amplitude model and the entries [npar/2..npar-1] to the phase model:
    the amplitude model of the result is what [Rbm::SetParameters] makes
    of the old one on the first half, the phase model what it makes of
    the old one on the second half, and nothing else changes.  And, for
    models whose [SetParameters(GetParameters())] changes neither [prob]
    nor [VisEnergyGrad], [SetParameters(GetParameters())] on the
    wavefunction leaves [amplitude], [phase] and [Grad] as they were at
    every [v]. *)
Theorem SetParameters_halves (w : Wavefunction) (st : St) :
  0 <= Rbm_Npar (rbmAm_ w) ->
  Rbm_Npar (rbmAm_ w) = Rbm_Npar (rbmPh_ w) ->
  npar_ w = Rbm_Npar (rbmAm_ w) + Rbm_Npar (rbmPh_ w) ->
  (forall r, Z.of_nat (length (Rbm_GetParameters r)) = Rbm_Npar r) ->
  (forall r v, Rbm_prob (Rbm_SetParameters (Rbm_GetParameters r) r) v
               = Rbm_prob r v) ->
  (forall r v, Rbm_VisEnergyGrad (Rbm_SetParameters (Rbm_GetParameters r) r) v
               = Rbm_VisEnergyGrad r v) ->
  let h := Z.to_nat (Z.quot (npar_ w) 2) in
  (forall pars : VectorXd, Z.of_nat (length pars) = npar_ w ->
     exists w' : Wavefunction,
       SetParameters w pars st = (st, Returned w')
       /\ rbmAm_ w' = Rbm_SetParameters (take h pars) (rbmAm_ w)
       /\ rbmPh_ w' = Rbm_SetParameters (drop h pars) (rbmPh_ w)
       /\ N_ w' = N_ w /\ npar_ w' = npar_ w /\ rgen_ w' = rgen_ w
       /\ Z.of_nat (length (take h pars)) = Rbm_Npar (rbmAm_ w)
       /\ Z.of_nat (length (drop h pars)) = Rbm_Npar (rbmPh_ w)
       /\ (forall i : nat, (i < h)%nat ->
             take h pars !! i = pars !! i
             /\ drop h pars !! i = pars !! (h + i)%nat)
       /\ take h pars ++ drop h pars = pars)
  /\ exists (pars : VectorXd) (w' : Wavefunction),
       GetParameters w st = (st, Returned pars)
       /\ SetParameters w pars st = (st, Returned w')
       /\ rbmAm_ w'
          = Rbm_SetParameters (Rbm_GetParameters (rbmAm_ w)) (rbmAm_ w)
       /\ rbmPh_ w'
          = Rbm_SetParameters (Rbm_GetParameters (rbmPh_ w)) (rbmPh_ w)
       /\ forall v : VectorXd,
            amplitude w' v = amplitude w v
            /\ phase w' v = phase w v
            /\ Grad w' v st = Grad w v st.
Proof.
  intros Hpos Heq Hnpar Hlen Hprob Hgrad h.
  assert (Hq : Z.quot (npar_ w) 2 = Rbm_Npar (rbmAm_ w)).
  { rewrite Hnpar, <- Heq. apply quot_double. }
  assert (Hh : Z.of_nat h = Rbm_Npar (rbmAm_ w)) by (unfold h; lia).
  split.
  - intros pars Hpars.
    destruct (SetParameters_members w pars st)
      as (w' & Hrun & HAm & HPh & HN & Hnp & Hg); [lia | lia |].
    fold h in HAm, HPh.
    rewrite (take_ge (drop h pars)) in HPh by (rewrite length_drop; lia).
    exists w'.
    split; [exact Hrun|]. split; [exact HAm|]. split; [exact HPh|].
    split; [exact HN|]. split; [exact Hnp|]. split; [exact Hg|].
    split; [rewrite length_take; lia|].
    split; [rewrite length_drop; lia|].
    split; [|apply take_drop].
    intros i Hi. split; [apply lookup_take_lt; exact Hi | apply lookup_drop].
  - pose (pA := Rbm_GetParameters (rbmAm_ w)).
    pose (pP := Rbm_GetParameters (rbmPh_ w)).
    assert (HlA : length pA = h) by (pose proof (Hlen (rbmAm_ w)); unfold pA; lia).
    assert (HlP : length pP = h) by (pose proof (Hlen (rbmPh_ w)); unfold pP; lia).
    destruct (SetParameters_members w (pA ++ pP) st)
      as (w' & Hrun & HAm & HPh & HN & Hnp & Hg);
      [lia | rewrite length_app; lia |].
    fold h in HAm, HPh.
    rewrite take_app_length' in HAm by lia.
    rewrite drop_app_length' in HPh by lia.
    rewrite take_ge in HPh by lia.
    exists (pA ++ pP), w'. split; [|split; [exact Hrun|]].
    + unfold GetParameters. apply comma_init_run. lia.
    + split; [exact HAm|]. split; [exact HPh|].
      intros v. unfold amplitude, phase, Grad. rewrite HAm, HPh, Hnp.
      unfold pA, pP. rewrite !Hprob, !Hgrad. auto.
Qed.

End Marshalling.

(** ** rotatedGrad *)

Lemma vec_at_run {St A : Type} (v : list A) (j : Z) (x : A) (st : St) :
  0 <= j -> v !! Z.to_nat j = Some x -> vec_at v j st = (st, Returned x).
Proof.
  intros Hj Hx. unfold vec_at. destruct (Z.ltb_spec j 0); [lia|].
  rewrite Hx. reflexivity.
Qed.

Lemma vec_at_nat {St A : Type} (v : list A) (j : nat) (x : A) (st : St) :
  v !! j = Some x -> vec_at v (Z.of_nat j) st = (st, Returned x).
Proof. intros Hx. apply vec_at_run; [lia|]. rewrite Nat2Z.id. exact Hx. Qed.

Lemma vec_set_run {St A : Type} (v : list A) (j : Z) (x : A) (st : St) :
  0 <= j < Z.of_nat (length v) ->
  vec_set v j x st = (st, Returned (<[Z.to_nat j := x]> v)).
Proof.
  intros Hj. unfold vec_set.
  destruct (Z.leb_spec 0 j); [|lia].
  destruct (Z.ltb_spec j (Z.of_nat (length v))); [|lia].
  reflexivity.
Qed.

Lemma rotated_sites_S (basis : list string) (j : nat) :
  rotated_sites basis (Datatypes.S j)
  = rotated_sites basis j ++ (if rotated basis j then [j] else []).
Proof.
  unfold rotated_sites. rewrite seq_S, List.filter_app. cbn.
  destruct (rotated basis j); reflexivity.
Qed.

Lemma rotated_sites_mono (basis : list string) (j n : nat) :
  (j <= n)%nat ->
  (length (rotated_sites basis j) <= length (rotated_sites basis n))%nat.
Proof.
  induction 1 as [|n Hle IH]; [lia|].
  rewrite rotated_sites_S, length_app. lia.
Qed.

Lemma rotated_rank_lt (basis : list string) (j n : nat) :
  (j < n)%nat -> rotated basis j = true ->
  (length (rotated_sites basis j) < length (rotated_sites basis n))%nat.
Proof.
  intros Hj Hrot.
  pose proof (rotated_sites_mono basis (Datatypes.S j) n Hj) as Hm.
  rewrite rotated_sites_S, Hrot, length_app in Hm. cbn in Hm. lia.
Qed.

Lemma rotated_sites_bound (basis : list string) (n : nat) :
  Forall (fun j => (j < n)%nat /\ rotated basis j = true) (rotated_sites basis n).
Proof.
  apply List.Forall_forall. intros j Hin.
  apply List.filter_In in Hin. destruct Hin as [Hseq Hrot].
  apply in_seq in Hseq. split; [lia | exact Hrot].
Qed.

(** The rotated site of rank [k] has exactly [k] rotated sites below it. *)
Lemma rotated_sites_rank (basis : list string) (n k j : nat) :
  rotated_sites basis n !! k = Some j ->
  length (rotated_sites basis j) = k.
Proof.
  induction n as [|n IH]; [discriminate|].
  rewrite rotated_sites_S. intros Hk.
  apply lookup_app_Some in Hk. destruct Hk as [Hk | [Hlen Hk]].
  - apply IH. exact Hk.
  - destruct (rotated basis n); [|discriminate].
    apply list_lookup_singleton_Some in Hk. destruct Hk as [Hz <-]. lia.
Qed.

Lemma rotated_sites_none (basis : list string) (n j : nat) :
  rotated_sites basis n = [] -> (j < n)%nat -> rotated basis j = false.
Proof.
  intros Hnil Hj. destruct (rotated basis j) eqn:Hrot; [|reflexivity].
  pose proof (rotated_rank_lt basis j n Hj Hrot) as Hlt.
  rewrite Hnil in Hlt. cbn in Hlt. lia.
Qed.

Lemma rotated_label (basis : list string) (j : nat) (label : string) :
  basis !! j = Some label -> rotated basis j = negb (is_Z label).
Proof. intros Hl. unfold rotated. rewrite Hl. reflexivity. Qed.

Lemma bitset16_bit (i k : Z) :
  0 <= k < 16 -> Z.testbit (bitset16_of_int i) k = Z.testbit i k.
Proof.
  intros Hk. unfold bitset16_of_int. rewrite Z.land_spec.
  change 65535 with (Z.ones 16). rewrite Z.ones_spec_low by lia.
  apply andb_true_r.
Qed.

Section Enumeration.

Context {rbm : RbmModel} {rng : RandomEngine} {St : Type}.

Variables (w : Wavefunction) (basis : list string).
Hypothesis basis_length : Z.of_nat (length basis) = N_ w.

(** The first loop finds the rotated sites of step 1. *)
Lemma rotatedGrad_sites_run (st : St) :
  let sites := rotated_sites basis (length basis) in
  rotatedGrad_sites w basis st
  = (st, Returned (Z.of_nat (length sites), Z.of_nat <$> sites)).
Proof.
  intros sites. unfold rotatedGrad_sites.
  pose (Inv := fun (j : Z) (acc : Z * list Z) (st' : St) =>
    st' = st
    /\ acc = (Z.of_nat (length (rotated_sites basis (Z.to_nat j))),
              Z.of_nat <$> rotated_sites basis (Z.to_nat j))).
  match goal with |- for_loop 0 _ ?body ?s0 st = _ =>
    destruct (for_loop_inv Inv body 0 (N_ w) s0 st)
      as (acc & st' & Hrun & Hst & Hacc)
  end.
  - lia.
  - unfold Inv. split; reflexivity.
  - intros j acc st1 Hj (-> & ->).
    destruct (lookup_lt_is_Some_2 basis (Z.to_nat j)) as [label Hl]; [lia|].
    unfold bind. rewrite (vec_at_run basis j label) by (lia || exact Hl).
    unfold Inv.
    replace (Z.to_nat (j + 1)) with (Datatypes.S (Z.to_nat j)) by lia.
    rewrite rotated_sites_S, (rotated_label basis _ label Hl).
    destruct (is_Z label); cbn [negb].
    + eexists _, st. split; [reflexivity|]. split; [reflexivity|].
      rewrite app_nil_r. reflexivity.
    + eexists _, st. split; [reflexivity|]. split; [reflexivity|].
      rewrite length_app, fmap_app. cbn. f_equal; [lia|].
      f_equal. f_equal. lia.
  - subst st'. rewrite Hrun, Hacc.
    replace (Z.to_nat (N_ w)) with (length basis) by lia. reflexivity.
Qed.

Variable state : VectorXd.

(** [v] once the sites below [j] have been visited. *)
Definition filled (i : Z) (j : nat) : VectorXd :=
  imap (fun j' x =>
          if bool_decide (j' < j)%nat && rotated basis j'
          then double_of_bool
                 (Z.testbit i (Z.of_nat (length (rotated_sites basis j'))))
          else x) state.

Lemma filled_none (i : Z) : filled i 0 = state.
Proof.
  unfold filled. apply list_eq. intros k. rewrite list_lookup_imap.
  destruct (state !! k); reflexivity.
Qed.

Lemma filled_all (i : Z) (j : nat) :
  (length state <= j)%nat -> filled i j = completion basis state i.
Proof.
  intros Hj. unfold filled, completion. apply list_eq. intros k.
  rewrite !list_lookup_imap.
  destruct (state !! k) as [x|] eqn:Hx; [|reflexivity]. cbn.
  apply lookup_lt_Some in Hx. rewrite bool_decide_true by lia. reflexivity.
Qed.

Lemma filled_skip (i : Z) (j : nat) :
  rotated basis j = false -> filled i (Datatypes.S j) = filled i j.
Proof.
  intros Hrot. unfold filled. apply list_eq. intros k.
  rewrite !list_lookup_imap.
  destruct (state !! k) as [x|]; [|reflexivity]. cbn. f_equal.
  destruct (decide (k = j)) as [-> | Hne].
  - rewrite Hrot, !andb_false_r. reflexivity.
  - destruct (decide (k < j)%nat).
    + rewrite !bool_decide_true by lia. reflexivity.
    + rewrite !bool_decide_false by lia. reflexivity.
Qed.

Lemma filled_write (i : Z) (j : nat) :
  (j < length state)%nat -> rotated basis j = true ->
  <[j := double_of_bool
           (Z.testbit i (Z.of_nat (length (rotated_sites basis j))))]>
    (filled i j)
  = filled i (Datatypes.S j).
Proof.
  intros Hj Hrot. unfold filled. apply list_eq. intros k.
  destruct (decide (k = j)) as [-> | Hne].
  - rewrite list_lookup_insert_eq by (rewrite length_imap; exact Hj).
    rewrite list_lookup_imap.
    destruct (lookup_lt_is_Some_2 state j Hj) as [x Hx]. rewrite Hx. cbn.
    rewrite bool_decide_true by lia. rewrite Hrot. reflexivity.
  - rewrite list_lookup_insert_ne by congruence.
    rewrite !list_lookup_imap.
    destruct (state !! k) as [x|]; [|reflexivity]. cbn. f_equal.
    destruct (decide (k < j)%nat).
    + rewrite !bool_decide_true by lia. reflexivity.
    + rewrite !bool_decide_false by lia. reflexivity.
Qed.

(** The loop over the sites, run up to site [k]: as long as no more than
    16 rotated sites have been met, and every rotated site met is a
    position of [state], [v] is [state] with the rotated sites below [k]
    set from the bits of [i], and [counter] is their number. *)
Lemma rotatedGrad_fill_prefix (i : Z) (k : nat) (st : St) :
  (k <= length basis)%nat ->
  (length (rotated_sites basis k) <= 16)%nat ->
  (forall j, (j < k)%nat -> rotated basis j = true -> (j < length state)%nat) ->
  for_loop 0 (Z.of_nat k) (rotatedGrad_fill_step basis (bitset16_of_int i))
    (state, 0) st
  = (st, Returned (filled i k, Z.of_nat (length (rotated_sites basis k)))).
Proof.
  intros Hk Hcap Hpos.
  pose (Inv := fun (j : Z) (acc : VectorXd * Z) (st' : St) =>
    st' = st
    /\ acc = (filled i (Z.to_nat j),
              Z.of_nat (length (rotated_sites basis (Z.to_nat j))))).
  destruct (for_loop_inv Inv
    (rotatedGrad_fill_step basis (bitset16_of_int i)) 0 (Z.of_nat k) (state, 0) st)
    as (acc & st' & Hrun & Hst & Hacc).
  - lia.
  - unfold Inv. cbn. rewrite filled_none. split; reflexivity.
  - intros j acc st1 Hj (-> & ->).
    destruct (lookup_lt_is_Some_2 basis (Z.to_nat j)) as [label Hl]; [lia|].
    unfold rotatedGrad_fill_step, bind.
    rewrite (vec_at_run basis j label) by (lia || exact Hl).
    unfold Inv.
    replace (Z.to_nat (j + 1)) with (Datatypes.S (Z.to_nat j)) by lia.
    pose proof (rotated_label basis _ label Hl) as Hrot.
    rewrite rotated_sites_S.
    destruct (is_Z label); cbn [negb] in Hrot; rewrite Hrot.
    + eexists _, st. split; [reflexivity|]. split; [reflexivity|].
      rewrite filled_skip by exact Hrot. rewrite app_nil_r. reflexivity.
    + pose proof (rotated_rank_lt basis (Z.to_nat j) k ltac:(lia) Hrot) as Hrank.
      pose proof (Hpos (Z.to_nat j) ltac:(lia) Hrot) as Hin.
      unfold bitset16_at.
      destruct (Z.leb_spec 0 (Z.of_nat (length (rotated_sites basis (Z.to_nat j)))));
        [|lia].
      destruct (Z.ltb_spec (Z.of_nat (length (rotated_sites basis (Z.to_nat j)))) 16);
        [|lia].
      cbn [andb]. unfold ret at 1.
      rewrite vec_set_run by (unfold filled; rewrite length_imap; lia).
      rewrite bitset16_bit by lia.
      rewrite filled_write by (lia || exact Hrot).
      eexists _, st. split; [reflexivity|]. split; [reflexivity|].
      rewrite length_app. cbn. f_equal. lia.
  - subst st'. rewrite Hrun, Hacc. rewrite Nat2Z.id. reflexivity.
Qed.

(** With at most 16 rotated sites, the loop over the sites builds the
    completion of step 2 and leaves [counter] at [t]. *)
Lemma rotatedGrad_fill_run (i : Z) (st : St) :
  length state = length basis ->
  (length (rotated_sites basis (length basis)) <= 16)%nat ->
  rotatedGrad_fill w basis (bitset16_of_int i) state st
  = (st, Returned (completion basis state i,
                   Z.of_nat (length (rotated_sites basis (length basis))))).
Proof.
  intros Hlen Hcap. unfold rotatedGrad_fill. rewrite <- basis_length.
  rewrite rotatedGrad_fill_prefix; [| lia | exact Hcap | intros; lia].
  rewrite filled_all by lia. reflexivity.
Qed.

(** Without rotated sites the loop leaves [v] equal to [state]. *)
Lemma rotatedGrad_fill_plain (i : Z) (st : St) :
  rotated_sites basis (length basis) = [] ->
  rotatedGrad_fill w basis (bitset16_of_int i) state st
  = (st, Returned (state, 0)).
Proof.
  intros Hnil. unfold rotatedGrad_fill. rewrite <- basis_length.
  rewrite rotatedGrad_fill_prefix; [| lia | rewrite Hnil; cbn; lia |].
  - rewrite Hnil. cbn. do 3 f_equal.
    unfold filled. apply list_eq. intros k. rewrite list_lookup_imap.
    destruct (state !! k) as [x|]; [|reflexivity]. cbn.
    destruct (bool_decide (k < length basis)%nat) eqn:Hdec; [|reflexivity].
    apply bool_decide_eq_true in Hdec.
    rewrite (rotated_sites_none basis (length basis) k Hnil Hdec). reflexivity.
  - intros j Hj Hrot.
    rewrite (rotated_sites_none basis (length basis) j Hnil Hj) in Hrot.
    discriminate.
Qed.

(** With more than 16 rotated sites the loop reads position 16 of the
    16-bit pattern when it meets the rotated site of rank 16. *)
Lemma rotatedGrad_fill_overflow (i : Z) (st : St) :
  length state = length basis ->
  (16 < length (rotated_sites basis (length basis)))%nat ->
  rotatedGrad_fill w basis (bitset16_of_int i) state st
  = (st, Undefined BitsetIndex).
Proof.
  intros Hlen Hcap. unfold rotatedGrad_fill.
  destruct (lookup_lt_is_Some_2 (rotated_sites basis (length basis)) 16 Hcap)
    as [j Hj].
  pose proof (rotated_sites_rank basis _ _ _ Hj) as Hrank.
  pose proof (rotated_sites_bound basis (length basis)) as Hb.
  eapply Forall_lookup_1 in Hb; [|exact Hj]. destruct Hb as [Hlt Hrot].
  destruct (lookup_lt_is_Some_2 basis j Hlt) as [label Hl].
  apply (for_loop_undefined _ 0 (Z.of_nat j) (N_ w) _ st
           (filled i j, 16) st st BitsetIndex).
  - lia.
  - rewrite rotatedGrad_fill_prefix; [| lia | lia | intros; lia].
    rewrite Hrank. reflexivity.
  - unfold rotatedGrad_fill_step, bind.
    rewrite (vec_at_nat basis j label) by exact Hl.
    rewrite (rotated_label basis j label Hl) in Hrot.
    destruct (is_Z label); [discriminate|]. reflexivity.
Qed.

End Enumeration.

Lemma truncate_0 : truncate 0 = 0.
Proof.
  unfold truncate. destruct (Rle_dec 0 0) as [_ | Hn]; [|lra].
  symmetry. apply Int_part_spec. cbn. lra.
Qed.

Lemma truncate_1 : truncate 1 = 1.
Proof.
  unfold truncate. destruct (Rle_dec 0 1) as [_ | Hn]; [|lra].
  symmetry. apply Int_part_spec. cbn. lra.
Qed.

(** A coefficient of a visible configuration: 0 or 1. *)
Definition binary (x : R) : Prop := x = 0%R \/ x = 1%R.

(** [v] has a binary coefficient at every site of [sites]. *)
Definition binary_at (v : VectorXd) (sites : list nat) : Prop :=
  Forall (fun site => exists x, v !! site = Some x /\ binary x) sites.

Lemma double_of_bool_binary (b : bool) : binary (double_of_bool b).
Proof. destruct b; [right | left]; reflexivity. Qed.

Lemma truncate_binary (x : R) : binary x -> 0 <= truncate x < 2.
Proof. intros [-> | ->]; [rewrite truncate_0 | rewrite truncate_1]; lia. Qed.

Lemma int_of_double_run {St : Type} (x : R) (st : St) :
  binary x -> int_of_double x st = (st, Returned (truncate x)).
Proof.
  intros Hx. pose proof (truncate_binary x Hx) as Hr. unfold int_of_double.
  destruct (Z.leb_spec (-2147483648) (truncate x)); [|lia].
  destruct (Z.leb_spec (truncate x) 2147483647); [|lia].
  reflexivity.
Qed.

Lemma binary_at_vector (v : VectorXd) (sites : list nat) :
  Forall binary v -> Forall (fun site => (site < length v)%nat) sites ->
  binary_at v sites.
Proof.
  intros Hv Hs. unfold binary_at. eapply Forall_impl; [exact Hs|].
  intros site Hlt. cbn in Hlt.
  destruct (lookup_lt_is_Some_2 v site Hlt) as [x Hx].
  exists x. split; [exact Hx|]. eapply Forall_lookup_1; eassumption.
Qed.

Lemma completion_lookup (basis : list string) (state : VectorXd) (i : Z)
    (site : nat) :
  (site < length state)%nat -> rotated basis site = true ->
  completion basis state i !! site
  = Some (double_of_bool
            (Z.testbit i (Z.of_nat (length (rotated_sites basis site))))).
Proof.
  intros Hs Hrot. unfold completion. rewrite list_lookup_imap.
  destruct (lookup_lt_is_Some_2 state site Hs) as [x Hx].
  rewrite Hx. cbn. rewrite Hrot. reflexivity.
Qed.

Lemma binary_at_completion (basis : list string) (state : VectorXd) (i : Z)
    (n : nat) :
  (n <= length state)%nat ->
  binary_at (completion basis state i) (rotated_sites basis n).
Proof.
  intros Hn. unfold binary_at.
  eapply Forall_impl; [apply rotated_sites_bound|].
  intros site [Hlt Hrot]. eexists. split.
  - apply completion_lookup; [lia | exact Hrot].
  - apply double_of_bool_binary.
Qed.

Lemma in_default_matrix (r c : Z) : in_matrix MatrixXcd_default r c = false.
Proof.
  unfold in_matrix, MatrixXcd_default. cbn [rows cols].
  destruct (Z.leb_spec 0 r); [|reflexivity].
  destruct (Z.ltb_spec r 0); [lia|]. reflexivity.
Qed.

Lemma seqZ_snoc (i : Z) : 0 <= i -> seqZ 0 (i + 1) = seqZ 0 i ++ [i].
Proof.
  intros Hi. rewrite seqZ_app by lia.
  rewrite (seqZ_cons (0 + i) 1) by lia.
  rewrite (seqZ_nil _ (Z.pred 1)) by lia.
  rewrite Z.add_0_l. reflexivity.
Qed.

Section Product.

Variables (basis : list string) (state v : VectorXd)
          (table : gmap string MatrixXcd).

(** The labels of [sites] have a matrix with at least two rows and two
    columns in the table. *)
Definition covered (sites : list nat) : Prop :=
  Forall (fun site => forall label, basis !! site = Some label ->
            exists m, table !! label = Some m /\ 2 <= rows m /\ 2 <= cols m)
         sites.

Variable sites : list nat.
Hypothesis sites_in_basis : Forall (fun site => (site < length basis)%nat) sites.
Hypothesis state_binary : binary_at state sites.
Hypothesis v_binary : binary_at v sites.

(** One factor of the product of step 3. *)
Lemma rotatedGrad_U_factor (ii : Z) (site : nat) (U : complex) :
  0 <= ii ->
  sites !! Z.to_nat ii = Some site ->
  covered [site] ->
  rotatedGrad_U_step basis state v (Z.of_nat <$> sites) ii U table
  = (table, Returned (cmul U (unitary_element table basis state v site))).
Proof.
  intros Hii Hsite Hcov.
  pose proof (Forall_lookup_1 _ _ _ _ sites_in_basis Hsite) as Hlt. cbn in Hlt.
  destruct (lookup_lt_is_Some_2 basis site Hlt) as [label Hl].
  destruct (Forall_lookup_1 _ _ _ _ state_binary Hsite) as (s & Hs & Hbs).
  destruct (Forall_lookup_1 _ _ _ _ v_binary Hsite) as (x & Hx & Hbx).
  apply Forall_cons_1 in Hcov. destruct Hcov as [Hcov _].
  destruct (Hcov label Hl) as (m & Hm & Hrows & Hcols).
  pose proof (truncate_binary s Hbs) as Hr.
  pose proof (truncate_binary x Hbx) as Hc.
  unfold rotatedGrad_U_step, bind.
  rewrite (vec_at_run _ ii (Z.of_nat site))
    by (lia || (rewrite list_lookup_fmap, Hsite; reflexivity)).
  rewrite (vec_at_nat basis site label) by exact Hl.
  unfold map_subscript. rewrite Hm.
  rewrite (vec_at_nat state site s) by exact Hs.
  rewrite int_of_double_run by exact Hbs.
  rewrite (vec_at_nat v site x) by exact Hx.
  rewrite int_of_double_run by exact Hbx.
  unfold mat_at. rewrite in_matrix_inside by lia.
  unfold ret, unitary_element. rewrite Hl, Hs, Hx, Hm. reflexivity.
Qed.

(** The loop over [basisIndex], run over a covered prefix, computes the
    product of step 3 over that prefix and leaves the table as it was. *)
Lemma rotatedGrad_U_prefix (k : nat) :
  (k <= length sites)%nat ->
  covered (take k sites) ->
  for_loop 0 (Z.of_nat k)
    (rotatedGrad_U_step basis state v (Z.of_nat <$> sites)) (of_double 1) table
  = (table, Returned (rotation_amplitude table basis state v (take k sites))).
Proof.
  intros Hk Hcov.
  pose (Inv := fun (ii : Z) (U : complex) (tb : gmap string MatrixXcd) =>
    tb = table
    /\ U = rotation_amplitude table basis state v (take (Z.to_nat ii) sites)).
  destruct (for_loop_inv Inv
    (rotatedGrad_U_step basis state v (Z.of_nat <$> sites))
    0 (Z.of_nat k) (of_double 1) table) as (U & tb & Hrun & Htb & HU).
  - lia.
  - unfold Inv. split; reflexivity.
  - intros ii U tb Hii (-> & ->).
    destruct (lookup_lt_is_Some_2 sites (Z.to_nat ii)) as [site Hsite]; [lia|].
    assert (Hc1 : covered [site]).
    { apply Forall_cons_2; [|apply Forall_nil_2].
      apply (Forall_lookup_1 _ _ (Z.to_nat ii) _ Hcov).
      rewrite lookup_take_lt by lia. exact Hsite. }
    rewrite (rotatedGrad_U_factor ii site) by (lia || assumption).
    eexists _, table. split; [reflexivity|].
    unfold Inv. split; [reflexivity|].
    replace (Z.to_nat (ii + 1)) with (Datatypes.S (Z.to_nat ii)) by lia.
    rewrite (take_S_r sites _ site Hsite).
    unfold rotation_amplitude. rewrite fold_left_app. reflexivity.
  - subst tb. rewrite Hrun, HU. rewrite Nat2Z.id. reflexivity.
Qed.

Lemma rotatedGrad_U_run :
  covered sites ->
  rotatedGrad_U basis state v (Z.of_nat <$> sites) (Z.of_nat (length sites)) table
  = (table, Returned (rotation_amplitude table basis state v sites)).
Proof.
  intros Hcov. unfold rotatedGrad_U.
  rewrite rotatedGrad_U_prefix; [| lia | rewrite firstn_all; exact Hcov].
  rewrite firstn_all. reflexivity.
Qed.

(** At the first rotated site whose label has no entry, the subscript
    inserts a default-constructed matrix under that label, and the element
    access that follows lies outside this empty matrix. *)
Lemma rotatedGrad_U_missing (k site : nat) (label : string) :
  sites !! k = Some site ->
  covered (take k sites) ->
  basis !! site = Some label ->
  table !! label = None ->
  rotatedGrad_U basis state v (Z.of_nat <$> sites) (Z.of_nat (length sites)) table
  = (<[label := MatrixXcd_default]> table, Undefined MatrixIndex).
Proof.
  intros Hsite Hcov Hl Hnone. unfold rotatedGrad_U.
  pose proof (lookup_lt_Some _ _ _ Hsite) as Hk.
  destruct (Forall_lookup_1 _ _ _ _ state_binary Hsite) as (s & Hs & Hbs).
  destruct (Forall_lookup_1 _ _ _ _ v_binary Hsite) as (x & Hx & Hbx).
  apply (for_loop_undefined _ 0 (Z.of_nat k) _ _ table
           (rotation_amplitude table basis state v (take k sites)) table).
  - lia.
  - apply rotatedGrad_U_prefix; [lia | exact Hcov].
  - unfold rotatedGrad_U_step, bind.
    rewrite (vec_at_nat _ k (Z.of_nat site))
      by (rewrite list_lookup_fmap, Hsite; reflexivity).
    rewrite (vec_at_nat basis site label) by exact Hl.
    unfold map_subscript. rewrite Hnone.
    rewrite (vec_at_nat state site s) by exact Hs.
    rewrite int_of_double_run by exact Hbs.
    rewrite (vec_at_nat v site x) by exact Hx.
    rewrite int_of_double_run by exact Hbx.
    unfold mat_at. rewrite in_default_matrix. reflexivity.
Qed.

End Product.

Lemma map_replicate {A B : Type} (f : A -> B) (n : nat) (x : A) :
  map f (replicate n x) = replicate n (f x).
Proof. induction n as [|n IH]; [reflexivity|]. cbn. rewrite IH. reflexivity. Qed.

Lemma map_const {A B : Type} (c : B) (l : list A) :
  map (fun _ => c) l = replicate (length l) c.
Proof. induction l as [|x l IH]; [reflexivity|]. cbn. rewrite IH. reflexivity. Qed.

Lemma zero_by_zero : cd_div (cd_of_double 0) (cd_of_double 0) = cNaN.
Proof.
  unfold cd_div, cd_of_double.
  destruct (complex_eq_dec (of_double 0) (of_double 0)) as [_ | Hne];
    [reflexivity | contradiction].
Qed.

Section Accumulation.

Context {rbm : RbmModel} {rng : RandomEngine}.

Variables (w : Wavefunction) (basis : list string) (state : VectorXd)
          (table : gmap string MatrixXcd).
Hypothesis basis_length : Z.of_nat (length basis) = N_ w.
Hypothesis npar_nonneg : 0 <= npar_ w.

Lemma Grad_run {St : Type} (v : VectorXd) (st : St) :
  Z.of_nat (length (gradient w v)) = npar_ w ->
  Grad w v st = (st, Returned (gradient w v)).
Proof using Type.
  intros Hlen. unfold Grad, gradient, LambdaGrad, MuGrad. apply comma_init_run.
  unfold gradient, LambdaGrad, MuGrad in Hlen. rewrite length_app in Hlen.
  clear - Hlen. lia.
Qed.

Lemma numerator_step (V : Z -> VectorXd) (A : Z -> complex) (i : Z) :
  0 <= i ->
  numerator w V A (i + 1)
  = zip_with cd_add (numerator w V A i) (numerator_term w (V i) (A i)).
Proof using Type.
  clear basis_length npar_nonneg.
  intros Hi. unfold numerator. rewrite seqZ_snoc by exact Hi.
  rewrite fold_left_app. reflexivity.
Qed.

Lemma denominator_step (V : Z -> VectorXd) (A : Z -> complex) (i : Z) :
  0 <= i ->
  denominator w V A (i + 1)
  = cd_add (denominator w V A i) (denominator_term w (V i) (A i)).
Proof using Type.
  clear basis_length npar_nonneg.
  intros Hi. unfold denominator. rewrite seqZ_snoc by exact Hi.
  rewrite fold_left_app. reflexivity.
Qed.

Lemma numerator_length (V : Z -> VectorXd) (A : Z -> complex) (count : Z) :
  (forall i, 0 <= i < count ->
     Z.of_nat (length (gradient w (V i))) = npar_ w) ->
  length (numerator w V A count) = Z.to_nat (npar_ w).
Proof using Type.
  clear basis_length npar_nonneg.
  destruct (Z.le_gt_cases count 0) as [Hle | Hpos].
  - intros _. unfold numerator. rewrite seqZ_nil by lia. apply length_replicate.
  - rewrite <- (Z2Nat.id count) by lia. generalize (Z.to_nat count) as n.
    induction n as [|n IH]; intros Hlen.
    + unfold numerator. rewrite seqZ_nil by lia. apply length_replicate.
    + rewrite Nat2Z.inj_succ. unfold Z.succ. rewrite numerator_step by lia.
      rewrite length_zip_with. unfold numerator_term. rewrite length_map.
      pose proof (Hlen (Z.of_nat n) ltac:(lia)) as Hg.
      rewrite IH by (intros i Hi; apply Hlen; lia). lia.
Qed.

(** The calls made before the main loop. *)
Lemma rotatedGrad_unfold :
  let sites := rotated_sites basis (length basis) in
  let t := Z.of_nat (length sites) in
  rotatedGrad w basis state table
  = (bound <- shl_one t ;;
     acc <- for_loop 0 bound
              (rotatedGrad_step w basis state (Z.of_nat <$> sites) t)
              (replicate (Z.to_nat (npar_ w)) (cd_of_double 0), cd_of_double 0) ;;
     ret (map (fun nk => cd_div nk acc.2) acc.1)) table.
Proof.
  intros sites t. unfold rotatedGrad.
  unfold bind at 1. rewrite new_vector_run by lia.
  unfold bind at 1. unfold zero_vector.
  destruct (Z.ltb_spec (npar_ w) 0); [lia|]. unfold ret at 1.
  unfold bind at 1. rewrite (rotatedGrad_sites_run w basis basis_length).
  fold sites. fold t. unfold bind.
  destruct (shl_one t table) as [tb [bound | e | f]]; try reflexivity.
  destruct (for_loop 0 bound _ _ tb) as [tb' [[num den] | e | f]]; reflexivity.
Qed.

(** With more than 31 rotated sites the shift [1<<t] is undefined. *)
Lemma rotatedGrad_shift_overflow :
  (31 < length (rotated_sites basis (length basis)))%nat ->
  rotatedGrad w basis state table = (table, Undefined ShiftOverflow).
Proof.
  intros Ht. rewrite rotatedGrad_unfold. unfold bind, shl_one.
  destruct (Z.leb_spec (Z.of_nat (length (rotated_sites basis (length basis)))) 30);
    [lia|].
  rewrite andb_false_r.
  destruct (Z.eqb_spec (Z.of_nat (length (rotated_sites basis (length basis)))) 31);
    [lia|].
  reflexivity.
Qed.

(** With 31 rotated sites the bound [1<<t] is negative: the main loop has
    no iteration, and the zero numerator is divided by the zero
    denominator. *)
Lemma rotatedGrad_negative_bound :
  length (rotated_sites basis (length basis)) = 31%nat ->
  rotatedGrad w basis state table
  = (table, Returned (replicate (Z.to_nat (npar_ w)) cNaN)).
Proof.
  intros Ht. rewrite rotatedGrad_unfold. rewrite Ht.
  change (Z.of_nat 31) with 31.
  unfold bind at 1.
  change (shl_one 31 table) with (table, @Returned Z (-2147483648)).
  unfold bind. rewrite for_loop_empty by lia. unfold ret. cbn [fst snd].
  rewrite map_replicate, zero_by_zero. reflexivity.
Qed.

(** A first iteration without a meaning leaves the call without one. *)
Lemma rotatedGrad_first_undefined (tb : gmap string MatrixXcd) (f : fault) :
  let sites := rotated_sites basis (length basis) in
  let t := Z.of_nat (length sites) in
  t <= 30 ->
  rotatedGrad_step w basis state (Z.of_nat <$> sites) t 0
    (replicate (Z.to_nat (npar_ w)) (cd_of_double 0), cd_of_double 0) table
  = (tb, Undefined f) ->
  rotatedGrad w basis state table = (tb, Undefined f).
Proof.
  intros sites t Ht Hstep. rewrite rotatedGrad_unfold. fold sites. fold t.
  unfold bind at 1. unfold shl_one.
  destruct (Z.leb_spec 0 t); [|lia]. destruct (Z.leb_spec t 30); [|lia].
  cbn [andb]. unfold ret at 1. rewrite Z.shiftl_1_l.
  unfold bind at 1.
  rewrite for_loop_step by (apply Z.pow_pos_nonneg; lia).
  unfold bind at 1. rewrite Hstep. reflexivity.
Qed.

(** The main loop: when, for every index below [2^t], the site loop
    yields [V i] and the product loop yields [A i] without touching the
    table, the call returns the quotient of the two sums. *)
Lemma rotatedGrad_accumulate (V : Z -> VectorXd) (A : Z -> complex) :
  let sites := rotated_sites basis (length basis) in
  let t := Z.of_nat (length sites) in
  t <= 30 ->
  (forall i, 0 <= i < 2 ^ t ->
     exists c, rotatedGrad_fill w basis (bitset16_of_int i) state table
               = (table, Returned (V i, c))) ->
  (forall i, 0 <= i < 2 ^ t ->
     rotatedGrad_U basis state (V i) (Z.of_nat <$> sites) t table
     = (table, Returned (A i))) ->
  (forall i, 0 <= i < 2 ^ t ->
     Z.of_nat (length (gradient w (V i))) = npar_ w) ->
  rotatedGrad w basis state table = (table, Returned (quotient w V A (2 ^ t))).
Proof.
  intros sites t Ht Hfill HU Hgrad. rewrite rotatedGrad_unfold.
  fold sites. fold t.
  unfold bind at 1. unfold shl_one.
  destruct (Z.leb_spec 0 t); [|lia]. destruct (Z.leb_spec t 30); [|lia].
  cbn [andb]. unfold ret at 1. rewrite Z.shiftl_1_l.
  pose (Inv := fun (i : Z) (acc : VectorXcd * cdouble)
                   (tb : gmap string MatrixXcd) =>
    tb = table /\ acc = (numerator w V A i, denominator w V A i)).
  destruct (for_loop_inv Inv
    (rotatedGrad_step w basis state (Z.of_nat <$> sites) t) 0 (2 ^ t)
    (replicate (Z.to_nat (npar_ w)) (cd_of_double 0), cd_of_double 0) table)
    as (acc & tb & Hrun & Htb & Hacc).
  - apply Z.pow_nonneg. lia.
  - unfold Inv. split; [reflexivity|].
    unfold numerator, denominator. rewrite seqZ_nil by lia. reflexivity.
  - intros i acc tb Hi (-> & ->).
    destruct (Hfill i Hi) as [c Hc].
    unfold rotatedGrad_step.
    unfold bind at 1. rewrite Hc.
    unfold bind at 1. rewrite (HU i Hi).
    unfold bind at 1. rewrite Grad_run by (apply Hgrad; exact Hi).
    unfold bind at 1. unfold vec_add_assign.
    rewrite length_map, numerator_length by (intros; apply Hgrad; lia).
    pose proof (Hgrad i Hi) as Hg.
    replace (length (gradient w (V i))) with (Z.to_nat (npar_ w)) by lia.
    rewrite Nat.eqb_refl. unfold ret.
    eexists _, table. split; [reflexivity|].
    unfold Inv. split; [reflexivity|].
    rewrite numerator_step, denominator_step by lia. reflexivity.
  - subst tb acc. unfold bind. rewrite Hrun. reflexivity.
Qed.

End Accumulation.

(** With at most 16 rotated sites, all of them covered by the table, and a
    binary [state] of length [N_], the call returns the quotient of step 5
    and leaves the table as it was. *)
Lemma rotatedGrad_run `{rbm : RbmModel} `{rng : RandomEngine}
    (w : Wavefunction) (basis : list string) (state : VectorXd)
    (table : gmap string MatrixXcd) :
  Z.of_nat (length basis) = N_ w ->
  Z.of_nat (length state) = N_ w ->
  Forall binary state ->
  (forall v : VectorXd, Z.of_nat (length (gradient w v)) = npar_ w) ->
  (length (rotated_sites basis (length basis)) <= 16)%nat ->
  covered basis table (rotated_sites basis (length basis)) ->
  rotatedGrad w basis state table
  = (table, Returned (estimator w table basis state)).
Proof.
  intros Hbasis Hstate Hbin Hgrad Hcap Hcov.
  assert (Hsame : length state = length basis) by lia.
  assert (Hnpar : 0 <= npar_ w) by (pose proof (Hgrad []); lia).
  assert (Hin : Forall (fun site => (site < length basis)%nat)
                  (rotated_sites basis (length basis))).
  { eapply Forall_impl; [apply rotated_sites_bound|]. intros site [Hlt _]. exact Hlt. }
  unfold estimator. rewrite Hsame.
  apply rotatedGrad_accumulate; try assumption.
  - lia.
  - intros i Hi. eexists.
    apply rotatedGrad_fill_run; assumption.
  - intros i Hi. apply rotatedGrad_U_run; try assumption.
    + apply binary_at_vector; [exact Hbin | rewrite Hsame; exact Hin].
    + apply binary_at_completion. lia.
  - intros i Hi. apply Hgrad.
Qed.

(** With 17 to 30 rotated sites, the first completion reads position 16
    of the 16-bit pattern. *)
Lemma rotatedGrad_over_capacity `{rbm : RbmModel} `{rng : RandomEngine}
    (w : Wavefunction) (basis : list string) (state : VectorXd)
    (table : gmap string MatrixXcd) :
  Z.of_nat (length basis) = N_ w ->
  Z.of_nat (length state) = N_ w ->
  0 <= npar_ w ->
  (16 < length (rotated_sites basis (length basis)) <= 30)%nat ->
  rotatedGrad w basis state table = (table, Undefined BitsetIndex).
Proof.
  intros Hbasis Hstate Hnpar Ht.
  apply rotatedGrad_first_undefined; try assumption; [lia|].
  unfold rotatedGrad_step, bind.
  rewrite rotatedGrad_fill_overflow; [reflexivity | exact Hbasis | lia | lia].
Qed.

(** With a rotated site whose label has no entry, the first completion
    inserts a default-constructed matrix and reads outside it. *)
Lemma rotatedGrad_missing_entry `{rbm : RbmModel} `{rng : RandomEngine}
    (w : Wavefunction) (basis : list string) (state : VectorXd)
    (table : gmap string MatrixXcd) (k site : nat) (label : string) :
  Z.of_nat (length basis) = N_ w ->
  Z.of_nat (length state) = N_ w ->
  Forall binary state ->
  0 <= npar_ w ->
  (length (rotated_sites basis (length basis)) <= 16)%nat ->
  rotated_sites basis (length basis) !! k = Some site ->
  covered basis table (take k (rotated_sites basis (length basis))) ->
  basis !! site = Some label ->
  table !! label = None ->
  rotatedGrad w basis state table
  = (<[label := MatrixXcd_default]> table, Undefined MatrixIndex).
Proof.
  intros Hbasis Hstate Hbin Hnpar Hcap Hsite Hcov Hl Hnone.
  assert (Hsame : length state = length basis) by lia.
  assert (Hin : Forall (fun site => (site < length basis)%nat)
                  (rotated_sites basis (length basis))).
  { eapply Forall_impl; [apply rotated_sites_bound|]. intros s [Hlt _]. exact Hlt. }
  apply rotatedGrad_first_undefined; try assumption; [lia|].
  unfold rotatedGrad_step. unfold bind at 1.
  rewrite rotatedGrad_fill_run by assumption.
  unfold bind at 1.
  rewrite (rotatedGrad_U_missing basis state _ table _ Hin) with (k := k)
    (site := site) (label := label); try assumption.
  - reflexivity.
  - apply binary_at_vector; [exact Hbin | rewrite Hsame; exact Hin].
  - apply binary_at_completion. lia.
Qed.

(** *** The completions are all there, each once *)

Lemma double_of_bool_inj (a b : bool) :
  double_of_bool a = double_of_bool b -> a = b.
Proof. destruct a, b; cbn; intros H; try reflexivity; lra. Qed.

Lemma bit_of_double_of_bool (b : bool) : bit_of_double (double_of_bool b) = b.
Proof.
  unfold bit_of_double. destruct b; cbn.
  - destruct (Req_dec_T 1 1) as [_ | Hn]; [reflexivity | contradiction].
  - destruct (Req_dec_T 0 1) as [He | _]; [lra | reflexivity].
Qed.

Lemma index_of_bits_testbit (bits : list bool) (k : nat) :
  Z.testbit (index_of_bits bits) (Z.of_nat k) = default false (bits !! k).
Proof.
  revert k. induction bits as [|b bits IH]; intros k.
  - cbn. apply Z.testbit_0_l.
  - cbn [index_of_bits]. destruct k as [|k].
    + cbn [Z.of_nat]. rewrite Z.testbit_0_r. reflexivity.
    + rewrite Nat2Z.inj_succ, Z.testbit_succ_r by lia. apply IH.
Qed.

Lemma index_of_bits_range (bits : list bool) :
  0 <= index_of_bits bits < 2 ^ Z.of_nat (length bits).
Proof.
  induction bits as [|b bits IH].
  - cbn. lia.
  - cbn [index_of_bits length]. rewrite Nat2Z.inj_succ, Z.pow_succ_r by lia.
    destruct b; cbn [Z.b2z]; lia.
Qed.

Lemma rotated_sites_lookup_rank (basis : list string) (n j : nat) :
  (j < n)%nat -> rotated basis j = true ->
  rotated_sites basis n !! length (rotated_sites basis j) = Some j.
Proof.
  induction n as [|n IH]; [lia|]. intros Hj Hrot.
  rewrite rotated_sites_S.
  destruct (decide (j = n)) as [-> | Hne].
  - rewrite Hrot. apply list_lookup_middle. reflexivity.
  - rewrite lookup_app_l; [apply IH; [lia | exact Hrot]|].
    apply rotated_rank_lt; [lia | exact Hrot].
Qed.

Section Completions.

Variables (basis : list string) (state : VectorXd).

Let sites := rotated_sites basis (length state).
Let t := Z.of_nat (length sites).

Lemma completion_at (i : Z) (j : nat) :
  (j < length state)%nat ->
  completion basis state i !! j
  = if rotated basis j
    then Some (double_of_bool
                 (Z.testbit i (Z.of_nat (length (rotated_sites basis j)))))
    else state !! j.
Proof.
  intros Hj. destruct (rotated basis j) eqn:Hrot.
  - apply completion_lookup; assumption.
  - unfold completion. rewrite list_lookup_imap.
    destruct (state !! j); [|reflexivity]. cbn. rewrite Hrot. reflexivity.
Qed.

Lemma completion_inj (i i' : Z) :
  0 <= i < 2 ^ t -> 0 <= i' < 2 ^ t ->
  completion basis state i = completion basis state i' -> i = i'.
Proof.
  intros Hi Hi' Heq. apply Z.bits_inj'. intros k Hk.
  destruct (Z.lt_ge_cases k t) as [Hlt | Hge].
  - destruct (lookup_lt_is_Some_2 sites (Z.to_nat k)) as [j Hj];
      [unfold t in Hlt; lia|].
    pose proof (rotated_sites_rank basis _ _ _ Hj) as Hrank.
    pose proof (rotated_sites_bound basis (length state)) as Hb.
    eapply Forall_lookup_1 in Hb; [|exact Hj]. destruct Hb as [Hjlt Hrot].
    pose proof (completion_lookup basis state i j Hjlt Hrot) as H1.
    pose proof (completion_lookup basis state i' j Hjlt Hrot) as H2.
    rewrite Heq, H2, Hrank in H1. inversion H1 as [H3].
    apply double_of_bool_inj in H3.
    replace k with (Z.of_nat (Z.to_nat k)) by lia. congruence.
  - rewrite <- (Z.mod_small i (2 ^ t)), <- (Z.mod_small i' (2 ^ t)) by lia.
    rewrite !Z.mod_pow2_bits_high by (unfold t in *; lia). reflexivity.
Qed.

Lemma completion_surj (v : VectorXd) :
  length v = length state ->
  (forall j, (j < length state)%nat ->
     if rotated basis j then exists b, v !! j = Some (double_of_bool b)
     else v !! j = state !! j) ->
  exists i, 0 <= i < 2 ^ t /\ completion basis state i = v.
Proof.
  intros Hlen Hv.
  pose (bits := (fun site => bit_of_double (default 0%R (v !! site))) <$> sites).
  exists (index_of_bits bits). split.
  - pose proof (index_of_bits_range bits) as Hr.
    unfold bits in Hr at 3. rewrite length_fmap in Hr. exact Hr.
  - apply list_eq. intros j.
    destruct (decide (j < length state)%nat) as [Hj | Hj].
    + rewrite completion_at by exact Hj. specialize (Hv j Hj).
      destruct (rotated basis j) eqn:Hrot; [|congruence].
      destruct Hv as [b Hb]. rewrite Hb. do 2 f_equal.
      rewrite index_of_bits_testbit. unfold bits.
      rewrite list_lookup_fmap.
      unfold sites. rewrite (rotated_sites_lookup_rank basis _ j Hj Hrot).
      cbn. rewrite Hb. cbn. apply bit_of_double_of_bool.
    + rewrite !lookup_ge_None_2; [reflexivity | lia |].
      unfold completion. rewrite length_imap. lia.
Qed.

End Completions.

(** *** What rotatedGrad computes, and where it stops *)

Lemma estimator_quotient `{rbm : RbmModel} `{rng : RandomEngine}
    (w : Wavefunction) (table : gmap string MatrixXcd)
    (basis : list string) (state : VectorXd) :
  estimator w table basis state
  = map (fun nk => cd_div nk (estimator_denominator w table basis state))
        (estimator_numerator w table basis state).
Proof. reflexivity. Qed.

(** A quotient by zero is not a finite number. *)
Lemma cd_div_by_zero (nk : cdouble) :
  cd_div nk (cd_of_double 0) = cNaN \/ cd_div nk (cd_of_double 0) = cInf.
Proof.
  unfold cd_div, cd_of_double. destruct nk as [x | |]; auto.
  destruct (complex_eq_dec (of_double 0) (of_double 0)) as [_ | Hne];
    [|contradiction].
  destruct (complex_eq_dec x (of_double 0)); auto.
Qed.

Section Estimate.

Context {rbm : RbmModel} {rng : RandomEngine}.

Variables (w : Wavefunction) (basis : list string) (state : VectorXd)
          (table : gmap string MatrixXcd).

Let sites := rotated_sites basis (length basis).
Let t := Z.of_nat (length sites).

Hypothesis basis_length : Z.of_nat (length basis) = N_ w.
Hypothesis state_length : Z.of_nat (length state) = N_ w.
Hypothesis state_binary : Forall binary state.
Hypothesis Grad_length :
  forall v : VectorXd, Z.of_nat (length (gradient w v)) = npar_ w.
Hypothesis npar_nonneg : 0 <= npar_ w.

(** C1, amended. For a basis descriptor of length N with at most 16 labels
    other than "Z", a binary [state] of length N and a table with a 2x2
    matrix for every label other than "Z", [rotatedGrad] leaves the table
    alone and writes [gradR = numerator / denominator], the sums of
    [U(y)*Grad(v_y)*psi(v_y)] and of [U(y)*psi(v_y)] over the indices
    [0 <= i < 2^t] in this order, with [U(y)] the product, in site order,
    of the table's matrix elements at [(state[site], v_y[site])].  The
    vector built for index [i] is [state] with the rotated site of rank
    [k] set to bit [k] of [i]; different indices give different vectors,
    and every vector that is binary on the rotated sites and equal to
    [state] elsewhere is built for some index. *)
Theorem rotatedGrad_enumerates :
  (length sites <= 16)%nat ->
  covered basis table sites ->
  rotatedGrad w basis state table
  = (table, Returned (estimator w table basis state))
  /\ (forall i, 0 <= i < 2 ^ t ->
        rotatedGrad_fill w basis (bitset16_of_int i) state table
        = (table, Returned (completion basis state i, t)))
  /\ (forall i j, (j < length state)%nat ->
        completion basis state i !! j
        = if rotated basis j
          then Some (double_of_bool
                       (Z.testbit i (Z.of_nat (length (rotated_sites basis j)))))
          else state !! j)
  /\ (forall i i', 0 <= i < 2 ^ t -> 0 <= i' < 2 ^ t ->
        completion basis state i = completion basis state i' -> i = i')
  /\ (forall v : VectorXd, length v = length state ->
        (forall j, (j < length state)%nat ->
           if rotated basis j then exists b, v !! j = Some (double_of_bool b)
           else v !! j = state !! j) ->
        exists i, 0 <= i < 2 ^ t /\ completion basis state i = v).
Proof.
  intros Hcap Hcov.
  assert (Hsame : length state = length basis) by lia.
  split; [apply rotatedGrad_run; assumption|].
  split; [intros i Hi; apply rotatedGrad_fill_run; assumption|].
  split; [intros i j Hj; apply completion_at; exact Hj|].
  unfold t, sites. rewrite <- Hsame.
  split; [apply completion_inj | apply completion_surj].
Qed.

(** C2, amended. [rotatedGrad] does not look at the denominator before it
    divides: under the conditions of C1, when the denominator is zero the
    call still returns normally, and every coefficient of [gradR] is the
    quotient of a coefficient of the numerator by that zero, which is NaN
    or has an infinite component; no error is reported. *)
Theorem rotatedGrad_zero_denominator :
  (length sites <= 16)%nat ->
  covered basis table sites ->
  estimator_denominator w table basis state = cd_of_double 0 ->
  exists gradR : VectorXcd,
    rotatedGrad w basis state table = (table, Returned gradR)
    /\ gradR = map (fun nk => cd_div nk (cd_of_double 0))
                  (estimator_numerator w table basis state)
    /\ Z.of_nat (length gradR) = npar_ w
    /\ Forall (fun z => z = cNaN \/ z = cInf) gradR.
Proof.
  clear npar_nonneg.
  intros Hcap Hcov Hden. eexists. split; [|split; [reflexivity|split]].
  - rewrite rotatedGrad_run by assumption.
    rewrite estimator_quotient, Hden. reflexivity.
  - rewrite length_map. unfold estimator_numerator.
    rewrite numerator_length by (intros; apply Grad_length).
    pose proof (Grad_length []). lia.
  - apply Forall_forall. intros z Hz. apply list_elem_of_In, in_map_iff in Hz.
    destruct Hz as (nk & <- & _). apply cd_div_by_zero.
Qed.

(** C3, amended. When the label of a rotated site has no entry in the
    table (and the conditions of C1 hold otherwise), [rotatedGrad]
    reports no configuration error: at the first such site the subscript
    inserts a default-constructed 0x0 matrix under the missing label into
    the caller's table, and the element access that follows is outside
    that matrix, which is undefined behaviour. *)
Theorem rotatedGrad_missing_label (k site : nat) (label : string) :
  (length sites <= 16)%nat ->
  sites !! k = Some site ->
  covered basis table (take k sites) ->
  basis !! site = Some label ->
  table !! label = None ->
  rotatedGrad w basis state table
  = (<[label := MatrixXcd_default]> table, Undefined MatrixIndex)
  /\ <[label := MatrixXcd_default]> table !! label = Some MatrixXcd_default
  /\ <[label := MatrixXcd_default]> table <> table
  /\ rows MatrixXcd_default = 0 /\ cols MatrixXcd_default = 0.
Proof.
  intros Hcap Hsite Hcov Hl Hnone.
  split; [eapply rotatedGrad_missing_entry; eassumption|].
  split; [apply lookup_insert_eq|].
  split; [|split; reflexivity].
  intros Heq. rewrite <- Heq, lookup_insert_eq in Hnone. discriminate.
Qed.

(** C4, amended. [rotatedGrad] has no check of the number [t] of rotated
    sites against the 16 bits of its pattern: with [t > 16] it detects
    and reports nothing at the start of the call.  From 17 to 30 rotated
    sites the enumeration is entered, and its first completion reads
    position 16 of the pattern, outside the bitset (undefined behaviour).
    With 31 the bound [1<<31] is negative, the enumeration has no
    iteration, and the call returns NaN, zero divided by zero, in every
    coefficient.  From 32 on the shift [1<<t] is itself undefined. *)
Theorem rotatedGrad_beyond_capacity :
  (16 < length sites)%nat ->
  rotatedGrad w basis state table
  = (table,
     if t <=? 30 then Undefined BitsetIndex
     else if t =? 31 then Returned (replicate (Z.to_nat (npar_ w)) cNaN)
     else Undefined ShiftOverflow).
Proof.
  intros Ht. destruct (Z.leb_spec t 30) as [Hle | Hgt].
  - apply rotatedGrad_over_capacity; try assumption. unfold t in Hle.
    fold sites. lia.
  - destruct (Z.eqb_spec t 31) as [Heq | Hne].
    + apply rotatedGrad_negative_bound; try assumption. unfold t in Heq.
      fold sites. lia.
    + apply rotatedGrad_shift_overflow; try assumption. unfold t in Hgt, Hne.
      fold sites. lia.
Qed.

End Estimate.

(** *** Without rotated sites *)

Lemma cadd_0_l (z : complex) : cadd (of_double 0) z = z.
Proof. destruct z as [a b]. unfold cadd, of_double. cbn. f_equal; lra. Qed.

Lemma cmul_1_l (z : complex) : cmul (of_double 1) z = z.
Proof. destruct z as [a b]. unfold cmul, of_double. cbn. f_equal; lra. Qed.

Lemma cmul_0_r (z : complex) : cmul z (of_double 0) = of_double 0.
Proof. destruct z as [a b]. unfold cmul, of_double. cbn. f_equal; lra. Qed.

Lemma cd_add_0_l (z : cdouble) : cd_add (cd_of_double 0) z = z.
Proof. destruct z; cbn; [rewrite cadd_0_l|..]; reflexivity. Qed.

Lemma complex_nonzero (z : complex) :
  z <> of_double 0 -> (re z * re z + im z * im z)%R <> 0%R.
Proof.
  destruct z as [a b]. cbn. intros Hz Hsum. apply Hz.
  assert (Ha : a = 0%R) by nra. assert (Hb : b = 0%R) by nra.
  subst. reflexivity.
Qed.

Lemma cd_div_num (x y : complex) :
  y <> of_double 0 -> cd_div (Num x) (Num y) = Num (cdiv x y).
Proof.
  intros Hy. unfold cd_div.
  destruct (complex_eq_dec y (of_double 0)); [contradiction | reflexivity].
Qed.

(** [(1 * g * z) / (1 * z) = g] for a complex number [z] other than
    zero. *)
Lemma cdiv_cancel (g : R) (z : complex) :
  z <> of_double 0 ->
  cdiv (cmul (scale_r (of_double 1) g) z) (cmul (of_double 1) z) = of_double g.
Proof.
  intros Hz. pose proof (complex_nonzero z Hz) as Hd.
  rewrite cmul_1_l. destruct z as [a b].
  unfold cdiv, cmul, scale_r, of_double. cbn [re im] in *.
  f_equal; field; exact Hd.
Qed.

Lemma cd_div_cancel (g : R) (z : complex) :
  z <> of_double 0 ->
  cd_div (cd_mul (Num (scale_r (of_double 1) g)) (Num z))
         (cd_mul (Num (of_double 1)) (Num z))
  = cd_of_double g.
Proof.
  intros Hz. cbn [cd_mul]. rewrite cd_div_num by (rewrite cmul_1_l; exact Hz).
  unfold cd_of_double. f_equal. apply cdiv_cancel. exact Hz.
Qed.

Lemma zip_with_zeros (l : VectorXcd) :
  zip_with cd_add (replicate (length l) (cd_of_double 0)) l = l.
Proof.
  induction l as [|z l IH]; [reflexivity|].
  cbn [length replicate zip_with]. rewrite cd_add_0_l, IH. reflexivity.
Qed.

Lemma rotated_sites_all_Z (basis : list string) (n : nat) :
  Forall (fun label => label = "Z"%string) basis -> rotated_sites basis n = [].
Proof.
  intros HZ. induction n as [|n IH]; [reflexivity|].
  rewrite rotated_sites_S, IH. unfold rotated.
  destruct (basis !! n) as [label|] eqn:Hl; [|reflexivity].
  rewrite (Forall_lookup_1 _ _ _ _ HZ Hl). reflexivity.
Qed.

Section Plain.

Context {rbm : RbmModel} {rng : RandomEngine}.

Variables (w : Wavefunction) (basis : list string) (state : VectorXd)
          (table : gmap string MatrixXcd).
Hypothesis basis_length : Z.of_nat (length basis) = N_ w.
Hypothesis all_Z : Forall (fun label => label = "Z"%string) basis.
Hypothesis Grad_length : Z.of_nat (length (gradient w state)) = npar_ w.

(** The quotient of the single term [1*Grad(state)*psi(state)] by the
    single term [1*psi(state)], coefficient by coefficient. *)
Definition single_term : VectorXcd :=
  map (fun gk => cd_div (cd_mul (Num (scale_r (of_double 1) gk)) (psi w state))
                        (cd_mul (Num (of_double 1)) (psi w state)))
      (gradient w state).

(** With labels "Z" alone the main loop has the one iteration of index 0,
    on [v = state] with [U = 1]. *)
Lemma rotatedGrad_single :
  rotatedGrad w basis state table = (table, Returned single_term).
Proof.
  pose proof (rotated_sites_all_Z basis (length basis) all_Z) as Hnil.
  assert (Hnpar : 0 <= npar_ w) by lia.
  rewrite (rotatedGrad_accumulate w basis state table basis_length Hnpar
             (fun _ => state) (fun _ => of_double 1)).
  - rewrite Hnil. cbn [length]. change (2 ^ Z.of_nat 0) with (0 + 1).
    unfold quotient. rewrite numerator_step, denominator_step by lia.
    unfold numerator, denominator. rewrite seqZ_nil by lia. cbn [fold_left].
    unfold numerator_term, denominator_term.
    replace (Z.to_nat (npar_ w))
      with (length (map (fun gk => cd_mul (Num (scale_r (of_double 1) gk))
                                          (psi w state))
                        (gradient w state)))
      by (rewrite length_map; lia).
    rewrite zip_with_zeros, cd_add_0_l, map_map. reflexivity.
  - rewrite Hnil. cbn. lia.
  - intros i Hi. exists 0. rewrite Hnil in Hi. cbn in Hi.
    replace i with 0 by lia. apply rotatedGrad_fill_plain; assumption.
  - intros i Hi. rewrite Hnil. apply for_loop_empty. cbn. lia.
  - intros i Hi. exact Grad_length.
Qed.

Lemma single_term_number (z : complex) :
  psi w state = Num z -> z <> of_double 0 ->
  single_term = cd_of_double <$> gradient w state.
Proof using Type.
  intros Hpsi Hz. unfold single_term. rewrite Hpsi.
  apply map_ext. intros gk. apply cd_div_cancel. exact Hz.
Qed.

Lemma single_term_NaN :
  psi w state = cNaN ->
  single_term = replicate (Z.to_nat (npar_ w)) cNaN.
Proof using Grad_length.
  intros Hpsi. unfold single_term. rewrite Hpsi. cbn [cd_mul cd_div].
  rewrite <- Grad_length, Nat2Z.id. apply map_const.
Qed.

Lemma single_term_zero :
  psi w state = cd_of_double 0 ->
  single_term = replicate (Z.to_nat (npar_ w)) cNaN.
Proof using Grad_length.
  intros Hpsi. unfold single_term. rewrite Hpsi. unfold cd_of_double.
  cbn [cd_mul]. rewrite <- Grad_length, Nat2Z.id.
  rewrite <- (map_const cNaN (gradient w state)).
  apply map_ext. intros gk. rewrite !cmul_0_r. apply zero_by_zero.
Qed.

End Plain.

Section PlainResult.

Context {rbm : RbmModel} {rng : RandomEngine}.

(** C5, amended. With a basis descriptor of N labels that are all "Z"
    there is no rotated site, and the main loop has one iteration
    ([1<<0] is 1) with [U = 1] and [v = state]: every coefficient of
    [gradR] is the quotient of [1*Grad(state)*psi(state)] by
    [1*psi(state)].  When [psi(state)] is a number other than zero this
    is [Grad(state)].  When [psi(state)] is NaN, which also is "other
    than zero", every coefficient of [gradR] is NaN, not [Grad(state)]. *)
Theorem rotatedGrad_all_Z (w : Wavefunction) (basis : list string)
    (state : VectorXd) (table : gmap string MatrixXcd) :
  Z.of_nat (length basis) = N_ w ->
  Forall (fun label => label = "Z"%string) basis ->
  Z.of_nat (length (gradient w state)) = npar_ w ->
  rotated_sites basis (length basis) = []
  /\ shl_one 0 table = (table, Returned 1)
  /\ rotatedGrad_fill w basis (bitset16_of_int 0) state table
     = (table, Returned (state, 0))
  /\ rotatedGrad_U basis state state [] 0 table
     = (table, Returned (of_double 1))
  /\ Grad w state table = (table, Returned (gradient w state))
  /\ rotatedGrad w basis state table
     = (table,
        Returned
          (map (fun gk =>
                  cd_div (cd_mul (Num (scale_r (of_double 1) gk)) (psi w state))
                         (cd_mul (Num (of_double 1)) (psi w state)))
               (gradient w state)))
  /\ (forall z : complex, psi w state = Num z -> z <> of_double 0 ->
        rotatedGrad w basis state table
        = (table, Returned (cd_of_double <$> gradient w state)))
  /\ (psi w state = cNaN ->
        rotatedGrad w basis state table
        = (table, Returned (replicate (Z.to_nat (npar_ w)) cNaN))).
Proof.
  intros Hbasis HZ Hgrad.
  pose proof (rotated_sites_all_Z basis (length basis) HZ) as Hnil.
  assert (Hnpar : 0 <= npar_ w) by lia.
  pose proof (rotatedGrad_single w basis state table Hbasis HZ Hgrad) as Hrun.
  split; [exact Hnil|]. split; [reflexivity|].
  split; [apply rotatedGrad_fill_plain; assumption|].
  split; [apply for_loop_empty; lia|].
  split; [apply Grad_run; exact Hgrad|].
  split; [exact Hrun|]. split.
  - intros z Hpsi Hz. rewrite Hrun.
    rewrite (single_term_number w state z Hpsi Hz). reflexivity.
  - intros Hpsi. rewrite Hrun.
    rewrite (single_term_NaN w state Hgrad Hpsi). reflexivity.
Qed.

End PlainResult.

(** ** The theorems at concrete inputs *)

Lemma psi_zero `{rbm : RbmModel} `{rng : RandomEngine}
    (w : Wavefunction) (v : VectorXd) :
  Rbm_prob (rbmAm_ w) v = 0%R -> (0 < Rbm_prob (rbmPh_ w) v)%R ->
  psi w v = cd_of_double 0.
Proof.
  intros HA HP. rewrite psi_polar by (rewrite ?HA; lra).
  rewrite HA, sqrt_0. unfold cd_of_double, of_double. do 2 f_equal; lra.
Qed.

Lemma denominator_vanishes `{rbm : RbmModel} `{rng : RandomEngine}
    (w : Wavefunction) (V : Z -> VectorXd) (A : Z -> complex) (count : Z) :
  (forall v, psi w v = cd_of_double 0) ->
  denominator w V A count = cd_of_double 0.
Proof.
  intros Hpsi. unfold denominator. induction (seqZ 0 count) as [|i l IH].
  - reflexivity.
  - cbn [fold_left]. unfold denominator_term at 2.
    rewrite Hpsi, cd_add_0_l. unfold cd_of_double at 1. cbn [cd_mul].
    rewrite cmul_0_r. exact IH.
Qed.

Lemma sqrt_4 : sqrt 4 = 2%R.
Proof. replace 4%R with (2 * 2)%R by lra. apply sqrt_square. lra. Qed.

Lemma psi_toy_one (n : Z) (v : VectorXd) :
  psi (Toy.wavefunction n 1) v = cd_of_double 1.
Proof.
  rewrite psi_polar by (cbn; lra). cbn [Toy.wavefunction Wavefunction_new
    rbmAm_ rbmPh_ Rbm_prob Rbm_new Toy.rbm Toy.weight].
  rewrite sqrt_1, ln_1. replace (0 / 2)%R with 0%R by lra.
  rewrite cos_0, sin_0. unfold cd_of_double, of_double. do 2 f_equal; lra.
Qed.

(** The amplitude model gives probability 0, the phase model 1: [psi] is
    zero everywhere. *)
Lemma psi_toy_zero (n : Z) (v : VectorXd) :
  psi (Toy.wavefunction2 n 0 1) v = cd_of_double 0.
Proof. apply psi_zero; cbn; [reflexivity | lra]. Qed.

(** The amplitude model gives probability 4, the phase model 0: [psi] is
    NaN everywhere. *)
Lemma psi_toy_NaN (n : Z) (v : VectorXd) :
  psi (Toy.wavefunction2 n 4 0) v = cNaN.
Proof. apply psi_phase_not_positive. cbn. lra. Qed.

Lemma X_table_covers_X (site : nat) (basis : list string) :
  basis !! site = Some "X"%string -> covered basis Toy.X_table [site].
Proof.
  intros Hl. apply Forall_cons_2; [|apply Forall_nil_2].
  intros label Hlabel. rewrite Hl in Hlabel. inversion Hlabel; subst label.
  exists Toy.hadamard. split; [apply lookup_singleton_eq|]. cbn. lia.
Qed.

Lemma ln1pexp_rule_witness :
  ln1pexp 31 = 31%R
  /\ ln1pexp 0 = log1p (exp 0)
  /\ exists y', ln1pexp_vec [31%R; 0%R] [0%R; 0%R; 7%R] = (y', Returned tt)
       /\ y' !! 0%nat = Some 31%R /\ y' !! 2%nat = Some 7%R.
Proof.
  destruct ln1pexp_rule as (Hlarge & Hsmall & H31 & Hvec).
  split; [apply Hlarge; lra|]. split; [apply Hsmall; lra|].
  destruct (Hvec [31%R; 0%R] [0%R; 0%R; 7%R]) as (y' & Hrun & _ & Hin & Hout).
  - cbn. lia.
  - exists y'. split; [exact Hrun|]. split.
    + rewrite (Hin 0%nat 31%R) by reflexivity. rewrite H31. reflexivity.
    + rewrite (Hout 2%nat) by (cbn; lia). reflexivity.
Defined.

Lemma InitRandomPars_forwards_witness :
  Rbm_GetParameters (rbmAm_ (InitRandomPars 7 0.5 (Toy.wavefunction 3 1)))
  = Rbm_GetParameters (rbmPh_ (InitRandomPars 7 0.5 (Toy.wavefunction 3 1))).
Proof.
  destruct (@InitRandomPars_forwards Toy.rbm Toy.engine 7 0.5%R
              (Toy.wavefunction 3 1)) as (_ & _ & _ & _ & _ & Hsame).
  apply (Hsame nat (fun r => length (Toy.pars r))).
  - intros r1 r2 Hshape. cbn. unfold Toy.init. cbn. rewrite Hshape. reflexivity.
  - reflexivity.
Defined.

Lemma psi_modulus_witness :
  std_abs (psi (Toy.wavefunction 2 4) [0%R; 1%R])
  = amplitude (Toy.wavefunction 2 4) [0%R; 1%R].
Proof.
  destruct (@psi_modulus Toy.rbm Toy.engine (Toy.wavefunction 2 4) [0%R; 1%R])
    as (_ & _ & Hmod & _).
  destruct Hmod as (a & p & _ & _ & _ & _ & _ & Habs); [cbn; lra | cbn; lra |].
  exact Habs.
Defined.

(** C6 as stated fails where the amplitude model gives probability 4 and
    the phase model probability 0: [amplitude] is 2, [phase] is minus
    infinity, and [psi] and its modulus are NaN. *)
Lemma psi_modulus_counterexample :
  (0 <= Rbm_prob (rbmAm_ (Toy.wavefunction2 2 4 0)) [0%R; 1%R])%R
  /\ amplitude (Toy.wavefunction2 2 4 0) [0%R; 1%R] = Fin 2
  /\ phase (Toy.wavefunction2 2 4 0) [0%R; 1%R] = MinusInfinity
  /\ psi (Toy.wavefunction2 2 4 0) [0%R; 1%R] = cNaN
  /\ std_abs (psi (Toy.wavefunction2 2 4 0) [0%R; 1%R]) = NaN
  /\ std_abs (psi (Toy.wavefunction2 2 4 0) [0%R; 1%R])
     <> amplitude (Toy.wavefunction2 2 4 0) [0%R; 1%R].
Proof.
  assert (Ha : amplitude (Toy.wavefunction2 2 4 0) [0%R; 1%R] = Fin 2).
  { unfold amplitude. cbn [Toy.wavefunction2 with_models rbmAm_ Rbm_prob
      Toy.rbm Toy.weight].
    rewrite std_sqrt_nonneg by lra. rewrite sqrt_4. reflexivity. }
  split; [cbn; lra|]. split; [exact Ha|].
  split; [apply std_log_zero|].
  rewrite psi_toy_NaN, Ha. split; [reflexivity|]. split; [reflexivity|].
  discriminate.
Qed.

Lemma SampleLayer_bernoulli_witness :
  exists hv',
    snd (SampleLayer (Toy.wavefunction 2 1) Toy.target Toy.quarter) = Returned hv'
    /\ coeff hv' 0 0 = 0%R /\ coeff hv' 0 1 = 1%R.
Proof.
  destruct (@SampleLayer_bernoulli Toy.rbm Toy.engine (Toy.wavefunction 2 1)
              Toy.target Toy.quarter)
    as (hv' & Hrun & _ & _ & Hcells); [cbn; lia | cbn; lia | reflexivity | reflexivity |].
  exists hv'. split; [rewrite Hrun; reflexivity|]. split.
  - destruct (Hcells 0 0) as (_ & Hc & _); [cbn; lia | cbn; lia |].
    rewrite Hc. clear Hc.
    change (nth_draw _ _) with (1 / 2)%R. change (coeff _ 0 0) with (1 / 4)%R.
    destruct (Rlt_dec (1 / 2) (1 / 4)); [lra | reflexivity].
  - destruct (Hcells 0 1) as (_ & Hc & _); [cbn; lia | cbn; lia |].
    rewrite Hc. clear Hc.
    change (nth_draw _ _) with 0%R. change (coeff _ 0 1) with (1 / 4)%R.
    destruct (Rlt_dec 0 (1 / 4)); [reflexivity | lra].
Defined.

Lemma SetParameters_halves_witness :
  exists w',
    SetParameters (Toy.wavefunction 2 1) [5%R; 6%R] tt = (tt, Returned w')
    /\ rbmAm_ w' = Toy.Model 2 [5%R] 1 /\ rbmPh_ w' = Toy.Model 2 [6%R] 1.
Proof.
  destruct (@SetParameters_halves Toy.rbm Toy.engine unit
              (Toy.wavefunction 2 1) tt) as [Hsplit _].
  - cbn. lia.
  - reflexivity.
  - reflexivity.
  - intros r. reflexivity.
  - intros r v. reflexivity.
  - intros r v. reflexivity.
  - destruct (Hsplit [5%R; 6%R]) as (w' & Hrun & HAm & HPh & _);
      [reflexivity|].
    exists w'. split; [exact Hrun|]. split; [exact HAm | exact HPh].
Defined.

Lemma toy_Grad_length (n : Z) (p : R) (v : VectorXd) :
  Z.of_nat (length (gradient (Toy.wavefunction n p) v))
  = npar_ (Toy.wavefunction n p).
Proof. reflexivity. Qed.

Lemma binary_zero : binary 0.
Proof. left. reflexivity. Qed.

Lemma binary_one : binary 1.
Proof. right. reflexivity. Qed.

Ltac binary_vector :=
  repeat (apply Forall_cons_2; [first [apply binary_zero | apply binary_one]|]);
  apply Forall_nil_2.

Lemma covered_replicate (label : string) (m : MatrixXcd) (n : nat)
    (sites : list nat) :
  2 <= rows m -> 2 <= cols m ->
  covered (replicate n label) {[ label := m ]} sites.
Proof.
  intros Hr Hc. apply List.Forall_forall. intros site _ l Hl.
  apply lookup_replicate in Hl. destruct Hl as [-> _].
  exists m. split; [apply lookup_singleton_eq | split; assumption].
Qed.

Lemma rotatedGrad_enumerates_witness :
  rotatedGrad (Toy.wavefunction 2 1) ["Z"; "X"]%string [0%R; 0%R] Toy.X_table
  = (Toy.X_table,
     Returned (estimator (Toy.wavefunction 2 1) Toy.X_table
                 ["Z"; "X"]%string [0%R; 0%R])).
Proof.
  destruct (@rotatedGrad_enumerates Toy.rbm Toy.engine (Toy.wavefunction 2 1)
              ["Z"; "X"]%string [0%R; 0%R] Toy.X_table) as [Hrun _].
  - reflexivity.
  - reflexivity.
  - binary_vector.
  - intros v. reflexivity.
  - cbn. lia.
  - apply (X_table_covers_X 1). reflexivity.
  - exact Hrun.
Defined.

(** C1 as stated fails on a basis descriptor with 17 labels "X": the
    table covers "X", and the call has no result. *)
Lemma rotatedGrad_enumerates_counterexample :
  Z.of_nat (length Toy.basis17) = N_ (Toy.wavefunction 17 1)
  /\ Z.of_nat (length Toy.state17) = N_ (Toy.wavefunction 17 1)
  /\ Forall binary Toy.state17
  /\ covered Toy.basis17 Toy.X_table (rotated_sites Toy.basis17 17)
  /\ rotatedGrad (Toy.wavefunction 17 1) Toy.basis17 Toy.state17 Toy.X_table
     = (Toy.X_table, Undefined BitsetIndex)
  /\ rotatedGrad (Toy.wavefunction 17 1) Toy.basis17 Toy.state17 Toy.X_table
     <> (Toy.X_table,
         Returned (estimator (Toy.wavefunction 17 1) Toy.X_table
                     Toy.basis17 Toy.state17)).
Proof.
  assert (Hrun :
    rotatedGrad (Toy.wavefunction 17 1) Toy.basis17 Toy.state17 Toy.X_table
    = (Toy.X_table, Undefined BitsetIndex)).
  { apply rotatedGrad_over_capacity; [reflexivity | reflexivity | cbn; lia |].
    cbn. lia. }
  split; [reflexivity|]. split; [reflexivity|].
  split; [apply Forall_replicate, binary_zero|].
  split; [apply covered_replicate; cbn; lia|].
  split; [exact Hrun|].
  rewrite Hrun. intros Heq. inversion Heq.
Qed.

Lemma rotatedGrad_zero_denominator_witness :
  exists gradR : VectorXcd,
    rotatedGrad (Toy.wavefunction2 1 0 1) ["X"%string] [1%R] Toy.X_table
    = (Toy.X_table, Returned gradR)
    /\ Forall (fun z => z = cNaN \/ z = cInf) gradR.
Proof.
  destruct (@rotatedGrad_zero_denominator Toy.rbm Toy.engine
              (Toy.wavefunction2 1 0 1) ["X"%string] [1%R] Toy.X_table)
    as (gradR & Hrun & _ & _ & Hnot).
  - reflexivity.
  - reflexivity.
  - binary_vector.
  - intros v. reflexivity.
  - cbn. lia.
  - apply (X_table_covers_X 0). reflexivity.
  - apply denominator_vanishes. intros v. apply psi_toy_zero.
  - exists gradR. split; assumption.
Defined.

(** C2 as stated fails where the amplitude model gives probability 0 and
    the phase model probability 1: [psi] is zero, the denominator is
    zero, and the call returns normally with NaN, zero divided by zero,
    in both coefficients of [gradR]. *)
Lemma rotatedGrad_zero_denominator_counterexample :
  psi (Toy.wavefunction2 1 0 1) [0%R] = cd_of_double 0
  /\ estimator_denominator (Toy.wavefunction2 1 0 1) Toy.no_table
       ["Z"%string] [0%R]
     = cd_of_double 0
  /\ rotatedGrad (Toy.wavefunction2 1 0 1) ["Z"%string] [0%R] Toy.no_table
     = (Toy.no_table, Returned [cNaN; cNaN])
  /\ forall what,
       snd (rotatedGrad (Toy.wavefunction2 1 0 1) ["Z"%string] [0%R]
              Toy.no_table)
       <> Thrown what.
Proof.
  assert (Hrun :
    rotatedGrad (Toy.wavefunction2 1 0 1) ["Z"%string] [0%R] Toy.no_table
    = (Toy.no_table, Returned [cNaN; cNaN])).
  { rewrite rotatedGrad_single; [| reflexivity | repeat constructor | reflexivity].
    rewrite single_term_zero; [reflexivity | reflexivity | apply psi_toy_zero]. }
  split; [apply psi_toy_zero|]. split; [|split].
  - apply denominator_vanishes. intros v. apply psi_toy_zero.
  - exact Hrun.
  - intros what. rewrite Hrun. discriminate.
Qed.

Lemma rotatedGrad_missing_label_witness :
  rotatedGrad (Toy.wavefunction 2 1) ["X"; "Y"]%string [0%R; 1%R] Toy.X_table
  = (<["Y"%string := MatrixXcd_default]> Toy.X_table, Undefined MatrixIndex).
Proof.
  destruct (@rotatedGrad_missing_label Toy.rbm Toy.engine (Toy.wavefunction 2 1)
              ["X"; "Y"]%string [0%R; 1%R] Toy.X_table) with
    (k := 1%nat) (site := 1%nat) (label := "Y"%string) as [Hrun _].
  - reflexivity.
  - reflexivity.
  - binary_vector.
  - cbn. lia.
  - cbn. lia.
  - reflexivity.
  - apply (X_table_covers_X 0). reflexivity.
  - reflexivity.
  - apply lookup_singleton_ne. discriminate.
  - exact Hrun.
Defined.

(** C3 as stated fails on an empty table with one site labelled "X":
    nothing is reported, and the caller's table has gained a
    default-constructed entry for "X". *)
Lemma rotatedGrad_missing_label_counterexample :
  Toy.no_table !! "X"%string = None
  /\ rotatedGrad (Toy.wavefunction 1 1) ["X"%string] [0%R] Toy.no_table
     = (<["X"%string := MatrixXcd_default]> Toy.no_table, Undefined MatrixIndex)
  /\ fst (rotatedGrad (Toy.wavefunction 1 1) ["X"%string] [0%R] Toy.no_table)
       !! "X"%string = Some MatrixXcd_default.
Proof.
  assert (Hrun :
    rotatedGrad (Toy.wavefunction 1 1) ["X"%string] [0%R] Toy.no_table
    = (<["X"%string := MatrixXcd_default]> Toy.no_table, Undefined MatrixIndex)).
  { apply rotatedGrad_missing_entry with (k := 0%nat) (site := 0%nat).
    - reflexivity.
    - reflexivity.
    - binary_vector.
    - cbn. lia.
    - cbn. lia.
    - reflexivity.
    - apply Forall_nil_2.
    - reflexivity.
    - apply lookup_empty. }
  split; [apply lookup_empty|]. split; [exact Hrun|].
  rewrite Hrun. apply lookup_insert_eq.
Qed.

Lemma rotatedGrad_beyond_capacity_witness :
  rotatedGrad (Toy.wavefunction 17 1) Toy.basis17 Toy.state17 Toy.X_table
  = (Toy.X_table, Undefined BitsetIndex)
  /\ rotatedGrad (Toy.wavefunction 31 1) Toy.basis31 Toy.state31 Toy.X_table
     = (Toy.X_table, Returned [cNaN; cNaN])
  /\ rotatedGrad (Toy.wavefunction 32 1) Toy.basis32 Toy.state32 Toy.X_table
     = (Toy.X_table, Undefined ShiftOverflow).
Proof.
  split; [|split].
  - apply (@rotatedGrad_beyond_capacity Toy.rbm Toy.engine
             (Toy.wavefunction 17 1) Toy.basis17 Toy.state17 Toy.X_table).
    + reflexivity.
    + reflexivity.
    + cbn. lia.
    + cbn. lia.
  - apply (@rotatedGrad_beyond_capacity Toy.rbm Toy.engine
             (Toy.wavefunction 31 1) Toy.basis31 Toy.state31 Toy.X_table).
    + reflexivity.
    + reflexivity.
    + cbn. lia.
    + cbn. lia.
  - apply (@rotatedGrad_beyond_capacity Toy.rbm Toy.engine
             (Toy.wavefunction 32 1) Toy.basis32 Toy.state32 Toy.X_table).
    + reflexivity.
    + reflexivity.
    + cbn. lia.
    + cbn. lia.
Defined.

(** C4 as stated fails on 20 sites of which 18 are rotated: nothing is
    reported before the enumeration, which is entered and runs into the
    end of the 16-bit pattern. *)
Lemma rotatedGrad_beyond_capacity_counterexample :
  (16 < length (rotated_sites Toy.basis20 (length Toy.basis20)))%nat
  /\ rotatedGrad (Toy.wavefunction 20 1) Toy.basis20 Toy.state20 Toy.Y_table
     = (Toy.Y_table, Undefined BitsetIndex)
  /\ rotatedGrad_sites (Toy.wavefunction 20 1) Toy.basis20 Toy.Y_table
     = (Toy.Y_table,
        Returned (18, Z.of_nat <$> rotated_sites Toy.basis20 20))
  /\ forall what,
       snd (rotatedGrad (Toy.wavefunction 20 1) Toy.basis20 Toy.state20
              Toy.Y_table)
       <> Thrown what.
Proof.
  assert (Hrun :
    rotatedGrad (Toy.wavefunction 20 1) Toy.basis20 Toy.state20 Toy.Y_table
    = (Toy.Y_table, Undefined BitsetIndex)).
  { apply rotatedGrad_over_capacity; [reflexivity | reflexivity | cbn; lia |].
    cbn. lia. }
  split; [cbn; lia|]. split; [exact Hrun|]. split.
  - rewrite rotatedGrad_sites_run by reflexivity. reflexivity.
  - intros what. rewrite Hrun. discriminate.
Qed.

Lemma rotatedGrad_all_Z_witness :
  rotatedGrad (Toy.wavefunction 3 1) ["Z"; "Z"; "Z"]%string
    [1%R; 0%R; 1%R] Toy.no_table
  = (Toy.no_table, Returned [cd_of_double 2; cd_of_double 2]).
Proof.
  destruct (@rotatedGrad_all_Z Toy.rbm Toy.engine (Toy.wavefunction 3 1)
              ["Z"; "Z"; "Z"]%string [1%R; 0%R; 1%R] Toy.no_table)
    as (_ & _ & _ & _ & _ & _ & Hrun & _).
  - reflexivity.
  - repeat constructor.
  - reflexivity.
  - apply (Hrun (of_double 1)).
    + apply psi_toy_one.
    + intros Heq. inversion Heq. lra.
Defined.

(** C5 as stated fails where the amplitude model gives probability 4 and
    the phase model probability 0: [psi(state)] is NaN, which is other
    than zero, and every coefficient of [gradR] is NaN, while
    [Grad(state)] is (2, 2). *)
Lemma rotatedGrad_all_Z_counterexample :
  psi (Toy.wavefunction2 3 4 0) [1%R; 0%R; 1%R] = cNaN
  /\ psi (Toy.wavefunction2 3 4 0) [1%R; 0%R; 1%R] <> cd_of_double 0
  /\ gradient (Toy.wavefunction2 3 4 0) [1%R; 0%R; 1%R] = [2%R; 2%R]
  /\ rotatedGrad (Toy.wavefunction2 3 4 0) ["Z"; "Z"; "Z"]%string
       [1%R; 0%R; 1%R] Toy.no_table
     = (Toy.no_table, Returned [cNaN; cNaN])
  /\ rotatedGrad (Toy.wavefunction2 3 4 0) ["Z"; "Z"; "Z"]%string
       [1%R; 0%R; 1%R] Toy.no_table
     <> (Toy.no_table,
         Returned (cd_of_double
                     <$> gradient (Toy.wavefunction2 3 4 0) [1%R; 0%R; 1%R])).
Proof.
  assert (Hrun :
    rotatedGrad (Toy.wavefunction2 3 4 0) ["Z"; "Z"; "Z"]%string
      [1%R; 0%R; 1%R] Toy.no_table
    = (Toy.no_table, Returned [cNaN; cNaN])).
  { rewrite rotatedGrad_single; [| reflexivity | repeat constructor | reflexivity].
    rewrite single_term_NaN; [reflexivity | reflexivity | apply psi_toy_NaN]. }
  split; [apply psi_toy_NaN|].
  split; [rewrite psi_toy_NaN; discriminate|].
  split; [reflexivity|]. split; [exact Hrun|].
  rewrite Hrun. intros Heq. inversion Heq.
Qed.

(** The scenario of two sites with basis ["Z";"X"], the matrix with all
    entries 1/sqrt 2 and the outcome (0,0): one rotated site, the two
    completions (0,0) and (0,1), and a gradient equal to [Grad]. *)
Example rotatedGrad_two_sites :
  rotated_sites ["Z"; "X"]%string 2 = [1%nat]
  /\ completion ["Z"; "X"]%string [0%R; 0%R] 0 = [0%R; 0%R]
  /\ completion ["Z"; "X"]%string [0%R; 0%R] 1 = [0%R; 1%R]
  /\ rotatedGrad (Toy.wavefunction 2 1) ["Z"; "X"]%string [0%R; 0%R] Toy.X_table
     = (Toy.X_table, Returned [cd_of_double 2; cd_of_double 2]).
Proof.
  split; [reflexivity|]. split; [reflexivity|]. split; [reflexivity|].
  rewrite rotatedGrad_run;
    [| reflexivity | reflexivity | binary_vector | intros v; reflexivity
     | cbn; lia | apply (X_table_covers_X 1); reflexivity].
  do 2 f_equal. unfold estimator.
  change (rotated_sites ["Z"; "X"]%string (length [0%R; 0%R])) with [1%nat].
  change (2 ^ Z.of_nat (length [1%nat])) with (0 + 1 + 1).
  unfold quotient.
  rewrite !numerator_step, !denominator_step by lia.
  unfold numerator, denominator. rewrite seqZ_nil by lia. cbn [fold_left].
  unfold numerator_term, denominator_term. rewrite !psi_toy_one.
  unfold rotation_amplitude, unitary_element. cbn [fold_left].
  change (["Z"; "X"]%string !! 1%nat) with (Some "X"%string).
  change (completion ["Z"; "X"]%string [0%R; 0%R] 0) with [0%R; 0%R].
  change (completion ["Z"; "X"]%string [0%R; 0%R] (0 + 1)) with [0%R; 1%R].
  cbn [lookup list_lookup].
  unfold Toy.X_table. rewrite lookup_singleton_eq.
  change (coeff Toy.hadamard _ _) with (Cplx (/ sqrt 2) 0).
  change (gradient (Toy.wavefunction 2 1) [0%R; 0%R]) with [2%R; 2%R].
  change (gradient (Toy.wavefunction 2 1) [0%R; 1%R]) with [2%R; 2%R].
  change (Z.to_nat (npar_ (Toy.wavefunction 2 1))) with 2%nat.
  unfold cd_of_double. cbn [map zip_with replicate cd_add cd_mul].
  assert (Hs : (0 < / sqrt 2)%R) by (apply Rinv_0_lt_compat, sqrt_lt_R0; lra).
  rewrite !cd_div_num
    by (unfold cadd, cmul, of_double; cbn [re im]; intros H;
        injection H as H _; lra).
  assert (Hs2 : sqrt 2 <> 0%R) by (apply Rgt_not_eq, sqrt_lt_R0; lra).
  unfold cdiv, cadd, cmul, scale_r, of_double. cbn [re im].
  repeat f_equal; field; exact Hs2.
Qed.

(** * Further properties of the class *)

(** ** Loops that stop *)

Section LoopsThatStop.

Context {St S : Type}.
Implicit Types (body : Z -> S -> M St S) (s : S) (st : St).

(** A loop whose body, under an invariant, either returns and keeps the
    invariant or is undefined with [f] on an unchanged store, and whose
    body is undefined with [f] at some index of the range whatever the
    loop-carried variables are, is undefined with [f]. *)
Lemma for_loop_hits_undefined (Inv : S -> St -> Prop) (f : fault)
    body lo k hi s st :
  lo <= k < hi ->
  Inv s st ->
  (forall i s1 st1, lo <= i < hi -> Inv s1 st1 ->
     (exists s2 st2, body i s1 st1 = (st2, Returned s2) /\ Inv s2 st2)
     \/ (exists st2, body i s1 st1 = (st2, Undefined f) /\ Inv s1 st2)) ->
  (forall s1 st1, Inv s1 st1 ->
     exists st2, body k s1 st1 = (st2, Undefined f) /\ Inv s1 st2) ->
  exists s' st', for_loop lo hi body s st = (st', Undefined f) /\ Inv s' st'.
Proof.
  intros Hk Hinv Hbody Hat. unfold for_loop.
  remember (Z.to_nat (hi - lo)) as n eqn:Hn.
  revert lo s st Hk Hinv Hbody Hn.
  induction n as [|n IH]; intros lo s st Hk Hinv Hbody Hn; [lia|].
  cbn [iterate_from]. unfold bind.
  destruct (Z.eq_dec lo k) as [-> | Hne].
  - destruct (Hat s st Hinv) as (st2 & Hb & Hi). rewrite Hb. eauto.
  - destruct (Hbody lo s st ltac:(lia) Hinv)
      as [(s2 & st2 & Hb & Hi) | (st2 & Hb & Hi)]; rewrite Hb; [|eauto].
    apply IH; [lia | exact Hi | | lia].
    intros i s1 st1 Hrange. apply Hbody. lia.
Qed.

End LoopsThatStop.

(** ** Entry-wise loops into an output vector *)

Section Elementwise.

Variable f : R -> R.

Definition elementwise_body (x : VectorXd) (i : Z) (_ : unit) : M VectorXd unit :=
  xi <- vec_at x i ;;
  y <- get ;;
  y' <- vec_set y i (f xi) ;;
  put y'.

Lemma insert_fmap_take_drop (x y : VectorXd) (i : nat) (xi : R) :
  x !! i = Some xi -> (i < length y)%nat ->
  <[i := f xi]> ((f <$> take i x) ++ drop i y)
  = (f <$> take (Datatypes.S i) x) ++ drop (Datatypes.S i) y.
Proof.
  intros Hx Hy.
  assert (Hlen : length (f <$> take i x) = i).
  { rewrite length_fmap, length_take. apply lookup_lt_Some in Hx. lia. }
  destruct (lookup_lt_is_Some_2 y i Hy) as [yi Hyi].
  rewrite insert_app_r_alt by lia. rewrite Hlen, Nat.sub_diag.
  rewrite (drop_S y yi i Hyi). cbn.
  rewrite (take_S_r x i xi Hx), fmap_app, <- app_assoc. reflexivity.
Qed.

(** The first [k] iterations write [f (x(i))] into the first [k]
    positions of [y]. *)
Lemma elementwise_prefix (x y : VectorXd) (k : nat) :
  (k <= length x)%nat -> (k <= length y)%nat ->
  for_loop 0 (Z.of_nat k) (elementwise_body x) tt y
  = ((f <$> take k x) ++ drop k y, Returned tt).
Proof.
  intros Hkx Hky.
  destruct (for_loop_inv
    (fun (i : Z) (_ : unit) (yc : VectorXd) =>
       yc = (f <$> take (Z.to_nat i) x) ++ drop (Z.to_nat i) y)
    (elementwise_body x) 0 (Z.of_nat k) tt y) as ([] & y' & Hrun & Hy').
  - lia.
  - reflexivity.
  - intros i [] yc Hi ->.
    destruct (lookup_lt_is_Some_2 x (Z.to_nat i)) as [xi Hxi]; [lia|].
    exists tt. eexists. split.
    + unfold elementwise_body, bind, get, put.
      rewrite (vec_at_run x i xi) by (lia || exact Hxi).
      rewrite vec_set_run; [reflexivity|].
      rewrite length_app, length_fmap, length_take, length_drop. lia.
    + replace (Z.to_nat (i + 1)) with (Datatypes.S (Z.to_nat i)) by lia.
      apply insert_fmap_take_drop; [exact Hxi | lia].
  - rewrite Hrun, Hy', Nat2Z.id. reflexivity.
Qed.

Lemma elementwise_run (x y : VectorXd) :
  (length x <= length y)%nat ->
  for_loop 0 (Z.of_nat (length x)) (elementwise_body x) tt y
  = ((f <$> x) ++ drop (length x) y, Returned tt).
Proof.
  intros Hlen. rewrite elementwise_prefix by lia.
  rewrite firstn_all. reflexivity.
Qed.

(** With an output shorter than the input, every position of the output
    is written and the next assignment is out of range. *)
Lemma elementwise_short (x y : VectorXd) :
  (length y < length x)%nat ->
  for_loop 0 (Z.of_nat (length x)) (elementwise_body x) tt y
  = (f <$> take (length y) x, Undefined VectorIndex).
Proof.
  intros Hlen.
  destruct (lookup_lt_is_Some_2 x (length y) Hlen) as [xi Hxi].
  apply (for_loop_undefined _ 0 (Z.of_nat (length y)) _ _ y tt
           (f <$> take (length y) x)).
  - lia.
  - rewrite elementwise_prefix by lia.
    rewrite drop_all, app_nil_r. reflexivity.
  - unfold elementwise_body, bind, get.
    rewrite (vec_at_nat x _ xi) by exact Hxi.
    unfold vec_set. rewrite length_fmap, length_take.
    destruct (Z.ltb_spec (Z.of_nat (length y))
                (Z.of_nat (Nat.min (length y) (length x)))); [lia|].
    rewrite andb_false_r. reflexivity.
Qed.

End Elementwise.

(** ** logistic *)

(** The value that both overloads write for an entry [x]. *)
Definition logistic_value (x : R) : R := (1 / (1 + exp (- x)))%R.

(** X1. The overload of [logistic] on vectors, given an output [y] at
    least as long as [x], returns with [1/(1+exp(-x(i)))] in position [i]
    of [y] for every index of [x] and the rest of [y] as it was. *)
Theorem logistic_vec_run (x y : VectorXd) :
  (length x <= length y)%nat ->
  logistic_vec x y
  = ((logistic_value <$> x) ++ drop (length x) y, Returned tt).
Proof. intros Hlen. apply (elementwise_run logistic_value x y Hlen). Qed.

Lemma logistic_vec_run_witness :
  logistic_vec [0%R; 3%R] [5%R; 6%R; 7%R]
  = ([logistic_value 0; logistic_value 3; 7%R], Returned tt).
Proof. apply (logistic_vec_run [0%R; 3%R] [5%R; 6%R; 7%R]). cbn. lia. Defined.

(** X2. With an output [y] shorter than [x], the overload of [logistic]
    on vectors writes every position of [y] and then assigns outside it:
    undefined behaviour, nothing is reported. *)
Theorem logistic_vec_short (x y : VectorXd) :
  (length y < length x)%nat ->
  logistic_vec x y
  = (logistic_value <$> take (length y) x, Undefined VectorIndex).
Proof. intros Hlen. apply (elementwise_short logistic_value x y Hlen). Qed.

Lemma logistic_vec_short_witness :
  logistic_vec [0%R; 3%R] [5%R] = ([logistic_value 0], Undefined VectorIndex).
Proof. apply (logistic_vec_short [0%R; 3%R] [5%R]). cbn. lia. Defined.

Section LogisticMatrix.

Variables x y : MatrixXd.
Hypothesis rows_nonneg : 0 <= rows x.
Hypothesis cols_nonneg : 0 <= cols x.
Hypothesis rows_fit : rows x <= rows y.
Hypothesis cols_fit : cols x <= cols y.

(** The output once the first [n] cells of [x], counted row by row, have
    been visited. *)
Definition logistic_done (n : Z) (yc : MatrixXd) : Prop :=
  rows yc = rows y /\ cols yc = cols y
  /\ (forall i j, 0 <= i < rows x -> 0 <= j < cols x ->
        i * cols x + j < n -> coeff yc i j = logistic_value (coeff x i j))
  /\ (forall i j,
        ~ (0 <= i < rows x /\ 0 <= j < cols x /\ i * cols x + j < n) ->
        coeff yc i j = coeff y i j).

Lemma logistic_mat_cell (i j : Z) (yc : MatrixXd) :
  0 <= i < rows x -> 0 <= j < cols x ->
  logistic_done (i * cols x + j) yc ->
  exists yc',
    (xij <- mat_at x i j ;;
     y0 <- get ;;
     y' <- mat_set y0 i j (1 / (1 + exp (- xij)))%R ;;
     put y') yc
    = (yc', Returned tt)
    /\ logistic_done (i * cols x + (j + 1)) yc'.
Proof.
  intros Hi Hj (Hr & Hc & Hin & Hout).
  unfold bind, mat_at, mat_set, get, put, ret.
  rewrite !in_matrix_inside by lia.
  eexists. split; [reflexivity|].
  unfold logistic_done. cbn [rows cols coeff].
  split; [exact Hr|]. split; [exact Hc|]. split.
  - intros i' j' Hi' Hj' Hlt.
    destruct (Z.eqb_spec i' i) as [-> | Hne]; cbn [andb].
    + destruct (Z.eqb_spec j' j) as [-> | Hne]; [reflexivity|].
      apply Hin; lia.
    + apply Hin; [lia | lia |].
      assert (i' * cols x + j' <> i * cols x + j).
      { intros Heq. apply cell_index_inj in Heq; [|lia|lia]. lia. }
      lia.
  - intros i' j' Hnot.
    destruct (Z.eqb_spec i' i) as [-> | Hne]; cbn [andb].
    + destruct (Z.eqb_spec j' j) as [-> | Hne].
      * exfalso. apply Hnot. lia.
      * apply Hout. intros (H1 & H2 & H3). apply Hnot. lia.
    + apply Hout. intros (H1 & H2 & H3). apply Hnot. lia.
Qed.

Lemma logistic_mat_row (i : Z) (yc : MatrixXd) :
  0 <= i < rows x ->
  logistic_done (i * cols x) yc ->
  exists yc',
    for_loop 0 (cols x) (fun j (_ : unit) =>
      xij <- mat_at x i j ;;
      y0 <- get ;;
      y' <- mat_set y0 i j (1 / (1 + exp (- xij)))%R ;;
      put y') tt yc
    = (yc', Returned tt)
    /\ logistic_done ((i + 1) * cols x) yc'.
Proof.
  intros Hi Hinv.
  destruct (for_loop_inv (fun j (_ : unit) yc1 => logistic_done (i * cols x + j) yc1)
    (fun j (_ : unit) =>
      xij <- mat_at x i j ;;
      y0 <- get ;;
      y' <- mat_set y0 i j (1 / (1 + exp (- xij)))%R ;;
      put y') 0 (cols x) tt yc) as ([] & yc' & Hrun & Hfin).
  - exact cols_nonneg.
  - rewrite Z.add_0_r. exact Hinv.
  - intros j [] yc1 Hj Hcur.
    destruct (logistic_mat_cell i j yc1 Hi ltac:(lia) Hcur) as (yc2 & Hb & Hd).
    exists tt, yc2. split; assumption.
  - exists yc'. split; [exact Hrun|].
    replace ((i + 1) * cols x) with (i * cols x + cols x) by lia. exact Hfin.
Qed.

Lemma logistic_mat_all :
  exists y', logistic_mat x y = (y', Returned tt)
             /\ logistic_done (rows x * cols x) y'.
Proof.
  unfold logistic_mat.
  destruct (for_loop_inv (fun i (_ : unit) yc => logistic_done (i * cols x) yc)
    (fun i (_ : unit) => for_loop 0 (cols x) (fun j (_ : unit) =>
      xij <- mat_at x i j ;;
      y0 <- get ;;
      y' <- mat_set y0 i j (1 / (1 + exp (- xij)))%R ;;
      put y') tt) 0 (rows x) tt y) as ([] & y' & Hrun & Hfin).
  - exact rows_nonneg.
  - unfold logistic_done. cbn. split; [reflexivity|]. split; [reflexivity|].
    split; [intros; lia | intros; reflexivity].
  - intros i [] yc Hi Hcur.
    destruct (logistic_mat_row i yc Hi Hcur) as (yc' & Hb & Hd).
    exists tt, yc'. split; assumption.
  - exists y'. split; [exact Hrun | exact Hfin].
Qed.

End LogisticMatrix.

(** X4. The overload of [logistic] on matrices, given an output [y] with
    at least the rows and columns of [x], returns with the shape of [y]
    unchanged, [1/(1+exp(-x(i,j)))] in every position of [x], and every
    other position of [y] as it was. *)
Theorem logistic_mat_run (x y : MatrixXd) :
  0 <= rows x -> 0 <= cols x -> rows x <= rows y -> cols x <= cols y ->
  exists y',
    logistic_mat x y = (y', Returned tt)
    /\ rows y' = rows y /\ cols y' = cols y
    /\ (forall i j, 0 <= i < rows x -> 0 <= j < cols x ->
          coeff y' i j = logistic_value (coeff x i j))
    /\ (forall i j, in_matrix x i j = false -> coeff y' i j = coeff y i j).
Proof.
  intros Hr Hc Hrf Hcf.
  destruct (logistic_mat_all x y Hr Hc Hrf Hcf)
    as (y' & Hrun & Hr' & Hc' & Hin & Hout).
  exists y'. split; [exact Hrun|]. split; [exact Hr'|]. split; [exact Hc'|].
  split.
  - intros i j Hi Hj. apply Hin; [assumption | assumption | nia].
  - intros i j Hout'. apply Hout. intros (Hi & Hj & _).
    rewrite in_matrix_inside in Hout' by assumption. discriminate.
Qed.

Lemma logistic_mat_run_witness :
  exists y',
    logistic_mat (Mat 1 1 (fun _ _ => 0%R)) (Mat 1 2 (fun _ _ => 9%R))
    = (y', Returned tt)
    /\ coeff y' 0 0 = logistic_value 0 /\ coeff y' 0 1 = 9%R.
Proof.
  destruct (logistic_mat_run (Mat 1 1 (fun _ _ => 0%R)) (Mat 1 2 (fun _ _ => 9%R)))
    as (y' & Hrun & _ & _ & Hin & Hout); [cbn; lia | cbn; lia | cbn; lia | cbn; lia |].
  exists y'. split; [exact Hrun|]. split.
  - apply (Hin 0 0); cbn; lia.
  - apply (Hout 0 1). reflexivity.
Defined.

(** ** ln1pexp *)

Lemma log1p_exp_above (x : R) : (x < log1p (exp x))%R.
Proof.
  unfold log1p. pose proof (exp_pos x) as He.
  rewrite <- (ln_exp x) at 1. apply ln_increasing; lra.
Qed.

(** X6. [ln1pexp] does not grow across its threshold: the value at 30
    is [log1p(exp(30))], which is above 30, and every [y] between 30 and
    that value gets [ln1pexp(y) = y], which is below the value at 30. *)
Theorem ln1pexp_threshold :
  (30 < log1p (exp 30))%R
  /\ ln1pexp 30 = log1p (exp 30)
  /\ (forall y : R, (30 < y < log1p (exp 30))%R ->
        ln1pexp y = y /\ (ln1pexp y < ln1pexp 30)%R).
Proof.
  split; [apply log1p_exp_above|]. split; [apply ln1pexp_small; lra|].
  intros y Hy. rewrite (ln1pexp_large y) by lra.
  rewrite (ln1pexp_small 30) by lra. split; [reflexivity | lra].
Qed.

Lemma ln1pexp_threshold_witness :
  (ln1pexp ((30 + log1p (exp 30)) / 2) < ln1pexp 30)%R.
Proof.
  destruct ln1pexp_threshold as (Hgap & _ & Hjump).
  apply Hjump. lra.
Defined.

(** X7. With an output [y] shorter than [x], the overload of [ln1pexp] on
    vectors writes every position of [y] and then assigns outside it:
    undefined behaviour, nothing is reported. *)
Theorem ln1pexp_vec_short (x y : VectorXd) :
  (length y < length x)%nat ->
  ln1pexp_vec x y = (ln1pexp <$> take (length y) x, Undefined VectorIndex).
Proof. intros Hlen. apply (elementwise_short ln1pexp x y Hlen). Qed.

Lemma ln1pexp_vec_short_witness :
  ln1pexp_vec [31%R; 0%R] [] = ([], Undefined VectorIndex).
Proof. apply (ln1pexp_vec_short [31%R; 0%R] []). cbn. lia. Defined.

(** ** psi and the probability of the amplitude model *)

Section Born.

Context {rbm : RbmModel} {rng : RandomEngine}.

(** X8. Where the amplitude model's [prob(v)] is not negative and the
    phase model's [prob(v)] is positive, [psi(v)] is a number whose
    squared modulus is the amplitude model's [prob(v)], so that [psi(v)]
    is zero exactly where that [prob(v)] is.  Everywhere else, that is
    with a negative [prob(v)] of the amplitude model or a [prob(v)] of
    the phase model that is not positive, [psi(v)] is NaN. *)
Theorem psi_born (w : Wavefunction) (v : VectorXd) :
  ((0 <= Rbm_prob (rbmAm_ w) v)%R -> (0 < Rbm_prob (rbmPh_ w) v)%R ->
     exists z : complex,
       psi w v = Num z
       /\ (re z * re z + im z * im z)%R = Rbm_prob (rbmAm_ w) v
       /\ (z = of_double 0 <-> Rbm_prob (rbmAm_ w) v = 0%R))
  /\ ((Rbm_prob (rbmAm_ w) v < 0)%R \/ (Rbm_prob (rbmPh_ w) v <= 0)%R ->
      psi w v = cNaN).
Proof.
  split.
  - intros HA HP. eexists. split; [apply psi_polar; assumption|].
    cbn [re im].
    set (a := sqrt (Rbm_prob (rbmAm_ w) v)).
    set (th := (ln (Rbm_prob (rbmPh_ w) v) / 2)%R).
    assert (Hsq : (a * cos th * (a * cos th) + a * sin th * (a * sin th))%R
                  = Rbm_prob (rbmAm_ w) v).
    { replace (a * cos th * (a * cos th) + a * sin th * (a * sin th))%R
        with (a * a * ((sin th)² + (cos th)²))%R by (unfold Rsqr; lra).
      rewrite sin2_cos2, Rmult_1_r. unfold a. apply sqrt_sqrt. exact HA. }
    split; [exact Hsq|]. split.
    + intros Hz. injection Hz as Hre Him. rewrite Hre, Him in Hsq. lra.
    + intros H0. unfold a. rewrite H0, sqrt_0. unfold of_double.
      f_equal; lra.
  - intros [HA | HP];
      [apply psi_amplitude_negative | apply psi_phase_not_positive]; assumption.
Qed.

End Born.

Lemma psi_born_witness :
  (exists z : complex,
     psi (Toy.wavefunction 2 4) [0%R; 1%R] = Num z
     /\ (re z * re z + im z * im z)%R = 4%R)
  /\ psi (Toy.wavefunction2 2 (-1) 1) [0%R; 1%R] = cNaN.
Proof.
  destruct (@psi_born Toy.rbm Toy.engine (Toy.wavefunction 2 4) [0%R; 1%R])
    as [Hnum _].
  destruct (@psi_born Toy.rbm Toy.engine (Toy.wavefunction2 2 (-1) 1)
              [0%R; 1%R]) as [_ Hnan].
  split.
  - destruct Hnum as (z & Hz & Hsq & _); [cbn; lra | cbn; lra |].
    exists z. split; assumption.
  - apply Hnan. left. cbn. lra.
Defined.

(** ** SampleLayer beyond matching shapes and proper probabilities *)

Section LoopsThatMayStop.

Context {St S : Type}.
Implicit Types (body : Z -> S -> M St S) (s : S) (st : St).

(** A loop whose body, under an invariant, either returns and keeps the
    invariant or is undefined with [f], does one of the two itself. *)
Lemma for_loop_returns_or_undefined (Inv : S -> St -> Prop) (f : fault)
    body lo hi s st :
  Inv s st ->
  (forall i s1 st1, lo <= i < hi -> Inv s1 st1 ->
     (exists s2 st2, body i s1 st1 = (st2, Returned s2) /\ Inv s2 st2)
     \/ (exists st2, body i s1 st1 = (st2, Undefined f) /\ Inv s1 st2)) ->
  (exists s' st', for_loop lo hi body s st = (st', Returned s') /\ Inv s' st')
  \/ (exists s' st', for_loop lo hi body s st = (st', Undefined f) /\ Inv s' st').
Proof.
  intros Hinv Hbody. unfold for_loop.
  remember (Z.to_nat (hi - lo)) as n eqn:Hn.
  revert lo s st Hinv Hbody Hn.
  induction n as [|n IH]; intros lo s st Hinv Hbody Hn.
  - left. exists s, st. split; [reflexivity | exact Hinv].
  - cbn [iterate_from]. unfold bind.
    destruct (Hbody lo s st ltac:(lia) Hinv)
      as [(s2 & st2 & Hb & Hi) | (st2 & Hb & Hi)]; rewrite Hb.
    + apply IH; [exact Hi | | lia].
      intros i s1 st1 Hrange. apply Hbody. lia.
    + right. eauto.
Qed.

End LoopsThatMayStop.

Lemma advance_add `{rng : RandomEngine} (a b : nat) (g : mt19937) :
  advance (b + a) g = advance b (advance a g).
Proof.
  induction b as [|b IH]; [reflexivity|].
  cbn [Nat.add advance]. rewrite IH. reflexivity.
Qed.

Lemma nth_draw_advance `{rng : RandomEngine} (a k : nat) (g : mt19937) :
  nth_draw (advance a g) k = nth_draw g (k + a).
Proof. unfold nth_draw. rewrite advance_add. reflexivity. Qed.

Section SampleLayerMore.

Context {rbm : RbmModel} {rng : RandomEngine}.

(** X9. On matching shapes, [SampleLayer] writes 1 wherever the
    probability is at least 1 and 0 wherever it is at most 0, whatever
    the engine draws. *)
Theorem SampleLayer_extremes (w : Wavefunction) (hv probs : MatrixXd) :
  0 <= rows hv -> 0 <= cols hv ->
  rows probs = rows hv -> cols probs = cols hv ->
  exists w' hv',
    SampleLayer w hv probs = (w', Returned hv')
    /\ forall s i, 0 <= s < rows hv -> 0 <= i < cols hv ->
         ((1 <= coeff probs s i)%R -> coeff hv' s i = 1%R)
         /\ ((coeff probs s i <= 0)%R -> coeff hv' s i = 0%R).
Proof.
  intros Hr Hc Hsr Hsc.
  destruct (SampleLayer_on_run hv probs (rgen_ w) Hr Hc Hsr Hsc)
    as (hv' & Hrun & _ & _ & _ & Hcells).
  eexists _, hv'. unfold SampleLayer. rewrite Hrun. split; [reflexivity|].
  intros s i Hs Hi. rewrite (Hcells s i Hs Hi) by nia.
  pose proof (uniform_real_01_range
                (advance (Z.to_nat (s * cols hv + i)) (rgen_ w))) as Hu.
  unfold bernoulli, nth_draw.
  destruct (Rlt_dec _ _) as [Hlt | Hge]; cbn; split; intros Hp;
    try reflexivity; lra.
Qed.

(** A cell of the loops of [SampleLayer] returns with the shape of the
    target kept, or reads outside [probs]. *)
Lemma SampleLayer_cell_outcome (hv probs : MatrixXd) (s i : Z)
    (hvc : MatrixXd) (g : mt19937) :
  0 <= s < rows hv -> 0 <= i < cols hv ->
  rows hvc = rows hv /\ cols hvc = cols hv ->
  (exists hvc' g',
     (u <- draw ;; p <- mat_at probs s i ;; mat_set hvc s i (bernoulli u p)) g
     = (g', Returned hvc')
     /\ (rows hvc' = rows hv /\ cols hvc' = cols hv))
  \/ (exists g',
        (u <- draw ;; p <- mat_at probs s i ;; mat_set hvc s i (bernoulli u p)) g
        = (g', Undefined MatrixIndex)
        /\ (rows hvc = rows hv /\ cols hvc = cols hv)).
Proof.
  intros Hs Hi [Hr Hc]. unfold bind, draw, mat_at, mat_set.
  destruct (uniform_real_01 g) as [u g'].
  destruct (in_matrix probs s i).
  - left. unfold ret. rewrite in_matrix_inside by lia.
    eexists _, _. split; [reflexivity|]. cbn. split; assumption.
  - right. exists g'. split; [reflexivity|]. split; assumption.
Qed.

(** X10. When some position of the target lies outside the probability
    matrix, [SampleLayer] reads outside [probs]: undefined behaviour,
    nothing is reported. *)
Theorem SampleLayer_outside (w : Wavefunction) (hv probs : MatrixXd)
    (s0 i0 : Z) :
  0 <= s0 < rows hv -> 0 <= i0 < cols hv ->
  in_matrix probs s0 i0 = false ->
  snd (SampleLayer w hv probs) = Undefined MatrixIndex.
Proof.
  intros Hs0 Hi0 Hout.
  pose (Inv := fun (hvc : MatrixXd) (_ : mt19937) =>
                 rows hvc = rows hv /\ cols hvc = cols hv).
  destruct (for_loop_hits_undefined Inv MatrixIndex
    (fun s hv0 => for_loop 0 (cols hv0) (fun i hv1 =>
       u <- draw ;; p <- mat_at probs s i ;; mat_set hv1 s i (bernoulli u p)) hv0)
    0 s0 (rows hv) hv (rgen_ w)) as (hv' & g' & Hrun & _).
  - lia.
  - split; reflexivity.
  - intros s hvc g Hs Hinv.
    destruct (for_loop_returns_or_undefined Inv MatrixIndex
      (fun i hv1 =>
         u <- draw ;; p <- mat_at probs s i ;; mat_set hv1 s i (bernoulli u p))
      0 (cols hvc) hvc g Hinv) as [Hret | (s' & st' & Hb & Hi)].
    + intros i hv1 g1 Hi Hinv1. destruct Hinv as [_ Hc].
      apply SampleLayer_cell_outcome; [lia | lia | exact Hinv1].
    + left. exact Hret.
    + right. exists st'. split; [exact Hb | exact Hinv].
  - intros hvc g Hinv.
    destruct (for_loop_hits_undefined Inv MatrixIndex
      (fun i hv1 =>
         u <- draw ;; p <- mat_at probs s0 i ;; mat_set hv1 s0 i (bernoulli u p))
      0 i0 (cols hvc) hvc g) as (s' & st' & Hb & Hi).
    + destruct Hinv as [_ Hc]. lia.
    + exact Hinv.
    + intros i hv1 g1 Hi Hinv1. destruct Hinv as [_ Hc].
      apply SampleLayer_cell_outcome; [lia | lia | exact Hinv1].
    + intros hv1 g1 Hinv1. unfold bind, draw, mat_at.
      destruct (uniform_real_01 g1) as [u g2]. rewrite Hout.
      exists g2. split; [reflexivity | exact Hinv1].
    + exists st'. split; [exact Hb | exact Hinv].
  - unfold SampleLayer, SampleLayer_on. rewrite Hrun. reflexivity.
Qed.

(** X11. Two calls of [SampleLayer] in a row go on in the same stream of
    draws: position [(s,i)] of the second target is decided by draw
    number [rows*cols + s*cols2 + i] of the engine as it was before the
    first call, and the engine ends advanced by the number of entries of
    both targets. *)
Theorem SampleLayer_twice (w : Wavefunction) (hv probs hv2 probs2 : MatrixXd) :
  0 <= rows hv -> 0 <= cols hv ->
  rows probs = rows hv -> cols probs = cols hv ->
  0 <= rows hv2 -> 0 <= cols hv2 ->
  rows probs2 = rows hv2 -> cols probs2 = cols hv2 ->
  let n1 := Z.to_nat (rows hv * cols hv) in
  let n2 := Z.to_nat (rows hv2 * cols hv2) in
  exists w1 hv1 w2 hv2',
    SampleLayer w hv probs = (w1, Returned hv1)
    /\ SampleLayer w1 hv2 probs2 = (w2, Returned hv2')
    /\ rgen_ w2 = advance (n2 + n1) (rgen_ w)
    /\ forall s i, 0 <= s < rows hv2 -> 0 <= i < cols hv2 ->
         coeff hv2' s i
         = bernoulli (nth_draw (rgen_ w) (Z.to_nat (s * cols hv2 + i) + n1))
             (coeff probs2 s i).
Proof.
  intros Hr Hc Hsr Hsc Hr2 Hc2 Hsr2 Hsc2 n1 n2.
  destruct (SampleLayer_on_run hv probs (rgen_ w) Hr Hc Hsr Hsc)
    as (hv1 & Hrun1 & _).
  destruct (SampleLayer_on_run hv2 probs2 (advance n1 (rgen_ w))
              Hr2 Hc2 Hsr2 Hsc2) as (hv2' & Hrun2 & _ & _ & _ & Hcells).
  eexists _, hv1, _, hv2'. unfold SampleLayer. rewrite Hrun1.
  split; [reflexivity|]. cbn [rgen_ with_rgen]. fold n1. rewrite Hrun2.
  split; [reflexivity|]. cbn [rgen_ with_rgen]. fold n2.
  split; [symmetry; apply advance_add|].
  intros s i Hs Hi. rewrite (Hcells s i Hs Hi) by nia.
  rewrite nth_draw_advance. reflexivity.
Qed.

End SampleLayerMore.

Lemma SampleLayer_extremes_witness :
  exists w' hv',
    SampleLayer (Toy.wavefunction 2 1) Toy.target
      (Mat 1 2 (fun _ c => if c =? 0 then 1%R else 0%R))
    = (w', Returned hv')
    /\ coeff hv' 0 0 = 1%R /\ coeff hv' 0 1 = 0%R.
Proof.
  destruct (@SampleLayer_extremes Toy.rbm Toy.engine (Toy.wavefunction 2 1)
              Toy.target (Mat 1 2 (fun _ c => if c =? 0 then 1%R else 0%R)))
    as (w' & hv' & Hrun & Hcells);
    [cbn; lia | cbn; lia | reflexivity | reflexivity |].
  exists w', hv'. split; [exact Hrun|]. split.
  - destruct (Hcells 0 0) as [Hone _]; [cbn; lia | cbn; lia |].
    apply Hone. cbn. lra.
  - destruct (Hcells 0 1) as [_ Hzero]; [cbn; lia | cbn; lia |].
    apply Hzero. cbn. lra.
Defined.

Lemma SampleLayer_outside_witness :
  snd (SampleLayer (Toy.wavefunction 2 1) Toy.target
         (Mat 1 1 (fun _ _ => (1 / 4)%R)))
  = Undefined MatrixIndex.
Proof.
  apply (@SampleLayer_outside Toy.rbm Toy.engine (Toy.wavefunction 2 1)
           Toy.target (Mat 1 1 (fun _ _ => (1 / 4)%R)) 0 1).
  - cbn. lia.
  - cbn. lia.
  - reflexivity.
Defined.

Lemma SampleLayer_twice_witness :
  exists w1 hv1 w2 hv2',
    SampleLayer (Toy.wavefunction 2 1) Toy.target Toy.quarter = (w1, Returned hv1)
    /\ SampleLayer w1 Toy.target Toy.quarter = (w2, Returned hv2')
    /\ rgen_ w2 = 13583.
Proof.
  destruct (@SampleLayer_twice Toy.rbm Toy.engine (Toy.wavefunction 2 1)
              Toy.target Toy.quarter Toy.target Toy.quarter)
    as (w1 & hv1 & w2 & hv2' & Hrun1 & Hrun2 & Hgen & _);
    try (cbn; lia); try reflexivity.
  exists w1, hv1, w2, hv2'. split; [exact Hrun1|]. split; [exact Hrun2|].
  rewrite Hgen. reflexivity.
Defined.

(** ** GetParameters and SetParameters beyond equal halves *)

(** A wavefunction object whose [npar_] is one more than the two models
    have parameters. *)
Definition lopsided : @Wavefunction Toy.rbm Toy.engine :=
  @mkWavefunction Toy.rbm Toy.engine 2 3
    (Toy.Model 2 [2%R] 1) (Toy.Model 2 [2%R] 1) 0.

Lemma vec_at_outcome {St A : Type} (v : list A) (j : Z) (st : St) :
  (exists x, vec_at v j st = (st, Returned x))
  \/ vec_at v j st = (st, Undefined VectorIndex).
Proof.
  unfold vec_at. destruct (j <? 0); [right; reflexivity|].
  destruct (v !! Z.to_nat j) as [x|]; [left; exists x|right]; reflexivity.
Qed.

Lemma vec_at_beyond {St A : Type} (v : list A) (j : Z) (st : St) :
  Z.of_nat (length v) <= j -> vec_at v j st = (st, Undefined VectorIndex).
Proof.
  intros Hj. unfold vec_at. destruct (Z.ltb_spec j 0); [reflexivity|].
  rewrite lookup_ge_None_2 by lia. reflexivity.
Qed.

Section SetParametersMore.

Context {rbm : RbmModel} {rng : RandomEngine} {St : Type}.

(** One round of the copy loop on two vectors of [half] coefficients
    returns two vectors of [half] coefficients, or reads outside [pars]. *)
Lemma SetParameters_copy_outcome (pars : VectorXd) (half i : Z)
    (acc : VectorXd * VectorXd) (st : St) :
  0 <= i < half ->
  Z.of_nat (length acc.1) = half /\ Z.of_nat (length acc.2) = half ->
  (exists acc',
     (let '(parsAm, parsPh) := acc in
      a <- vec_at pars i ;;
      parsAm' <- vec_set parsAm i a ;;
      b <- vec_at pars (i + half) ;;
      parsPh' <- vec_set parsPh i b ;;
      ret (parsAm', parsPh')) st = (st, Returned acc')
     /\ Z.of_nat (length acc'.1) = half /\ Z.of_nat (length acc'.2) = half)
  \/ (let '(parsAm, parsPh) := acc in
      a <- vec_at pars i ;;
      parsAm' <- vec_set parsAm i a ;;
      b <- vec_at pars (i + half) ;;
      parsPh' <- vec_set parsPh i b ;;
      ret (parsAm', parsPh')) st = (st, Undefined VectorIndex).
Proof.
  intros Hi [Ha Hb]. destruct acc as [parsAm parsPh]. cbn [fst snd] in Ha, Hb.
  unfold bind.
  destruct (vec_at_outcome pars i st) as [[a Hat] | Hat]; rewrite Hat;
    [|right; reflexivity].
  rewrite vec_set_run by lia.
  destruct (vec_at_outcome pars (i + half) st) as [[b Hbt] | Hbt]; rewrite Hbt;
    [|right; reflexivity].
  rewrite vec_set_run by lia.
  left. eexists. split; [reflexivity|]. cbn [fst snd].
  rewrite !length_insert. split; assumption.
Qed.

(** X13. [SetParameters] on a vector with fewer than [2*(npar_/2)]
    entries reads outside the vector: undefined behaviour, the models are
    not reached and nothing is reported. *)
Theorem SetParameters_short (w : Wavefunction) (pars : VectorXd) (st : St) :
  0 <= npar_ w ->
  Z.of_nat (length pars) < 2 * Z.quot (npar_ w) 2 ->
  SetParameters w pars st = (st, Undefined VectorIndex).
Proof.
  intros Hn Hshort. set (half := Z.quot (npar_ w) 2) in *.
  assert (Hhalf : 1 <= half) by lia.
  unfold SetParameters. fold half.
  unfold bind at 1. rewrite new_vector_run by lia.
  unfold bind at 1. rewrite new_vector_run by lia.
  unfold bind at 1.
  match goal with |- context [for_loop 0 half ?body ?s0 st] =>
    destruct (for_loop_hits_undefined
      (fun (acc : VectorXd * VectorXd) (st' : St) =>
         st' = st /\ Z.of_nat (length acc.1) = half
         /\ Z.of_nat (length acc.2) = half)
      VectorIndex body 0 (half - 1) half s0 st) as (acc & st' & Hrun & Hst & _)
  end.
  - lia.
  - split; [reflexivity|]. cbn [fst snd]. rewrite length_replicate. lia.
  - intros i acc st1 Hi (-> & Hlen).
    destruct (SetParameters_copy_outcome pars half i acc st Hi Hlen)
      as [(acc' & Hb & Hlen') | Hb]; rewrite Hb.
    + left. exists acc', st. auto.
    + right. exists st. auto.
  - intros [parsAm parsPh] st1 (-> & Ha & Hb). cbn [fst snd] in Ha, Hb.
    exists st. split; [|auto]. unfold bind.
    destruct (vec_at_outcome pars (half - 1) st) as [[a Hat] | Hat]; rewrite Hat;
      [|reflexivity].
    rewrite vec_set_run by lia.
    rewrite vec_at_beyond by lia. reflexivity.
  - rewrite Hrun, Hst. reflexivity.
Qed.

(** X14. [SetParameters] hands [npar_/2] entries to each model whatever
    the two models' own parameter counts are, and reads no entry of
    [pars] from [2*(npar_/2)] on: the amplitude model of the result is
    what [Rbm::SetParameters] makes of the old one on the first
    [npar_/2] entries, the phase model what it makes of the old one on
    the next [npar_/2] entries.  So when the two counts differ, at least
    one model is handed a vector of another length than its count. *)
Theorem SetParameters_fixed_halves (w : Wavefunction) (pars : VectorXd)
    (st : St) :
  0 <= npar_ w ->
  2 * Z.quot (npar_ w) 2 <= Z.of_nat (length pars) ->
  let h := Z.to_nat (Z.quot (npar_ w) 2) in
  exists w' : Wavefunction,
    SetParameters w pars st = (st, Returned w')
    /\ rbmAm_ w' = Rbm_SetParameters (take h pars) (rbmAm_ w)
    /\ rbmPh_ w' = Rbm_SetParameters (take h (drop h pars)) (rbmPh_ w)
    /\ length (take h pars) = h /\ length (take h (drop h pars)) = h
    /\ SetParameters w (take (h + h) pars) st = (st, Returned w')
    /\ (Rbm_Npar (rbmAm_ w) <> Rbm_Npar (rbmPh_ w) ->
        Z.of_nat (length (take h pars)) <> Rbm_Npar (rbmAm_ w)
        \/ Z.of_nat (length (take h (drop h pars))) <> Rbm_Npar (rbmPh_ w)).
Proof.
  intros Hn Hlen h.
  assert (Hq : 0 <= Z.quot (npar_ w) 2) by (apply Z.quot_pos; lia).
  destruct (SetParameters_members w pars st Hn Hlen)
    as (w' & Hrun & HAm & HPh & _).
  fold h in HAm, HPh.
  assert (Hla : length (take h pars) = h) by (rewrite length_take; lia).
  assert (Hlp : length (take h (drop h pars)) = h)
    by (rewrite length_take, length_drop; lia).
  exists w'. split; [exact Hrun|]. split; [exact HAm|]. split; [exact HPh|].
  split; [exact Hla|]. split; [exact Hlp|]. split.
  - rewrite <- Hrun. rewrite !SetParameters_run; try assumption.
    + fold h. rewrite take_take, Nat.min_l by lia.
      rewrite <- (take_take_drop pars h h) at 1.
      rewrite drop_app_length' by (rewrite length_take; lia).
      rewrite take_take, Nat.min_l by lia. reflexivity.
    + rewrite length_take. lia.
  - intros Hne. rewrite Hla, Hlp.
    destruct (Z.eq_dec (Z.of_nat h) (Rbm_Npar (rbmAm_ w))) as [Heq | Hneq].
    + right. lia.
    + left. lia.
Qed.

(** X15. With models that give back from [GetParameters] the vector they
    were last handed, and equal parameter counts, [GetParameters] after
    [SetParameters(pars)] returns [pars]; [SetParameters] changes nothing
    of the wavefunction but the two models. *)
Theorem GetParameters_after_SetParameters (w : Wavefunction) (pars : VectorXd)
    (st : St) :
  0 <= Rbm_Npar (rbmAm_ w) ->
  Rbm_Npar (rbmAm_ w) = Rbm_Npar (rbmPh_ w) ->
  npar_ w = Rbm_Npar (rbmAm_ w) + Rbm_Npar (rbmPh_ w) ->
  (forall p r, Rbm_GetParameters (Rbm_SetParameters p r) = p) ->
  Z.of_nat (length pars) = npar_ w ->
  exists w',
    SetParameters w pars st = (st, Returned w')
    /\ GetParameters w' st = (st, Returned pars)
    /\ N_ w' = N_ w /\ npar_ w' = npar_ w /\ rgen_ w' = rgen_ w.
Proof.
  intros Hpos Heq Hnpar Hget Hlen.
  assert (Hq : Z.quot (npar_ w) 2 = Rbm_Npar (rbmAm_ w)).
  { rewrite Hnpar, <- Heq. apply quot_double. }
  eexists. split; [apply SetParameters_run; lia|].
  split; [|cbn; auto].
  unfold GetParameters. cbn [rbmAm_ rbmPh_ npar_ with_models].
  rewrite !Hget.
  set (h := Z.to_nat (Z.quot (npar_ w) 2)).
  rewrite comma_init_run.
  - rewrite (take_ge (drop h pars)) by (rewrite length_drop; lia).
    rewrite take_drop. reflexivity.
  - rewrite length_take, length_take, length_drop. lia.
Qed.

(** X16. A freshly constructed wavefunction has its two models built from
    the same configuration, so the equal counts that [SetParameters]
    relies on hold: on a vector of [npar_] entries the amplitude model of
    the result is what [Rbm::SetParameters] makes of the constructed
    model on the first half, the phase model what it makes of the
    constructed model on the second half, and each half has as many
    entries as the constructed model counts parameters. *)
Theorem SetParameters_after_construction (par : Parameters) (pars : VectorXd)
    (st : St) :
  0 <= Rbm_Npar (Rbm_new par) ->
  Z.of_nat (length pars) = npar_ (Wavefunction_new par) ->
  let n := Z.to_nat (Rbm_Npar (Rbm_new par)) in
  exists w' : Wavefunction,
    SetParameters (Wavefunction_new par) pars st = (st, Returned w')
    /\ rbmAm_ w' = Rbm_SetParameters (take n pars) (Rbm_new par)
    /\ rbmPh_ w' = Rbm_SetParameters (drop n pars) (Rbm_new par)
    /\ Z.of_nat (length (take n pars)) = Rbm_Npar (Rbm_new par)
    /\ Z.of_nat (length (drop n pars)) = Rbm_Npar (Rbm_new par)
    /\ rgen_ w' = mt19937_seed 13579.
Proof.
  intros Hpos Hlen n. cbn [npar_ Wavefunction_new] in Hlen.
  assert (Hq : Z.quot (npar_ (Wavefunction_new par)) 2 = Rbm_Npar (Rbm_new par))
    by apply quot_double.
  destruct (SetParameters_members (Wavefunction_new par) pars st)
    as (w' & Hrun & HAm & HPh & _ & _ & Hg);
    [cbn; lia | rewrite Hq; lia |].
  rewrite Hq in HAm, HPh. fold n in HAm, HPh.
  rewrite (take_ge (drop n pars)) in HPh by (rewrite length_drop; lia).
  exists w'. split; [exact Hrun|]. split; [exact HAm|]. split; [exact HPh|].
  split; [rewrite length_take; lia|]. split; [rewrite length_drop; lia|].
  exact Hg.
Qed.

End SetParametersMore.

Lemma SetParameters_short_witness :
  SetParameters (Toy.wavefunction 2 1) [5%R] tt = (tt, Undefined VectorIndex).
Proof.
  apply (@SetParameters_short Toy.rbm Toy.engine unit (Toy.wavefunction 2 1)
           [5%R] tt); [cbn; lia | reflexivity].
Defined.

Lemma SetParameters_fixed_halves_witness :
  exists w',
    SetParameters lopsided [5%R; 6%R; 7%R] tt = (tt, Returned w')
    /\ rbmAm_ w' = Toy.Model 2 [5%R] 1 /\ rbmPh_ w' = Toy.Model 2 [6%R] 1.
Proof.
  destruct (@SetParameters_fixed_halves Toy.rbm Toy.engine unit lopsided
              [5%R; 6%R; 7%R] tt)
    as (w' & Hrun & HAm & HPh & _); [cbn; lia | vm_compute; discriminate |].
  exists w'. split; [exact Hrun|]. split; [exact HAm | exact HPh].
Defined.

Lemma GetParameters_after_SetParameters_witness :
  exists w',
    SetParameters (Toy.wavefunction 2 1) [5%R; 6%R] tt = (tt, Returned w')
    /\ GetParameters w' tt = (tt, Returned [5%R; 6%R]).
Proof.
  destruct (@GetParameters_after_SetParameters Toy.rbm Toy.engine unit
              (Toy.wavefunction 2 1) [5%R; 6%R] tt)
    as (w' & Hset & Hget & _).
  - cbn. lia.
  - reflexivity.
  - reflexivity.
  - intros p r. reflexivity.
  - reflexivity.
  - exists w'. split; assumption.
Defined.

Lemma SetParameters_after_construction_witness :
  exists w',
    SetParameters (@Wavefunction_new Toy.rbm Toy.engine (Toy.Model 3 [1%R; 2%R] 1))
      [5%R; 6%R; 7%R; 8%R] tt
    = (tt, Returned w')
    /\ rbmAm_ w' = Toy.Model 3 [5%R; 6%R] 1
    /\ rbmPh_ w' = Toy.Model 3 [7%R; 8%R] 1.
Proof.
  destruct (@SetParameters_after_construction Toy.rbm Toy.engine unit
              (Toy.Model 3 [1%R; 2%R] 1) [5%R; 6%R; 7%R; 8%R] tt)
    as (w' & Hrun & HAm & HPh & _); [cbn; lia | reflexivity |].
  exists w'. split; [exact Hrun|]. split; [exact HAm | exact HPh].
Defined.

(** ** rotatedGrad: shape of the result, short descriptors, unused entries *)

Lemma fold_left_ext_in {A B : Type} (f g : A -> B -> A) (l : list B) (a : A) :
  (forall x b, In b l -> f x b = g x b) ->
  fold_left f l a = fold_left g l a.
Proof.
  revert a. induction l as [|b l IH]; intros a Hfg; [reflexivity|].
  cbn [fold_left]. rewrite (Hfg a b) by (left; reflexivity).
  apply IH. intros x b' Hin. apply Hfg. right. exact Hin.
Qed.

Section EstimatorFacts.

Context {rbm : RbmModel} {rng : RandomEngine}.

Variable w : Wavefunction.

Lemma numerator_ext (V : Z -> VectorXd) (A A' : Z -> complex) (count : Z) :
  (forall i, 0 <= i < count -> A i = A' i) ->
  numerator w V A count = numerator w V A' count.
Proof.
  intros HA. unfold numerator. apply fold_left_ext_in.
  intros num i Hin. apply list_elem_of_In, elem_of_seqZ in Hin.
  rewrite HA by lia. reflexivity.
Qed.

Lemma denominator_ext (V : Z -> VectorXd) (A A' : Z -> complex) (count : Z) :
  (forall i, 0 <= i < count -> A i = A' i) ->
  denominator w V A count = denominator w V A' count.
Proof.
  intros HA. unfold denominator. apply fold_left_ext_in.
  intros den i Hin. apply list_elem_of_In, elem_of_seqZ in Hin.
  rewrite HA by lia. reflexivity.
Qed.

Lemma estimator_length (table : gmap string MatrixXcd) (basis : list string)
    (state : VectorXd) :
  (forall v : VectorXd, Z.of_nat (length (gradient w v)) = npar_ w) ->
  Z.of_nat (length (estimator w table basis state)) = npar_ w.
Proof.
  intros Hgrad. unfold estimator, quotient. rewrite length_map.
  rewrite numerator_length by (intros; apply Hgrad).
  pose proof (Hgrad []). lia.
Qed.

End EstimatorFacts.

Lemma rotation_amplitude_ext (table1 table2 : gmap string MatrixXcd)
    (basis : list string) (state v : VectorXd) (sites : list nat) :
  (forall site, In site sites ->
     unitary_element table2 basis state v site
     = unitary_element table1 basis state v site) ->
  rotation_amplitude table2 basis state v sites
  = rotation_amplitude table1 basis state v sites.
Proof.
  intros Hel. unfold rotation_amplitude. apply fold_left_ext_in.
  intros U site Hin. rewrite Hel by exact Hin. reflexivity.
Qed.

Section RotatedGradMore.

Context {rbm : RbmModel} {rng : RandomEngine}.

Variables (w : Wavefunction) (basis : list string) (state : VectorXd).

(** X17. Under the conditions in which [rotatedGrad] returns (a binary
    [state] and a descriptor of length [N_], at most 16 rotated sites, all
    of them with a 2x2 matrix in the table), the vector written to
    [gradR] has exactly [npar_] coefficients. *)
Theorem rotatedGrad_length (table : gmap string MatrixXcd) :
  Z.of_nat (length basis) = N_ w ->
  Z.of_nat (length state) = N_ w ->
  Forall binary state ->
  (forall v : VectorXd, Z.of_nat (length (gradient w v)) = npar_ w) ->
  (length (rotated_sites basis (length basis)) <= 16)%nat ->
  covered basis table (rotated_sites basis (length basis)) ->
  exists gradR,
    rotatedGrad w basis state table = (table, Returned gradR)
    /\ Z.of_nat (length gradR) = npar_ w.
Proof.
  intros Hbasis Hstate Hbin Hgrad Hcap Hcov.
  exists (estimator w table basis state).
  split; [apply rotatedGrad_run; assumption|].
  apply estimator_length. exact Hgrad.
Qed.

(** X18. With a basis descriptor shorter than [N_], the first loop of
    [rotatedGrad] reads outside the descriptor: undefined behaviour,
    before the unitary table is touched; nothing is reported. *)
Theorem rotatedGrad_short_basis (table : gmap string MatrixXcd) :
  Z.of_nat (length basis) < N_ w ->
  0 <= npar_ w ->
  rotatedGrad w basis state table = (table, Undefined VectorIndex).
Proof.
  intros Hshort Hnpar. unfold rotatedGrad.
  unfold bind at 1. rewrite new_vector_run by lia.
  unfold bind at 1. unfold zero_vector.
  destruct (Z.ltb_spec (npar_ w) 0); [lia|]. unfold ret at 1.
  unfold bind at 1. unfold rotatedGrad_sites.
  match goal with |- context [for_loop 0 (N_ w) ?body ?s0 table] =>
    destruct (for_loop_hits_undefined
      (fun (_ : Z * list Z) (tb : gmap string MatrixXcd) => tb = table)
      VectorIndex body 0 (Z.of_nat (length basis)) (N_ w) s0 table)
      as (acc & tb & Hrun & Htb)
  end.
  - lia.
  - reflexivity.
  - intros j [t basisIndex] tb Hj ->. unfold bind.
    destruct (vec_at_outcome basis j table) as [[label Hat] | Hat]; rewrite Hat.
    + left. destruct (is_Z label); eexists _, table; split; reflexivity.
    + right. exists table. split; reflexivity.
  - intros [t basisIndex] tb ->. unfold bind.
    rewrite vec_at_beyond by lia. exists table. split; reflexivity.
  - rewrite Hrun, Htb. reflexivity.
Qed.

(** X19. [rotatedGrad] reads the table only at the labels of the rotated
    sites: two tables that agree on every label of the descriptor other
    than "Z" give the same [gradR], whatever else they hold. *)
Theorem rotatedGrad_unused_entries (table1 table2 : gmap string MatrixXcd) :
  Z.of_nat (length basis) = N_ w ->
  Z.of_nat (length state) = N_ w ->
  Forall binary state ->
  (forall v : VectorXd, Z.of_nat (length (gradient w v)) = npar_ w) ->
  (length (rotated_sites basis (length basis)) <= 16)%nat ->
  covered basis table1 (rotated_sites basis (length basis)) ->
  (forall site label, basis !! site = Some label -> is_Z label = false ->
     table2 !! label = table1 !! label) ->
  exists gradR,
    rotatedGrad w basis state table1 = (table1, Returned gradR)
    /\ rotatedGrad w basis state table2 = (table2, Returned gradR).
Proof.
  intros Hbasis Hstate Hbin Hgrad Hcap Hcov Hagree.
  assert (Hrot : forall site, In site (rotated_sites basis (length basis)) ->
            forall label, basis !! site = Some label -> is_Z label = false).
  { intros site Hin label Hl.
    pose proof (rotated_sites_bound basis (length basis)) as Hb.
    rewrite List.Forall_forall in Hb. destruct (Hb site Hin) as [_ Hr].
    rewrite (rotated_label basis site label Hl) in Hr.
    destruct (is_Z label); [discriminate | reflexivity]. }
  assert (Hcov2 : covered basis table2 (rotated_sites basis (length basis))).
  { unfold covered in *. rewrite List.Forall_forall in *.
    intros site Hin label Hl.
    rewrite (Hagree site label Hl (Hrot site Hin label Hl)).
    apply (Hcov site Hin label Hl). }
  exists (estimator w table1 basis state).
  split; [apply rotatedGrad_run; assumption|].
  rewrite rotatedGrad_run by assumption. do 2 f_equal.
  assert (Hsame : length state = length basis) by lia.
  assert (HA : forall i,
    rotation_amplitude table2 basis state (completion basis state i)
      (rotated_sites basis (length state))
    = rotation_amplitude table1 basis state (completion basis state i)
        (rotated_sites basis (length state))).
  { intros i. apply rotation_amplitude_ext. intros site Hin.
    rewrite Hsame in Hin. unfold unitary_element.
    destruct (basis !! site) as [label|] eqn:Hl; [|reflexivity].
    rewrite (Hagree site label Hl (Hrot site Hin label Hl)). reflexivity. }
  unfold estimator, quotient.
  rewrite (numerator_ext w _ _ _ _ (fun i _ => HA i)).
  rewrite (denominator_ext w _ _ _ _ (fun i _ => HA i)). reflexivity.
Qed.

End RotatedGradMore.

Lemma rotatedGrad_length_witness :
  exists gradR,
    rotatedGrad (Toy.wavefunction 2 1) ["Z"; "X"]%string [0%R; 0%R] Toy.X_table
    = (Toy.X_table, Returned gradR)
    /\ Z.of_nat (length gradR) = 2.
Proof.
  apply (@rotatedGrad_length Toy.rbm Toy.engine (Toy.wavefunction 2 1)
           ["Z"; "X"]%string [0%R; 0%R] Toy.X_table).
  - reflexivity.
  - reflexivity.
  - binary_vector.
  - intros v. reflexivity.
  - cbn. lia.
  - apply (X_table_covers_X 1). reflexivity.
Defined.

Lemma rotatedGrad_short_basis_witness :
  rotatedGrad (Toy.wavefunction 2 1) ["X"%string] [0%R; 0%R] Toy.X_table
  = (Toy.X_table, Undefined VectorIndex).
Proof.
  apply (@rotatedGrad_short_basis Toy.rbm Toy.engine (Toy.wavefunction 2 1)
           ["X"%string] [0%R; 0%R] Toy.X_table); cbn; lia.
Defined.

Lemma rotatedGrad_unused_entries_witness :
  exists gradR,
    rotatedGrad (Toy.wavefunction 2 1) ["Z"; "X"]%string [0%R; 0%R] Toy.X_table
    = (Toy.X_table, Returned gradR)
    /\ rotatedGrad (Toy.wavefunction 2 1) ["Z"; "X"]%string [0%R; 0%R]
         (<["Y"%string := MatrixXcd_default]> Toy.X_table)
       = (<["Y"%string := MatrixXcd_default]> Toy.X_table, Returned gradR).
Proof.
  apply (@rotatedGrad_unused_entries Toy.rbm Toy.engine (Toy.wavefunction 2 1)
           ["Z"; "X"]%string [0%R; 0%R] Toy.X_table
           (<["Y"%string := MatrixXcd_default]> Toy.X_table)).
  - reflexivity.
  - reflexivity.
  - binary_vector.
  - intros v. reflexivity.
  - cbn. lia.
  - apply (X_table_covers_X 1). reflexivity.
  - intros site label Hl HZ.
    destruct site as [|[|site]]; cbn in Hl; inversion Hl; subst label;
      [discriminate|].
    apply lookup_insert_ne. discriminate.
Defined.

(** ** rotatedGrad does not see a common factor of the unitaries *)

(** Every coefficient of [m] multiplied by [c]. *)
Definition scale_matrix (c : complex) (m : MatrixXcd) : MatrixXcd :=
  Mat (rows m) (cols m) (fun r k => cmul c (coeff m r k)).

Fixpoint cpow (c : complex) (n : nat) : complex :=
  match n with
  | O => of_double 1
  | Datatypes.S n' => cmul (cpow c n') c
  end.

Lemma cmul_assoc (a b c : complex) : cmul (cmul a b) c = cmul a (cmul b c).
Proof. destruct a, b, c. unfold cmul. cbn [re im]. f_equal; ring. Qed.

Lemma cmul_comm (a b : complex) : cmul a b = cmul b a.
Proof. destruct a, b. unfold cmul. cbn [re im]. f_equal; ring. Qed.

Lemma cmul_cadd (k a b : complex) :
  cmul k (cadd a b) = cadd (cmul k a) (cmul k b).
Proof. destruct k, a, b. unfold cmul, cadd. cbn [re im]. f_equal; ring. Qed.

Lemma cmul_scale_r (k U p : complex) (g : R) :
  cmul (scale_r (cmul k U) g) p = cmul k (cmul (scale_r U g) p).
Proof. destruct k, U, p. unfold cmul, scale_r. cbn [re im]. f_equal; ring. Qed.

Lemma cmul_nonzero (a b : complex) :
  a <> of_double 0 -> b <> of_double 0 -> cmul a b <> of_double 0.
Proof.
  intros Ha Hb Hab.
  pose proof (complex_nonzero a Ha) as Hna.
  pose proof (complex_nonzero b Hb) as Hnb.
  destruct a as [ra ia], b as [rb ib]. unfold cmul, of_double in Hab.
  cbn [re im] in *. injection Hab as Hre Him.
  assert (Hprod : ((ra * ra + ia * ia) * (rb * rb + ib * ib))%R = 0%R).
  { replace ((ra * ra + ia * ia) * (rb * rb + ib * ib))%R
      with ((ra * rb - ia * ib) * (ra * rb - ia * ib)
            + (ra * ib + ia * rb) * (ra * ib + ia * rb))%R by ring.
    rewrite Hre, Him. ring. }
  apply Rmult_integral in Hprod. destruct Hprod; contradiction.
Qed.

Lemma cpow_nonzero (c : complex) (n : nat) :
  c <> of_double 0 -> cpow c n <> of_double 0.
Proof.
  intros Hc. induction n as [|n IH].
  - cbn. intros H. inversion H. lra.
  - cbn [cpow]. apply cmul_nonzero; assumption.
Qed.

Lemma cdiv_scaled (k n d : complex) :
  k <> of_double 0 -> d <> of_double 0 ->
  cdiv (cmul k n) (cmul k d) = cdiv n d.
Proof.
  intros Hk Hd.
  pose proof (complex_nonzero _ (cmul_nonzero k d Hk Hd)) as Hkd.
  pose proof (complex_nonzero d Hd) as Hnd.
  destruct k as [rk ik], n as [rn i_n], d as [rd id].
  unfold cdiv, cmul in *. cbn [re im] in *.
  f_equal; field; split; assumption.
Qed.

Lemma cd_mul_cd_add (k : complex) (a b : cdouble) :
  cd_mul (Num k) (cd_add a b) = cd_add (cd_mul (Num k) a) (cd_mul (Num k) b).
Proof.
  destruct a, b; cbn; try reflexivity. rewrite cmul_cadd. reflexivity.
Qed.

Lemma cd_mul_scale_r (k U : complex) (g : R) (p : cdouble) :
  cd_mul (Num (scale_r (cmul k U) g)) p
  = cd_mul (Num k) (cd_mul (Num (scale_r U g)) p).
Proof.
  destruct p; cbn; try reflexivity. rewrite cmul_scale_r. reflexivity.
Qed.

Lemma cd_mul_cmul (k U : complex) (p : cdouble) :
  cd_mul (Num (cmul k U)) p = cd_mul (Num k) (cd_mul (Num U) p).
Proof.
  destruct p; cbn; try reflexivity. rewrite cmul_assoc. reflexivity.
Qed.

Lemma cmul_zero_iff (k x : complex) :
  k <> of_double 0 -> (cmul k x = of_double 0 <-> x = of_double 0).
Proof.
  intros Hk. split.
  - intros Hkx. destruct (complex_eq_dec x (of_double 0)) as [Hx | Hx];
      [exact Hx|].
    exfalso. exact (cmul_nonzero k x Hk Hx Hkx).
  - intros ->. apply cmul_0_r.
Qed.

(** A common factor other than zero cancels in a quotient, also where
    the quotient is not a number. *)
Lemma cd_div_scaled (k : complex) (n d : cdouble) :
  k <> of_double 0 ->
  cd_div (cd_mul (Num k) n) (cd_mul (Num k) d) = cd_div n d.
Proof.
  intros Hk. destruct n as [x | |], d as [y | |]; cbn [cd_mul cd_div];
    try reflexivity.
  pose proof (cmul_zero_iff k x Hk) as Hx.
  pose proof (cmul_zero_iff k y Hk) as Hy.
  destruct (complex_eq_dec y (of_double 0)) as [Hy0 | Hy0];
    destruct (complex_eq_dec (cmul k y) (of_double 0)) as [Hky | Hky];
    try (exfalso; tauto).
  - destruct (complex_eq_dec x (of_double 0)) as [Hx0 | Hx0];
      destruct (complex_eq_dec (cmul k x) (of_double 0)) as [Hkx | Hkx];
      try (exfalso; tauto); reflexivity.
  - f_equal. apply cdiv_scaled; assumption.
Qed.

Lemma zip_with_cd_add_scaled (k : complex) (a b : VectorXcd) :
  zip_with cd_add (cd_mul (Num k) <$> a) (cd_mul (Num k) <$> b)
  = cd_mul (Num k) <$> zip_with cd_add a b.
Proof.
  revert b. induction a as [|x a IH]; intros [|y b]; try reflexivity.
  rewrite !fmap_cons. cbn [zip_with]. rewrite fmap_cons, IH, cd_mul_cd_add.
  reflexivity.
Qed.

Lemma unitary_element_scaled (c : complex) (table : gmap string MatrixXcd)
    (basis : list string) (state v : VectorXd) (site : nat) :
  unitary_element (scale_matrix c <$> table) basis state v site
  = cmul c (unitary_element table basis state v site).
Proof.
  unfold unitary_element.
  destruct (basis !! site) as [label|]; [|rewrite cmul_0_r; reflexivity].
  destruct (state !! site) as [s|]; [|rewrite cmul_0_r; reflexivity].
  destruct (v !! site) as [x|]; [|rewrite cmul_0_r; reflexivity].
  rewrite lookup_fmap.
  destruct (table !! label) as [m|]; cbn; [reflexivity|].
  rewrite cmul_0_r. reflexivity.
Qed.

Lemma rotation_amplitude_scaled (c : complex) (table : gmap string MatrixXcd)
    (basis : list string) (state v : VectorXd) (sites : list nat) :
  rotation_amplitude (scale_matrix c <$> table) basis state v sites
  = cmul (cpow c (length sites)) (rotation_amplitude table basis state v sites).
Proof.
  induction sites as [|site sites IH] using rev_ind.
  - cbn. rewrite cmul_1_l. reflexivity.
  - unfold rotation_amplitude in *. rewrite !fold_left_app. cbn [fold_left].
    rewrite IH, unitary_element_scaled, length_app. cbn [length].
    rewrite Nat.add_1_r. cbn [cpow].
    rewrite !cmul_assoc. f_equal.
    rewrite <- !cmul_assoc. f_equal. apply cmul_comm.
Qed.

Section CommonFactor.

Context {rbm : RbmModel} {rng : RandomEngine}.

Variable w : Wavefunction.

Lemma numerator_scaled (k : complex) (V : Z -> VectorXd)
    (A : Z -> complex) (count : Z) :
  numerator w V (fun i => cmul k (A i)) count
  = cd_mul (Num k) <$> numerator w V A count.
Proof.
  unfold numerator.
  assert (Hgen : forall (l : list Z) (acc : VectorXcd),
    fold_left (fun num i =>
                 zip_with cd_add num (numerator_term w (V i) (cmul k (A i))))
      l (cd_mul (Num k) <$> acc)
    = cd_mul (Num k)
        <$> fold_left (fun num i =>
                         zip_with cd_add num (numerator_term w (V i) (A i)))
              l acc).
  { induction l as [|i l IH]; intros acc; [reflexivity|].
    cbn [fold_left]. rewrite <- IH. f_equal.
    rewrite <- zip_with_cd_add_scaled. f_equal.
    unfold numerator_term. rewrite <- list_fmap_compose.
    apply list_fmap_ext. intros j gk _. cbn. apply cd_mul_scale_r. }
  rewrite <- Hgen. f_equal.
  rewrite fmap_replicate. unfold cd_of_double. cbn [cd_mul].
  rewrite cmul_0_r. reflexivity.
Qed.

Lemma denominator_scaled (k : complex) (V : Z -> VectorXd)
    (A : Z -> complex) (count : Z) :
  denominator w V (fun i => cmul k (A i)) count
  = cd_mul (Num k) (denominator w V A count).
Proof.
  unfold denominator.
  assert (Hgen : forall (l : list Z) (acc : cdouble),
    fold_left (fun den i =>
                 cd_add den (denominator_term w (V i) (cmul k (A i))))
      l (cd_mul (Num k) acc)
    = cd_mul (Num k)
        (fold_left (fun den i => cd_add den (denominator_term w (V i) (A i)))
           l acc)).
  { induction l as [|i l IH]; intros acc; [reflexivity|].
    cbn [fold_left]. rewrite <- IH. f_equal.
    unfold denominator_term. rewrite cd_mul_cd_add, cd_mul_cmul. reflexivity. }
  rewrite <- Hgen. f_equal. unfold cd_of_double. cbn [cd_mul].
  rewrite cmul_0_r. reflexivity.
Qed.

(** X20. Multiplying every matrix of the table by one complex factor
    other than zero does not change [gradR], as long as the denominator
    is not zero: the factor enters numerator and denominator with the
    same power, one per rotated site, and cancels in the quotient. *)
Theorem rotatedGrad_common_factor (basis : list string) (state : VectorXd)
    (table : gmap string MatrixXcd) (c : complex) :
  Z.of_nat (length basis) = N_ w ->
  Z.of_nat (length state) = N_ w ->
  Forall binary state ->
  (forall v : VectorXd, Z.of_nat (length (gradient w v)) = npar_ w) ->
  (length (rotated_sites basis (length basis)) <= 16)%nat ->
  covered basis table (rotated_sites basis (length basis)) ->
  c <> of_double 0 ->
  estimator_denominator w table basis state <> cd_of_double 0 ->
  exists gradR,
    rotatedGrad w basis state table = (table, Returned gradR)
    /\ rotatedGrad w basis state (scale_matrix c <$> table)
       = (scale_matrix c <$> table, Returned gradR).
Proof.
  intros Hbasis Hstate Hbin Hgrad Hcap Hcov Hc Hden.
  assert (Hcov' : covered basis (scale_matrix c <$> table)
                    (rotated_sites basis (length basis))).
  { unfold covered in *. rewrite List.Forall_forall in *.
    intros site Hin label Hl.
    destruct (Hcov site Hin label Hl) as (m & Hm & Hr & Hk).
    exists (scale_matrix c m). rewrite lookup_fmap, Hm. auto. }
  exists (estimator w table basis state).
  split; [apply rotatedGrad_run; assumption|].
  rewrite rotatedGrad_run by assumption. do 2 f_equal.
  unfold estimator, quotient.
  set (sites := rotated_sites basis (length state)).
  set (k := cpow c (length sites)).
  rewrite (numerator_ext w _ _
             (fun i => cmul k (rotation_amplitude table basis state
                                 (completion basis state i) sites)))
    by (intros; apply rotation_amplitude_scaled).
  rewrite (denominator_ext w _ _
             (fun i => cmul k (rotation_amplitude table basis state
                                 (completion basis state i) sites)))
    by (intros; apply rotation_amplitude_scaled).
  rewrite numerator_scaled, denominator_scaled.
  rewrite <- list_fmap_compose. apply list_fmap_ext. intros j nk _. cbn.
  apply cd_div_scaled, cpow_nonzero. exact Hc.
Qed.

End CommonFactor.

Lemma two_sites_denominator :
  estimator_denominator (Toy.wavefunction 2 1) Toy.X_table
    ["Z"; "X"]%string [0%R; 0%R]
  = Num (Cplx (/ sqrt 2 + / sqrt 2) 0).
Proof.
  unfold estimator_denominator.
  change (rotated_sites ["Z"; "X"]%string (length [0%R; 0%R])) with [1%nat].
  change (2 ^ Z.of_nat (length [1%nat])) with (0 + 1 + 1).
  rewrite !denominator_step by lia.
  unfold denominator. rewrite seqZ_nil by lia. cbn [fold_left].
  unfold denominator_term. rewrite !psi_toy_one.
  unfold rotation_amplitude, unitary_element. cbn [fold_left].
  change (["Z"; "X"]%string !! 1%nat) with (Some "X"%string).
  change (completion ["Z"; "X"]%string [0%R; 0%R] 0) with [0%R; 0%R].
  change (completion ["Z"; "X"]%string [0%R; 0%R] (0 + 1)) with [0%R; 1%R].
  cbn [lookup list_lookup].
  unfold Toy.X_table. rewrite lookup_singleton_eq.
  change (coeff Toy.hadamard _ _) with (Cplx (/ sqrt 2) 0).
  unfold cd_of_double. cbn [cd_mul cd_add].
  unfold cadd, cmul, of_double. cbn [re im]. do 2 f_equal; ring.
Qed.

Lemma rotatedGrad_common_factor_witness :
  exists gradR,
    rotatedGrad (Toy.wavefunction 2 1) ["Z"; "X"]%string [0%R; 0%R] Toy.X_table
    = (Toy.X_table, Returned gradR)
    /\ rotatedGrad (Toy.wavefunction 2 1) ["Z"; "X"]%string [0%R; 0%R]
         (scale_matrix (Cplx 0 3) <$> Toy.X_table)
       = (scale_matrix (Cplx 0 3) <$> Toy.X_table, Returned gradR).
Proof.
  apply (@rotatedGrad_common_factor Toy.rbm Toy.engine (Toy.wavefunction 2 1)
           ["Z"; "X"]%string [0%R; 0%R] Toy.X_table (Cplx 0 3)).
  - reflexivity.
  - reflexivity.
  - binary_vector.
  - intros v. reflexivity.
  - cbn. lia.
  - apply (X_table_covers_X 1). reflexivity.
  - intros H. injection H as H. lra.
  - rewrite two_sites_denominator. intros H. injection H as H.
    assert (Hs : (0 < / sqrt 2)%R) by (apply Rinv_0_lt_compat, sqrt_lt_R0; lra).
    lra.
Defined.

(** ** rotatedGrad with rotations that are the identity *)

Lemma cadd_0_r (z : complex) : cadd z (of_double 0) = z.
Proof. destruct z as [a b]. unfold cadd, of_double. cbn. f_equal; lra. Qed.

Lemma cmul_0_l (z : complex) : cmul (of_double 0) z = of_double 0.
Proof. destruct z as [a b]. unfold cmul, of_double. cbn. f_equal; lra. Qed.

Lemma cd_add_0_r (z : cdouble) : cd_add z (cd_of_double 0) = z.
Proof. destruct z; cbn; [rewrite cadd_0_r|..]; reflexivity. Qed.

Lemma zip_with_zeros_r (l : VectorXcd) :
  zip_with cd_add l (replicate (length l) (cd_of_double 0)) = l.
Proof.
  induction l as [|z l IH]; [reflexivity|].
  cbn [length replicate zip_with]. rewrite cd_add_0_r, IH. reflexivity.
Qed.

(** The 2x2 block of [m] is the identity. *)
Definition identity_block (m : MatrixXcd) : Prop :=
  2 <= rows m /\ 2 <= cols m
  /\ coeff m 0 0 = of_double 1 /\ coeff m 1 1 = of_double 1
  /\ coeff m 0 1 = of_double 0 /\ coeff m 1 0 = of_double 0.

Lemma identity_block_same (m : MatrixXcd) (s : R) :
  identity_block m -> binary s ->
  coeff m (truncate s) (truncate s) = of_double 1.
Proof.
  intros (_ & _ & H00 & H11 & _) [-> | ->];
    [rewrite truncate_0 | rewrite truncate_1]; assumption.
Qed.

Lemma identity_block_other (m : MatrixXcd) (s x : R) :
  identity_block m -> binary s -> binary x -> s <> x ->
  coeff m (truncate s) (truncate x) = of_double 0.
Proof.
  intros (_ & _ & _ & _ & H01 & H10) [-> | ->] [-> | ->] Hne;
    try contradiction;
    rewrite ?truncate_0, ?truncate_1; assumption.
Qed.

Lemma rotation_amplitude_ones (table : gmap string MatrixXcd)
    (basis : list string) (state v : VectorXd) (sites : list nat) :
  (forall site, In site sites ->
     unitary_element table basis state v site = of_double 1) ->
  rotation_amplitude table basis state v sites = of_double 1.
Proof.
  induction sites as [|site sites IH] using rev_ind; intros Hone;
    [reflexivity|].
  unfold rotation_amplitude in *. rewrite fold_left_app. cbn [fold_left].
  rewrite IH by (intros s Hin; apply Hone, in_or_app; left; exact Hin).
  rewrite Hone by (apply in_or_app; right; left; reflexivity).
  apply cmul_1_l.
Qed.

Lemma rotation_amplitude_zero (table : gmap string MatrixXcd)
    (basis : list string) (state v : VectorXd) (sites : list nat) (site : nat) :
  In site sites ->
  unitary_element table basis state v site = of_double 0 ->
  rotation_amplitude table basis state v sites = of_double 0.
Proof.
  intros Hin Hzero. unfold rotation_amplitude.
  apply in_split in Hin. destruct Hin as (l1 & l2 & ->).
  rewrite fold_left_app. cbn [fold_left]. rewrite Hzero, cmul_0_r.
  induction l2 as [|s l2 IH]; [reflexivity|].
  cbn [fold_left]. rewrite cmul_0_l. exact IH.
Qed.

Section SingleTerm.

Context {rbm : RbmModel} {rng : RandomEngine}.

Variable w : Wavefunction.
Hypothesis Grad_length :
  forall v : VectorXd, Z.of_nat (length (gradient w v)) = npar_ w.

(** A term with the amplitude zero is zero where [psi] is a number (and
    NaN where [psi] is NaN). *)
Lemma numerator_term_zero (v : VectorXd) :
  (exists z, psi w v = Num z) ->
  numerator_term w v (of_double 0)
  = replicate (Z.to_nat (npar_ w)) (cd_of_double 0).
Proof.
  intros [z Hz]. unfold numerator_term.
  rewrite Hz, <- (Grad_length v), Nat2Z.id.
  rewrite <- (map_const (cd_of_double 0) (gradient w v)).
  apply map_ext. intros g. cbn [cd_mul]. unfold cd_of_double. f_equal.
  destruct z as [a b]. unfold cmul, scale_r, of_double. cbn [re im].
  f_equal; ring.
Qed.

Lemma denominator_term_zero (v : VectorXd) :
  (exists z, psi w v = Num z) ->
  denominator_term w v (of_double 0) = cd_of_double 0.
Proof using Type.
  intros [z Hz]. unfold denominator_term. rewrite Hz. cbn [cd_mul].
  rewrite cmul_0_l. reflexivity.
Qed.

Lemma numerator_term_length_npar (v : VectorXd) (U : complex) :
  length (numerator_term w v U) = Z.to_nat (npar_ w).
Proof.
  unfold numerator_term. rewrite length_map.
  pose proof (Grad_length v). lia.
Qed.

(** Sums in which only the term of index [k] has a non-zero amplitude,
    over vectors at which [psi] is a number. *)
Lemma numerator_single (V : Z -> VectorXd) (k : Z) (n : nat) :
  0 <= k ->
  (forall i, 0 <= i < Z.of_nat n -> exists z, psi w (V i) = Num z) ->
  numerator w V (fun i => of_double (if i =? k then 1 else 0)) (Z.of_nat n)
  = if Z.of_nat n <=? k then replicate (Z.to_nat (npar_ w)) (cd_of_double 0)
    else numerator_term w (V k) (of_double 1).
Proof.
  intros Hk. induction n as [|n IH]; intros Hfin.
  - unfold numerator. rewrite seqZ_nil by lia. cbn [fold_left].
    destruct (Z.leb_spec (Z.of_nat 0) k); [reflexivity | lia].
  - rewrite Nat2Z.inj_succ. unfold Z.succ. rewrite numerator_step by lia.
    rewrite IH by (intros i Hi; apply Hfin; lia).
    pose proof (Hfin (Z.of_nat n) ltac:(lia)) as Hn.
    destruct (Z.leb_spec (Z.of_nat n) k) as [Hle | Hgt];
      destruct (Z.leb_spec (Z.of_nat n + 1) k) as [Hle' | Hgt']; try lia.
    + destruct (Z.eqb_spec (Z.of_nat n) k); [lia|].
      rewrite numerator_term_zero by exact Hn.
      rewrite <- (length_replicate (Z.to_nat (npar_ w)) (cd_of_double 0)) at 1.
      apply zip_with_zeros.
    + destruct (Z.eqb_spec (Z.of_nat n) k) as [-> | ]; [|lia].
      rewrite <- (numerator_term_length_npar (V k) (of_double 1)) at 1.
      apply zip_with_zeros.
    + destruct (Z.eqb_spec (Z.of_nat n) k); [lia|].
      rewrite numerator_term_zero by exact Hn.
      rewrite <- (numerator_term_length_npar (V k) (of_double 1)) at 1.
      apply zip_with_zeros_r.
Qed.

Lemma denominator_single (V : Z -> VectorXd) (k : Z) (n : nat) :
  0 <= k ->
  (forall i, 0 <= i < Z.of_nat n -> exists z, psi w (V i) = Num z) ->
  denominator w V (fun i => of_double (if i =? k then 1 else 0)) (Z.of_nat n)
  = if Z.of_nat n <=? k then cd_of_double 0
    else denominator_term w (V k) (of_double 1).
Proof using Type.
  intros Hk. induction n as [|n IH]; intros Hfin.
  - unfold denominator. rewrite seqZ_nil by lia. cbn [fold_left].
    destruct (Z.leb_spec (Z.of_nat 0) k); [reflexivity | lia].
  - rewrite Nat2Z.inj_succ. unfold Z.succ. rewrite denominator_step by lia.
    rewrite IH by (intros i Hi; apply Hfin; lia).
    pose proof (Hfin (Z.of_nat n) ltac:(lia)) as Hn.
    destruct (Z.leb_spec (Z.of_nat n) k) as [Hle | Hgt];
      destruct (Z.leb_spec (Z.of_nat n + 1) k) as [Hle' | Hgt']; try lia.
    + destruct (Z.eqb_spec (Z.of_nat n) k); [lia|].
      rewrite denominator_term_zero by exact Hn. apply cd_add_0_l.
    + destruct (Z.eqb_spec (Z.of_nat n) k) as [-> | ]; [|lia].
      apply cd_add_0_l.
    + destruct (Z.eqb_spec (Z.of_nat n) k); [lia|].
      rewrite denominator_term_zero by exact Hn. apply cd_add_0_r.
Qed.

End SingleTerm.

Section IdentityRotations.

Context {rbm : RbmModel} {rng : RandomEngine}.

Variables (w : Wavefunction) (basis : list string) (state : VectorXd)
          (table : gmap string MatrixXcd).

(** The labels of [sites] have a matrix in the table whose 2x2 block is
    the identity. *)
Definition identity_covered (sites : list nat) : Prop :=
  Forall (fun site => forall label, basis !! site = Some label ->
            exists m, table !! label = Some m /\ identity_block m)
         sites.

Hypothesis basis_length : Z.of_nat (length basis) = N_ w.
Hypothesis state_length : Z.of_nat (length state) = N_ w.
Hypothesis state_binary : Forall binary state.
Hypothesis identities : identity_covered (rotated_sites basis (length state)).

Lemma completion_agrees (i : Z) :
  (forall site, In site (rotated_sites basis (length state)) ->
     completion basis state i !! site = state !! site) ->
  completion basis state i = state.
Proof.
  intros Hagree. apply list_eq. intros j.
  destruct (decide (j < length state)%nat) as [Hj | Hj].
  - destruct (rotated basis j) eqn:Hrot.
    + apply Hagree. apply list_elem_of_In.
      apply (list_elem_of_lookup_2 _ (length (rotated_sites basis j))).
      apply rotated_sites_lookup_rank; assumption.
    + rewrite completion_at by exact Hj. rewrite Hrot. reflexivity.
  - rewrite !lookup_ge_None_2; [reflexivity | lia |].
    unfold completion. rewrite length_imap. lia.
Qed.

Lemma site_entries (i : Z) (site : nat) :
  In site (rotated_sites basis (length state)) ->
  exists label m s x,
    basis !! site = Some label /\ table !! label = Some m /\ identity_block m
    /\ state !! site = Some s /\ binary s
    /\ completion basis state i !! site = Some x /\ binary x.
Proof.
  intros Hin.
  pose proof (rotated_sites_bound basis (length state)) as Hb.
  rewrite List.Forall_forall in Hb. destruct (Hb site Hin) as [Hlt Hrot].
  destruct (lookup_lt_is_Some_2 basis site) as [label Hl]; [lia|].
  destruct (lookup_lt_is_Some_2 state site Hlt) as [s Hs].
  unfold identity_covered in identities.
  rewrite List.Forall_forall in identities.
  destruct (identities site Hin label Hl) as (m & Hm & Hid).
  exists label, m, s. eexists.
  split; [exact Hl|]. split; [exact Hm|]. split; [exact Hid|].
  split; [exact Hs|].
  split; [eapply Forall_lookup_1; eassumption|].
  split; [apply completion_lookup; assumption|].
  apply double_of_bool_binary.
Qed.

(** With identity rotations the amplitude of a completion is 1 when the
    completion is [state] itself and 0 otherwise. *)
Lemma identity_amplitude (i : Z) :
  (completion basis state i = state
   /\ rotation_amplitude table basis state (completion basis state i)
        (rotated_sites basis (length state)) = of_double 1)
  \/ (completion basis state i <> state
      /\ rotation_amplitude table basis state (completion basis state i)
           (rotated_sites basis (length state)) = of_double 0).
Proof.
  destruct (Forall_Exists_dec
    (fun site => default 0%R (completion basis state i !! site)
                 = default 0%R (state !! site))
    (fun site => default 0%R (completion basis state i !! site)
                 <> default 0%R (state !! site))
    (fun site => Req_dec_T _ _)
    (rotated_sites basis (length state))) as [Hall | Hex].
  - left. rewrite List.Forall_forall in Hall.
    assert (Heq : completion basis state i = state).
    { apply completion_agrees. intros site Hin.
      destruct (site_entries i site Hin)
        as (label & m & s & x & _ & _ & _ & Hs & _ & Hx & _).
      specialize (Hall site Hin). rewrite Hs, Hx in Hall. cbn in Hall.
      rewrite Hs, Hx, Hall. reflexivity. }
    split; [exact Heq|].
    apply rotation_amplitude_ones. intros site Hin.
    destruct (site_entries i site Hin)
      as (label & m & s & x & Hl & Hm & Hid & Hs & Hbs & Hx & _).
    rewrite Heq in Hx |- *. unfold unitary_element. rewrite Hl, Hs, Hm.
    apply identity_block_same; assumption.
  - apply List.Exists_exists in Hex. destruct Hex as (site & Hin & Hne).
    destruct (site_entries i site Hin)
      as (label & m & s & x & Hl & Hm & Hid & Hs & Hbs & Hx & Hbx).
    rewrite Hs, Hx in Hne. cbn in Hne. right. split.
    + intros Heq. rewrite Heq, Hs in Hx. congruence.
    + apply (rotation_amplitude_zero _ _ _ _ _ site Hin).
      unfold unitary_element. rewrite Hl, Hs, Hx, Hm.
      apply identity_block_other; try assumption. congruence.
Qed.

(** X21. When every rotated site has a matrix whose 2x2 block is the
    identity and [psi] is a number at every completion, the only
    completion with a non-zero rotation amplitude is [state] itself, and
    [rotatedGrad] writes [gradR = Grad(state)] as it does for a
    descriptor of "Z" alone (for at most 16 rotated sites, a binary
    [state] and [psi(state)] other than zero). *)
Theorem rotatedGrad_identity_rotations :
  (forall v : VectorXd, Z.of_nat (length (gradient w v)) = npar_ w) ->
  (length (rotated_sites basis (length basis)) <= 16)%nat ->
  (forall i, 0 <= i < 2 ^ Z.of_nat (length (rotated_sites basis (length basis))) ->
     exists z, psi w (completion basis state i) = Num z) ->
  psi w state <> cd_of_double 0 ->
  rotatedGrad w basis state table
  = (table, Returned (cd_of_double <$> gradient w state)).
Proof.
  intros Hgrad Hcap Hfin Hpsi.
  assert (Hsame : length state = length basis) by lia.
  assert (Hcov : covered basis table (rotated_sites basis (length basis))).
  { rewrite <- Hsame. unfold covered, identity_covered in *.
    eapply Forall_impl; [exact identities|].
    intros site Hsite label Hl. cbn in Hsite.
    destruct (Hsite label Hl) as (m & Hm & Hr & Hc & _). eauto. }
  rewrite rotatedGrad_run by assumption. do 2 f_equal.
  destruct (completion_surj basis state state eq_refl) as (k & Hk & Hck).
  { intros j Hj. destruct (rotated basis j); [|reflexivity].
    destruct (lookup_lt_is_Some_2 state j Hj) as [s Hs].
    destruct (Forall_lookup_1 _ _ _ _ state_binary Hs) as [-> | ->].
    - exists false. exact Hs.
    - exists true. exact Hs. }
  rewrite <- Hsame in Hfin.
  unfold estimator, quotient.
  set (count := 2 ^ Z.of_nat (length (rotated_sites basis (length state)))) in *.
  assert (HA : forall i, 0 <= i < count ->
    rotation_amplitude table basis state (completion basis state i)
      (rotated_sites basis (length state))
    = of_double (if i =? k then 1 else 0)).
  { intros i Hi. destruct (identity_amplitude i) as [[Heq HU] | [Hne HU]];
      rewrite HU.
    - assert (Hik : i = k)
        by (apply (completion_inj basis state i k Hi Hk); rewrite Hck; exact Heq).
      subst i. rewrite Z.eqb_refl. reflexivity.
    - destruct (Z.eqb_spec i k) as [-> | _]; [contradiction | reflexivity]. }
  rewrite (numerator_ext w _ _ _ _ HA), (denominator_ext w _ _ _ _ HA).
  assert (Hcount : count = Z.of_nat (Z.to_nat count)) by lia.
  destruct (Hfin k Hk) as [z Hz]. rewrite Hck in Hz.
  rewrite Hcount in Hfin. rewrite Hcount.
  rewrite numerator_single, denominator_single by (assumption || lia).
  destruct (Z.leb_spec (Z.of_nat (Z.to_nat count)) k); [lia|].
  rewrite Hck. unfold numerator_term, denominator_term.
  rewrite map_map, Hz. apply map_ext. intros gk. apply cd_div_cancel.
  intros ->. apply Hpsi. exact Hz.
Qed.

End IdentityRotations.

(** The 2x2 identity. *)
Definition identity2 : MatrixXcd :=
  Mat 2 2 (fun r c => of_double (if r =? c then 1 else 0)).

Lemma rotatedGrad_identity_rotations_witness :
  rotatedGrad (Toy.wavefunction 2 1) ["I"; "Z"]%string [1%R; 0%R]
    {[ "I"%string := identity2 ]}
  = ({[ "I"%string := identity2 ]}, Returned [cd_of_double 2; cd_of_double 2]).
Proof.
  apply (@rotatedGrad_identity_rotations Toy.rbm Toy.engine
           (Toy.wavefunction 2 1) ["I"; "Z"]%string [1%R; 0%R]
           {[ "I"%string := identity2 ]}).
  - reflexivity.
  - reflexivity.
  - binary_vector.
  - apply Forall_cons_2; [|apply Forall_nil_2].
    intros label Hl. inversion Hl; subst label.
    exists identity2. split; [apply lookup_singleton_eq|].
    unfold identity_block. cbn. repeat split; lia.
  - intros v. reflexivity.
  - cbn. lia.
  - intros i _. rewrite psi_toy_one. eexists. reflexivity.
  - rewrite psi_toy_one. intros H. injection H as H. lra.
Defined.

(** ** rotatedGrad and values that are not numbers *)

Lemma cd_add_NaN_r (z : cdouble) : cd_add z cNaN = cNaN.
Proof. destruct z; reflexivity. Qed.

Lemma zip_with_NaN_l (l : VectorXcd) :
  zip_with cd_add (replicate (length l) cNaN) l = replicate (length l) cNaN.
Proof.
  induction l as [|z l IH]; [reflexivity|].
  cbn [length replicate zip_with]. rewrite IH. reflexivity.
Qed.

Lemma zip_with_NaN_r (l : VectorXcd) :
  zip_with cd_add l (replicate (length l) cNaN) = replicate (length l) cNaN.
Proof.
  induction l as [|z l IH]; [reflexivity|].
  cbn [length replicate zip_with]. rewrite cd_add_NaN_r, IH. reflexivity.
Qed.

Definition is_number (x : cdouble) : Prop := exists z : complex, x = Num z.

Lemma zip_with_numbers (a b : VectorXcd) :
  Forall is_number a -> Forall is_number b ->
  Forall is_number (zip_with cd_add a b).
Proof.
  intros Ha. revert b. induction Ha as [|x a [zx ->] Ha IH]; intros b Hb.
  - apply Forall_nil_2.
  - destruct Hb as [|y b [zy ->] Hb]; [apply Forall_nil_2|].
    cbn [zip_with cd_add]. apply Forall_cons_2; [eexists; reflexivity|].
    apply IH. exact Hb.
Qed.

Section SumsOfValues.

Context {rbm : RbmModel} {rng : RandomEngine}.

Variable w : Wavefunction.
Hypothesis Grad_length :
  forall v : VectorXd, Z.of_nat (length (gradient w v)) = npar_ w.

Lemma numerator_term_NaN (v : VectorXd) (U : complex) :
  psi w v = cNaN ->
  numerator_term w v U = replicate (Z.to_nat (npar_ w)) cNaN.
Proof.
  intros Hpsi. unfold numerator_term. rewrite Hpsi. cbn [cd_mul].
  rewrite <- (Grad_length v), Nat2Z.id. apply map_const.
Qed.

(** Once [psi] is NaN at one index, the sums are NaN from there on. *)
Lemma sums_NaN (V : Z -> VectorXd) (A : Z -> complex) (k : Z) (n : nat) :
  0 <= k < Z.of_nat n ->
  psi w (V k) = cNaN ->
  numerator w V A (Z.of_nat n) = replicate (Z.to_nat (npar_ w)) cNaN
  /\ denominator w V A (Z.of_nat n) = cNaN.
Proof.
  intros Hk Hpsi. induction n as [|n IH]; [lia|].
  rewrite Nat2Z.inj_succ. unfold Z.succ.
  rewrite numerator_step, denominator_step by lia.
  destruct (Z.eq_dec k (Z.of_nat n)) as [-> | Hne].
  - rewrite numerator_term_NaN by exact Hpsi.
    unfold denominator_term. rewrite Hpsi. cbn [cd_mul].
    split; [|apply cd_add_NaN_r].
    rewrite <- (numerator_length w V A (Z.of_nat n))
      by (intros; apply Grad_length).
    apply zip_with_NaN_r.
  - destruct IH as [Hnum Hden]; [lia|]. rewrite Hnum, Hden.
    split; [|reflexivity].
    rewrite <- (numerator_term_length_npar w Grad_length (V (Z.of_nat n))
                  (A (Z.of_nat n))).
    apply zip_with_NaN_l.
Qed.

(** [psi] has no infinite component, and so have the two sums: the
    quotient that ends [rotatedGrad] is the only place where an infinite
    component can appear. *)
Lemma psi_number_or_NaN (v : VectorXd) : is_number (psi w v) \/ psi w v = cNaN.
Proof using Type.
  unfold psi, amplitude, std_sqrt.
  destruct (Rlt_dec (Rbm_prob (rbmAm_ w) v) 0); [right; reflexivity|].
  destruct (phase w v); [left; eexists; reflexivity | right ..]; reflexivity.
Qed.

Lemma sums_number_or_NaN (V : Z -> VectorXd) (A : Z -> complex) (n : nat) :
  Forall (fun x => is_number x \/ x = cNaN) (numerator w V A (Z.of_nat n))
  /\ (is_number (denominator w V A (Z.of_nat n))
      \/ denominator w V A (Z.of_nat n) = cNaN).
Proof using Type.
  assert (Hadd : forall a b : cdouble,
    is_number a \/ a = cNaN -> is_number b \/ b = cNaN ->
    is_number (cd_add a b) \/ cd_add a b = cNaN).
  { intros a b [[x ->] | ->] [[y ->] | ->]; cbn; auto.
    left. eexists. reflexivity. }
  assert (Hmul : forall (U : complex) (b : cdouble),
    is_number b \/ b = cNaN ->
    is_number (cd_mul (Num U) b) \/ cd_mul (Num U) b = cNaN).
  { intros U b [[y ->] | ->]; cbn; auto. left. eexists. reflexivity. }
  induction n as [|n IH].
  - unfold numerator, denominator. rewrite seqZ_nil by lia. cbn [fold_left].
    split; [|left; eexists; reflexivity].
    apply Forall_replicate. left. eexists. reflexivity.
  - rewrite Nat2Z.inj_succ. unfold Z.succ.
    rewrite numerator_step, denominator_step by lia.
    destruct IH as [Hnum Hden]. split.
    + unfold numerator_term.
      generalize dependent (numerator w V A (Z.of_nat n)).
      induction (gradient w (V (Z.of_nat n))) as [|g l IHl]; intros num Hnum.
      * destruct num; apply Forall_nil_2.
      * destruct Hnum as [|x num Hx Hnum]; [apply Forall_nil_2|].
        cbn [map zip_with]. apply Forall_cons_2; [|apply IHl; exact Hnum].
        apply Hadd; [exact Hx|]. apply Hmul, psi_number_or_NaN.
    + apply Hadd; [exact Hden|]. apply Hmul, psi_number_or_NaN.
Qed.

(** While [psi] is a number at every index, the sums are numbers. *)
Lemma sums_numbers (V : Z -> VectorXd) (A : Z -> complex) (n : nat) :
  (forall i, 0 <= i < Z.of_nat n -> is_number (psi w (V i))) ->
  Forall is_number (numerator w V A (Z.of_nat n))
  /\ is_number (denominator w V A (Z.of_nat n)).
Proof using Type.
  induction n as [|n IH]; intros Hfin.
  - unfold numerator, denominator. rewrite seqZ_nil by lia. cbn [fold_left].
    split; [|eexists; reflexivity].
    apply Forall_replicate. eexists. reflexivity.
  - rewrite Nat2Z.inj_succ. unfold Z.succ.
    rewrite numerator_step, denominator_step by lia.
    destruct IH as [Hnum [d Hden]]; [intros i Hi; apply Hfin; lia|].
    destruct (Hfin (Z.of_nat n) ltac:(lia)) as [z Hz].
    split.
    + apply zip_with_numbers; [exact Hnum|].
      unfold numerator_term. rewrite Hz. apply Forall_forall.
      intros x Hx. apply list_elem_of_In, in_map_iff in Hx.
      destruct Hx as (g & <- & _). eexists. reflexivity.
    + rewrite Hden. unfold denominator_term. rewrite Hz.
      eexists. reflexivity.
Qed.

End SumsOfValues.

Section NotNumbers.

Context {rbm : RbmModel} {rng : RandomEngine}.

Variables (w : Wavefunction) (basis : list string) (state : VectorXd)
          (table : gmap string MatrixXcd).

Hypothesis basis_length : Z.of_nat (length basis) = N_ w.
Hypothesis state_length : Z.of_nat (length state) = N_ w.
Hypothesis state_binary : Forall binary state.
Hypothesis Grad_length :
  forall v : VectorXd, Z.of_nat (length (gradient w v)) = npar_ w.
Hypothesis capacity :
  (length (rotated_sites basis (length basis)) <= 16)%nat.
Hypothesis entries : covered basis table (rotated_sites basis (length basis)).

(** X23. One completion at which [psi] is NaN makes the whole result NaN:
    under the conditions in which [rotatedGrad] returns, if [psi] is NaN
    at the vector built for some index below [2^t] (the phase model's
    [prob] is zero or negative there, or the amplitude model's is
    negative), every coefficient of [gradR] is NaN, whatever the rotation
    amplitude of that completion and whatever the other completions
    contribute. *)
Theorem rotatedGrad_NaN_completion (k : Z) :
  0 <= k < 2 ^ Z.of_nat (length (rotated_sites basis (length basis))) ->
  psi w (completion basis state k) = cNaN ->
  rotatedGrad w basis state table
  = (table, Returned (replicate (Z.to_nat (npar_ w)) cNaN)).
Proof.
  intros Hk Hpsi.
  assert (Hsame : length state = length basis) by lia.
  rewrite rotatedGrad_run by assumption. do 2 f_equal.
  unfold estimator, quotient. rewrite Hsame.
  set (count := 2 ^ Z.of_nat (length (rotated_sites basis (length basis)))) in *.
  assert (Hcount : count = Z.of_nat (Z.to_nat count)) by lia.
  rewrite Hcount.
  match goal with |- context [numerator w ?V ?A _] =>
    destruct (sums_NaN w Grad_length V A k (Z.to_nat count)) as [Hnum Hden];
      [lia | exact Hpsi |]
  end.
  rewrite Hnum, Hden. apply map_replicate.
Qed.

(** X24. Under the conditions in which [rotatedGrad] returns, if [psi] is
    a number at every completion and the denominator is not zero, every
    coefficient of [gradR] is a number: neither NaN nor infinite. *)
Theorem rotatedGrad_numbers :
  (forall i,
     0 <= i < 2 ^ Z.of_nat (length (rotated_sites basis (length basis))) ->
     is_number (psi w (completion basis state i))) ->
  estimator_denominator w table basis state <> cd_of_double 0 ->
  exists gradR : VectorXcd,
    rotatedGrad w basis state table = (table, Returned gradR)
    /\ Forall is_number gradR.
Proof.
  intros Hfin Hden.
  assert (Hsame : length state = length basis) by lia.
  eexists. split; [apply rotatedGrad_run; assumption|].
  unfold estimator_denominator in Hden. unfold estimator, quotient.
  rewrite Hsame in *.
  set (count := 2 ^ Z.of_nat (length (rotated_sites basis (length basis)))) in *.
  assert (Hcount : count = Z.of_nat (Z.to_nat count)) by lia.
  rewrite Hcount in Hden, Hfin. rewrite Hcount.
  match goal with |- context [numerator w ?V ?A _] =>
    destruct (sums_numbers w V A (Z.to_nat count) Hfin) as [Hnum [d Hd]]
  end.
  rewrite Hd in Hden |- *.
  apply Forall_forall. intros x Hx. apply list_elem_of_In, in_map_iff in Hx.
  destruct Hx as (nk & <- & Hnk).
  rewrite List.Forall_forall in Hnum. destruct (Hnum nk Hnk) as [z ->].
  rewrite cd_div_num; [eexists; reflexivity|].
  intros ->. apply Hden. reflexivity.
Qed.

End NotNumbers.

Lemma rotatedGrad_NaN_completion_witness :
  rotatedGrad (Toy.wavefunction2 2 4 0) ["Z"; "X"]%string [0%R; 0%R] Toy.X_table
  = (Toy.X_table, Returned [cNaN; cNaN]).
Proof.
  apply (@rotatedGrad_NaN_completion Toy.rbm Toy.engine
           (Toy.wavefunction2 2 4 0) ["Z"; "X"]%string [0%R; 0%R] Toy.X_table)
    with (k := 1).
  - reflexivity.
  - reflexivity.
  - binary_vector.
  - intros v. reflexivity.
  - cbn. lia.
  - apply (X_table_covers_X 1). reflexivity.
  - cbn. lia.
  - apply psi_toy_NaN.
Defined.

Lemma rotatedGrad_numbers_witness :
  exists gradR : VectorXcd,
    rotatedGrad (Toy.wavefunction 2 1) ["Z"; "X"]%string [0%R; 0%R] Toy.X_table
    = (Toy.X_table, Returned gradR)
    /\ Forall is_number gradR.
Proof.
  apply (@rotatedGrad_numbers Toy.rbm Toy.engine (Toy.wavefunction 2 1)
           ["Z"; "X"]%string [0%R; 0%R] Toy.X_table).
  - reflexivity.
  - reflexivity.
  - binary_vector.
  - intros v. reflexivity.
  - cbn. lia.
  - apply (X_table_covers_X 1). reflexivity.
  - intros i _. rewrite psi_toy_one. eexists. reflexivity.
  - rewrite two_sites_denominator. intros H. injection H as H.
    assert (Hs : (0 < / sqrt 2)%R) by (apply Rinv_0_lt_compat, sqrt_lt_R0; lra).
    lra.
Defined.
